(** * Eviction caches of package [cache]: LRU, Two-Queue and ARC

    A shallow embedding of [lru.go], [two_queue.go] and [arc.go], and the
    properties of the three replacement policies.

    Conventions of the embedding.
    - Go's [int] is modelled by [Z], without wrap-around.  The integers
      the code computes are capacities, list lengths, the ARC parameter
      [p] (kept between 0 and [size]), quotients of lengths, and one sum
      or difference of two of these.  The only sums that can exceed a
      capacity are [len + len] and [p + delta] with [delta <= len(B2)];
      [p] leaves 0 only after [replace] has filled a ghost list, which
      takes [size] resident entries.  A sum of [2 ^ 63] therefore needs
      [2 ^ 62] entries in memory, more than a 64-bit address space
      holds.
    - A key ([uint64]) is only ever compared for equality; it is an [N].
    - A value of type [any] is an [option V]: [None] is Go's [nil], the
      payload of a ghost entry.
    - [container/list] together with the index [items] is the list of
      [*Item]s from front (most recently used) to back; [items[key]] is
      the element of that list carrying [key].
    - A method with a pointer receiver returns the updated receiver,
      paired with the values the method returns.
    - [float64] is IEEE 754 binary64 as specified by [SpecFloat]. *)

From Stdlib Require Import ZArith NArith List Bool Lia.
From Stdlib Require Import Floats.SpecFloat.
Import ListNotations.

Open Scope Z_scope.

(** ** Shared types *)

Definition key : Type := N.

Definition any (V : Type) : Type := option V.

Record Item (V : Type) : Type := mkItem { Key : key; Value : any V }.

Arguments mkItem {V} _ _.
Arguments Key {V} _.
Arguments Value {V} _.

(** [errors.New] results: construction either yields a cache or an error
    carrying its message. *)
Inductive error : Type :=
| ErrPositiveSize      (* "must provide a positive size" *)
| ErrRecentRatio       (* "invalid recent ratio" *)
| ErrGhostRatio.       (* "invalid ghost ratio" *)

Inductive result (A : Type) : Type :=
| Ok (a : A)
| Err (e : error).

Arguments Ok {A} _.
Arguments Err {A} _.

Definition is_ok {A : Type} (r : result A) : bool :=
  match r with Ok _ => true | Err _ => false end.

(** ** lru.go *)

Module LRU.

Section WithValue.

Context {V : Type}.

Record t : Type := mk { size : Z; evictList : list (Item V) }.

(** [c.items[key]]: the list element indexed under [key]. *)
Fixpoint items (l : list (Item V)) (k : key) : option (Item V) :=
  match l with
  | [] => None
  | e :: l' => if N.eqb (Key e) k then Some e else items l' k
  end.

(** [evictList.Remove(ele)] followed by [delete(c.items, key)], for the
    element [ele] indexed under [k]. *)
Fixpoint unlink (l : list (Item V)) (k : key) : list (Item V) :=
  match l with
  | [] => []
  | e :: l' => if N.eqb (Key e) k then l' else e :: unlink l' k
  end.

(** [evictList.Back()]. *)
Fixpoint Back (l : list (Item V)) : option (Item V) :=
  match l with
  | [] => None
  | e :: l' => match l' with [] => Some e | _ :: _ => Back l' end
  end.

Definition Len (c : t) : Z := Z.of_nat (length (evictList c)).

Definition contains (c : t) (k : key) : bool :=
  match items (evictList c) k with
  | Some _ => true
  | None => false
  end.

Definition removeElement (c : t) (ele : Item V) : t :=
  mk (size c) (unlink (evictList c) (Key ele)).

Definition removeOldest (c : t) : t :=
  match Back (evictList c) with
  | Some _ => mk (size c) (removelast (evictList c))
  | None => c
  end.

Definition getAndRemoveOldest (c : t) : t * (key * any V * bool) :=
  match Back (evictList c) with
  | Some ele =>
      (mk (size c) (removelast (evictList c)), (Key ele, Value ele, true))
  | None => (c, (0%N, None, false))
  end.

Definition removeIfExist (c : t) (k : key) : t * bool :=
  match items (evictList c) k with
  | Some ele => (removeElement c ele, true)
  | None => (c, false)
  end.

Definition Get (c : t) (k : key) : t * (any V * bool) :=
  match items (evictList c) k with
  | Some ele =>
      (mk (size c) (ele :: unlink (evictList c) k), (Value ele, true))
  | None => (c, (None, false))
  end.

Definition Put (c : t) (k : key) (value : any V) : t :=
  match items (evictList c) k with
  | Some ele =>
      mk (size c) (mkItem (Key ele) value :: unlink (evictList c) k)
  | None =>
      let c' := mk (size c) (mkItem k value :: evictList c) in
      if Len c' >? size c' then removeOldest c' else c'
  end.

Definition Peek (c : t) (k : key) : any V * bool :=
  match items (evictList c) k with
  | Some ele => (Value ele, true)
  | None => (None, false)
  end.

Definition Remove (c : t) (k : key) : t := fst (removeIfExist c k).

Definition Purge (c : t) : t := mk (size c) [].

(** Each element is cloned, so the snapshot is the sequence of items
    itself, front to back. *)
Definition Items (c : t) : list (Item V) := evictList c.

End WithValue.

Arguments t : clear implicits.

Definition NewLRU (V : Type) (size : Z) : result (t V) :=
  if size <=? 0 then Err ErrPositiveSize else Ok (mk size []).

(** Modelled from the spec: [arc.go] calls the container through the
    exported names [Contains], [RemoveOldest], [GetAndRemoveOldest] and a
    [Remove] that reports whether the key existed; [lru.go] declares them
    as [contains], [removeOldest], [getAndRemoveOldest] and
    [removeIfExist] (spec 4.1: "Remove(key) -> removed: deletes the entry
    if present; reports whether it existed"). *)
Definition Contains {V : Type} (c : t V) (k : key) : bool := contains c k.

(** Modelled from the spec: [RemoveOldest] is [removeOldest] ("evict
    tail, discard"). *)
Definition RemoveOldest {V : Type} (c : t V) : t V := removeOldest c.

(** Modelled from the spec: [GetAndRemoveOldest] is [getAndRemoveOldest]
    ("evict tail, return its payload"). *)
Definition GetAndRemoveOldest {V : Type} (c : t V) :
  t V * (key * any V * bool) := getAndRemoveOldest c.

(** Modelled from the spec: the [Remove] of [arc.go] returns the flag of
    [removeIfExist]. *)
Definition RemoveB {V : Type} (c : t V) (k : key) : t V * bool :=
  removeIfExist c k.

End LRU.

(** ** float64

    [two_queue.go] scales the capacity by a [float64] ratio.  IEEE 754
    binary64 is the standard library's executable specification
    [SpecFloat] at precision 53 and maximal exponent 1024. *)

Module Float64.

Definition float64 : Type := spec_float.

Definition prec : Z := 53.
Definition emax : Z := 1024.

(** The conversion [float64(n)] of an [int]: rounding to nearest, ties to
    even. *)
Definition of_int (n : Z) : float64 := binary_normalize prec emax n 0 false.

Definition mul (x y : float64) : float64 := SFmul prec emax x y.

Definition ltb (x y : float64) : bool := SFltb x y.

Definition MinInt64 : Z := - 2 ^ 63.
Definition MaxInt64 : Z := 2 ^ 63 - 1.

(** The conversion [int(f)]: the fraction is discarded (truncation towards
    zero).  For a value that [int] cannot represent (also an infinity or a
    NaN) Go leaves the result to the implementation; the model takes the
    one of amd64, [MinInt64]. *)
Definition to_int (f : float64) : Z :=
  match f with
  | S754_zero _ => 0
  | S754_finite s m e =>
      let a := if 0 <=? e then Zpos m * 2 ^ e else Zpos m / 2 ^ (- e) in
      let z := if s then - a else a in
      if (MinInt64 <=? z) && (z <=? MaxInt64) then z else MinInt64
  | S754_infinity _ => MinInt64
  | S754_nan => MinInt64
  end.

(** The constants [0.0], [1.0], [0.25] and [0.50]. *)
Definition zero : float64 := S754_zero false.
Definition one : float64 := S754_finite false (2 ^ 52) (- 52).
Definition quarter : float64 := S754_finite false (2 ^ 52) (- 54).
Definition half : float64 := S754_finite false (2 ^ 52) (- 53).

End Float64.

(** ** two_queue.go *)

Module TwoQueueCache.

Definition defaultRecentRatio : Float64.float64 := Float64.quarter.
Definition defaultGhostRatio : Float64.float64 := Float64.half.

Section WithValue.

Context {V : Type}.

Record t : Type := mk {
  size : Z;
  recentSize : Z;
  recent : LRU.t V;
  frequent : LRU.t V;
  evict : LRU.t V
}.

Definition Len (c : t) : Z := LRU.Len (recent c) + LRU.Len (frequent c).

Definition Get (c : t) (k : key) : t * (any V * bool) :=
  let '(frequent', (val, ok)) := LRU.Get (frequent c) k in
  if ok then
    (mk (size c) (recentSize c) (recent c) frequent' (evict c), (val, ok))
  else
    let '(val, ok) := LRU.Peek (recent c) k in
    if ok then
      (mk (size c) (recentSize c)
          (LRU.Remove (recent c) k)
          (LRU.Put (frequent c) k val)
          (evict c),
       (val, ok))
    else (c, (None, false)).

Definition ensureSpace (c : t) (recentEvict : bool) : t :=
  if LRU.Len (recent c) + LRU.Len (frequent c) <? size c then c
  else if (LRU.Len (recent c) >? 0)
          && ((LRU.Len (recent c) >? recentSize c)
              || ((LRU.Len (recent c) =? recentSize c) && negb recentEvict))
  then
    let '(recent', (k, _, _)) := LRU.getAndRemoveOldest (recent c) in
    mk (size c) (recentSize c) recent' (frequent c)
       (LRU.Put (evict c) k None)
  else
    mk (size c) (recentSize c) (recent c)
       (LRU.removeOldest (frequent c)) (evict c).

Definition Put (c : t) (k : key) (value : any V) : t :=
  if LRU.contains (frequent c) k then
    mk (size c) (recentSize c) (recent c)
       (LRU.Put (frequent c) k value) (evict c)
  else if LRU.contains (recent c) k then
    mk (size c) (recentSize c)
       (LRU.Remove (recent c) k)
       (LRU.Put (frequent c) k value)
       (evict c)
  else if LRU.contains (evict c) k then
    let c1 := ensureSpace c true in
    mk (size c1) (recentSize c1) (recent c1)
       (LRU.Put (frequent c1) k value)
       (LRU.Remove (evict c1) k)
  else
    let c1 := ensureSpace c false in
    mk (size c1) (recentSize c1)
       (LRU.Put (recent c1) k value)
       (frequent c1) (evict c1).

Definition Peek (c : t) (k : key) : any V * bool :=
  let '(val, ok) := LRU.Peek (frequent c) k in
  if ok then (val, ok) else LRU.Peek (recent c) k.

Definition Remove (c : t) (k : key) : t :=
  let '(frequent', ok) := LRU.removeIfExist (frequent c) k in
  if ok then mk (size c) (recentSize c) (recent c) frequent' (evict c)
  else
    let '(recent', ok) := LRU.removeIfExist (recent c) k in
    if ok then mk (size c) (recentSize c) recent' (frequent c) (evict c)
    else
      let '(evict', _) := LRU.removeIfExist (evict c) k in
      mk (size c) (recentSize c) (recent c) (frequent c) evict'.

Definition Purge (c : t) : t :=
  mk (size c) (recentSize c)
     (LRU.Purge (recent c)) (LRU.Purge (frequent c)) (LRU.Purge (evict c)).

Definition Items (c : t) : list (Item V) :=
  LRU.Items (recent c) ++ LRU.Items (frequent c).

End WithValue.

Arguments t : clear implicits.

Definition newTowQueueParams (V : Type) (size : Z)
    (recentRatio ghostRatio : Float64.float64) : result (t V) :=
  if size <=? 0 then Err ErrPositiveSize
  else if Float64.ltb recentRatio Float64.zero
          || Float64.ltb Float64.one recentRatio
  then Err ErrRecentRatio
  else if Float64.ltb ghostRatio Float64.zero
          || Float64.ltb Float64.one ghostRatio
  then Err ErrGhostRatio
  else
    let recentSize :=
      Float64.to_int (Float64.mul (Float64.of_int size) recentRatio) in
    let evictSize :=
      Float64.to_int (Float64.mul (Float64.of_int size) ghostRatio) in
    match LRU.NewLRU V size with
    | Err e => Err e
    | Ok recent =>
        match LRU.NewLRU V size with
        | Err e => Err e
        | Ok frequent =>
            match LRU.NewLRU V evictSize with
            | Err e => Err e
            | Ok evict => Ok (mk size recentSize recent frequent evict)
            end
        end
    end.

Definition NewTwoQueueCache (V : Type) (size : Z) : result (t V) :=
  newTowQueueParams V size defaultRecentRatio defaultGhostRatio.

End TwoQueueCache.

(** ** arc.go *)

(** Integer division [a / b] of Go: truncated towards zero, and a run-time
    panic ([None]) when the divisor is zero. *)
Definition quo (a b : Z) : option Z :=
  if b =? 0 then None else Some (Z.quot a b).

Module ARCCache.

Section WithValue.

Context {V : Type}.

Record t : Type := mk {
  size : Z;
  p : Z;
  t1 : LRU.t V;
  b1 : LRU.t V;
  t2 : LRU.t V;
  b2 : LRU.t V
}.

Definition Len (c : t) : Z := LRU.Len (t1 c) + LRU.Len (t2 c).

Definition Get (c : t) (k : key) : t * (any V * bool) :=
  let '(value, ok) := LRU.Peek (t1 c) k in
  if ok then
    (mk (size c) (p c)
        (LRU.Remove (t1 c) k) (b1 c)
        (LRU.Put (t2 c) k value) (b2 c),
     (value, ok))
  else
    let '(t2', (value, ok)) := LRU.Get (t2 c) k in
    if ok then (mk (size c) (p c) (t1 c) (b1 c) t2' (b2 c), (value, ok))
    else (c, (None, false)).

Definition replace (c : t) (b2ContainsKey : bool) : t :=
  if (LRU.Len (t1 c) >? 0)
     && ((LRU.Len (t1 c) >? p c)
         || ((LRU.Len (t1 c) =? p c) && b2ContainsKey))
  then
    let '(t1', (k, _, ok)) := LRU.GetAndRemoveOldest (t1 c) in
    if ok then
      mk (size c) (p c) t1' (LRU.Put (b1 c) k None) (t2 c) (b2 c)
    else mk (size c) (p c) t1' (b1 c) (t2 c) (b2 c)
  else
    let '(t2', (k, _, ok)) := LRU.GetAndRemoveOldest (t2 c) in
    if ok then
      mk (size c) (p c) (t1 c) (b1 c) t2' (LRU.Put (b2 c) k None)
    else mk (size c) (p c) (t1 c) (b1 c) t2' (b2 c).

(** The guarded call of [Put]:
    [if c.t1.Len()+c.t2.Len() >= c.size { c.replace(b2ContainsKey) }]. *)
Definition makeRoom (c : t) (b2ContainsKey : bool) : t :=
  if LRU.Len (t1 c) + LRU.Len (t2 c) >=? size c
  then replace c b2ContainsKey else c.

(** [delta] of the [B1] branch: [1], or [b2Len / b1Len] when
    [b2Len > b1Len]. *)
Definition deltaB1 (c : t) : option Z :=
  let b1Len := LRU.Len (b1 c) in
  let b2Len := LRU.Len (b2 c) in
  if b2Len >? b1Len then quo b2Len b1Len else Some 1.

(** [delta] of the [B2] branch: [1], or [b1Len / b2Len] when
    [b1Len > b2Len]. *)
Definition deltaB2 (c : t) : option Z :=
  let b1Len := LRU.Len (b1 c) in
  let b2Len := LRU.Len (b2 c) in
  if b1Len >? b2Len then quo b1Len b2Len else Some 1.

Definition Put (c : t) (k : key) (value : any V) : option t :=
  if LRU.Contains (t1 c) k then
    Some (mk (size c) (p c)
             (LRU.Remove (t1 c) k) (b1 c)
             (LRU.Put (t2 c) k value) (b2 c))
  else if LRU.Contains (t2 c) k then
    Some (mk (size c) (p c) (t1 c) (b1 c)
             (LRU.Put (t2 c) k value) (b2 c))
  else if LRU.Contains (b1 c) k then
    match deltaB1 c with
    | None => None
    | Some delta =>
        let p' := if p c + delta >=? size c then size c else p c + delta in
        let c1 := mk (size c) p' (t1 c) (b1 c) (t2 c) (b2 c) in
        let c2 := makeRoom c1 false in
        Some (mk (size c2) (p c2)
                 (t1 c2) (LRU.Remove (b1 c2) k)
                 (LRU.Put (t2 c2) k value) (b2 c2))
    end
  else if LRU.Contains (b2 c) k then
    match deltaB2 c with
    | None => None
    | Some delta =>
        let p' := if delta >=? p c then 0 else p c - delta in
        let c1 := mk (size c) p' (t1 c) (b1 c) (t2 c) (b2 c) in
        let c2 := makeRoom c1 true in
        Some (mk (size c2) (p c2)
                 (t1 c2) (b1 c2)
                 (LRU.Put (t2 c2) k value) (LRU.Remove (b2 c2) k))
    end
  else
    let c1 := makeRoom c false in
    let b1' :=
      if LRU.Len (b1 c1) >? size c1 - p c1
      then LRU.RemoveOldest (b1 c1) else b1 c1 in
    let b2' :=
      if LRU.Len (b2 c1) >? p c1
      then LRU.RemoveOldest (b2 c1) else b2 c1 in
    Some (mk (size c1) (p c1)
             (LRU.Put (t1 c1) k value) b1'
             (t2 c1) b2').

Definition Peek (c : t) (k : key) : any V * bool :=
  let '(value, ok) := LRU.Peek (t1 c) k in
  if ok then (value, ok) else LRU.Peek (t2 c) k.

Definition Remove (c : t) (k : key) : t :=
  let '(t1', ok) := LRU.RemoveB (t1 c) k in
  if ok then mk (size c) (p c) t1' (b1 c) (t2 c) (b2 c)
  else
    let '(t2', ok) := LRU.RemoveB (t2 c) k in
    if ok then mk (size c) (p c) (t1 c) (b1 c) t2' (b2 c)
    else
      let '(b1', ok) := LRU.RemoveB (b1 c) k in
      if ok then mk (size c) (p c) (t1 c) b1' (t2 c) (b2 c)
      else
        let '(b2', _) := LRU.RemoveB (b2 c) k in
        mk (size c) (p c) (t1 c) (b1 c) (t2 c) b2'.

Definition Purge (c : t) : t :=
  mk (size c) (p c)
     (LRU.Purge (t1 c)) (LRU.Purge (b1 c))
     (LRU.Purge (t2 c)) (LRU.Purge (b2 c)).

Definition Items (c : t) : list (Item V) :=
  LRU.Items (t1 c) ++ LRU.Items (t2 c).

End WithValue.

Arguments t : clear implicits.

Definition NewARC (V : Type) (size : Z) : result (t V) :=
  match LRU.NewLRU V size with
  | Err e => Err e
  | Ok t1 =>
      match LRU.NewLRU V size with
      | Err e => Err e
      | Ok b1 =>
          match LRU.NewLRU V size with
          | Err e => Err e
          | Ok t2 =>
              match LRU.NewLRU V size with
              | Err e => Err e
              | Ok b2 => Ok (mk size 0 t1 b1 t2 b2)
              end
          end
      end
  end.

End ARCCache.

(** ** Sequences of public operations

    A client drives a cache by a sequence of calls; [op] names one call
    with its arguments and [exec] performs it on the receiver, dropping
    the returned values.  [Peek], [Items] and [Len] do not write. *)

Inductive op (V : Type) : Type :=
| OpGet (k : key)
| OpPut (k : key) (value : any V)
| OpPeek (k : key)
| OpRemove (k : key)
| OpPurge
| OpItems
| OpLen.

Arguments OpGet {V} _.
Arguments OpPut {V} _ _.
Arguments OpPeek {V} _.
Arguments OpRemove {V} _.
Arguments OpPurge {V}.
Arguments OpItems {V}.
Arguments OpLen {V}.

Definition lru_exec {V : Type} (c : LRU.t V) (o : op V) : LRU.t V :=
  match o with
  | OpGet k => fst (LRU.Get c k)
  | OpPut k v => LRU.Put c k v
  | OpRemove k => LRU.Remove c k
  | OpPurge => LRU.Purge c
  | OpPeek _ | OpItems | OpLen => c
  end.

Definition lru_run {V : Type} (c : LRU.t V) (ops : list (op V)) : LRU.t V :=
  fold_left lru_exec ops c.

Definition twoq_exec {V : Type} (c : TwoQueueCache.t V) (o : op V) :
  TwoQueueCache.t V :=
  match o with
  | OpGet k => fst (TwoQueueCache.Get c k)
  | OpPut k v => TwoQueueCache.Put c k v
  | OpRemove k => TwoQueueCache.Remove c k
  | OpPurge => TwoQueueCache.Purge c
  | OpPeek _ | OpItems | OpLen => c
  end.

Definition twoq_run {V : Type} (c : TwoQueueCache.t V) (ops : list (op V)) :
  TwoQueueCache.t V :=
  fold_left twoq_exec ops c.

(** For ARC a call may panic ([None]); a panic ends the run. *)
Definition arc_exec {V : Type} (c : ARCCache.t V) (o : op V) :
  option (ARCCache.t V) :=
  match o with
  | OpGet k => Some (fst (ARCCache.Get c k))
  | OpPut k v => ARCCache.Put c k v
  | OpRemove k => Some (ARCCache.Remove c k)
  | OpPurge => Some (ARCCache.Purge c)
  | OpPeek _ | OpItems | OpLen => Some c
  end.

Fixpoint arc_run {V : Type} (c : ARCCache.t V) (ops : list (op V)) :
  option (ARCCache.t V) :=
  match ops with
  | [] => Some c
  | o :: ops' =>
      match arc_exec c o with
      | Some c' => arc_run c' ops'
      | None => None
      end
  end.

(** The keys held by a container, front to back. *)
Definition keys {V : Type} (c : LRU.t V) : list key :=
  map Key (LRU.evictList c).

(** ** Representation invariants

    [disjoint a b]: no key is held by both containers. *)
Definition disjoint {V : Type} (a b : LRU.t V) : Prop :=
  forall k, In k (keys a) -> ~ In k (keys b).

(** A container indexes each key once and respects its capacity. *)
Record lru_inv {V : Type} (c : LRU.t V) : Prop := {
  lru_cap_pos : 0 < LRU.size c;
  lru_nodup : NoDup (keys c);
  lru_len : LRU.Len c <= LRU.size c
}.

(** The invariant of a 2Q cache built by [NewTwoQueueCache]. *)
Record twoq_inv {V : Type} (c : TwoQueueCache.t V) : Prop := {
  tq_recentSize : TwoQueueCache.recentSize c < TwoQueueCache.size c;
  tq_recent : lru_inv (TwoQueueCache.recent c);
  tq_frequent : lru_inv (TwoQueueCache.frequent c);
  tq_evict : lru_inv (TwoQueueCache.evict c);
  tq_recent_cap :
    LRU.size (TwoQueueCache.recent c) = TwoQueueCache.size c;
  tq_frequent_cap :
    LRU.size (TwoQueueCache.frequent c) = TwoQueueCache.size c;
  tq_len : TwoQueueCache.Len c <= TwoQueueCache.size c;
  tq_rf : disjoint (TwoQueueCache.recent c) (TwoQueueCache.frequent c);
  tq_re : disjoint (TwoQueueCache.recent c) (TwoQueueCache.evict c);
  tq_fe : disjoint (TwoQueueCache.frequent c) (TwoQueueCache.evict c)
}.

(** The invariant of an ARC cache built by [NewARC]. *)
Record arc_inv {V : Type} (c : ARCCache.t V) : Prop := {
  arc_p : 0 <= ARCCache.p c <= ARCCache.size c;
  arc_t1 : lru_inv (ARCCache.t1 c);
  arc_b1 : lru_inv (ARCCache.b1 c);
  arc_t2 : lru_inv (ARCCache.t2 c);
  arc_b2 : lru_inv (ARCCache.b2 c);
  arc_t1_cap : LRU.size (ARCCache.t1 c) = ARCCache.size c;
  arc_t2_cap : LRU.size (ARCCache.t2 c) = ARCCache.size c;
  arc_t1_t2 : disjoint (ARCCache.t1 c) (ARCCache.t2 c);
  arc_t1_b1 : disjoint (ARCCache.t1 c) (ARCCache.b1 c);
  arc_t1_b2 : disjoint (ARCCache.t1 c) (ARCCache.b2 c);
  arc_t2_b1 : disjoint (ARCCache.t2 c) (ARCCache.b1 c);
  arc_t2_b2 : disjoint (ARCCache.t2 c) (ARCCache.b2 c);
  arc_b1_b2 : disjoint (ARCCache.b1 c) (ARCCache.b2 c)
}.

(** * Properties *)

(** ** The recency list *)

Section ListFacts.

Context {V : Type}.

Implicit Types (l : list (Item V)) (k : key) (e : Item V).

Lemma items_Some l k e :
  LRU.items l k = Some e -> Key e = k /\ In e l.
Proof.
  induction l as [|a l IH]; simpl; [discriminate|].
  destruct (N.eqb_spec (Key a) k) as [Hk|Hk]; intros H.
  - injection H as <-. auto.
  - destruct (IH H) as [? ?]. auto.
Qed.

Lemma items_None l k :
  LRU.items l k = None <-> ~ In k (map Key l).
Proof.
  induction l as [|a l IH]; simpl; [tauto|].
  destruct (N.eqb_spec (Key a) k) as [Hk|Hk].
  - split; [discriminate|]. intros H. exfalso. auto.
  - rewrite IH. tauto.
Qed.

Lemma items_In l k :
  In k (map Key l) -> exists e, LRU.items l k = Some e.
Proof.
  intros H. destruct (LRU.items l k) as [e|] eqn:E; [eauto|].
  apply items_None in E. contradiction.
Qed.

Lemma unlink_length l k e :
  LRU.items l k = Some e -> S (length (LRU.unlink l k)) = length l.
Proof.
  induction l as [|a l IH]; simpl; [discriminate|].
  destruct (N.eqb (Key a) k); [reflexivity|].
  intros H. simpl. f_equal. auto.
Qed.

Lemma unlink_absent l k :
  LRU.items l k = None -> LRU.unlink l k = l.
Proof.
  induction l as [|a l IH]; simpl; [reflexivity|].
  destruct (N.eqb (Key a) k); [discriminate|].
  intros H. f_equal. auto.
Qed.

Lemma unlink_incl l k k' :
  In k' (map Key (LRU.unlink l k)) -> In k' (map Key l).
Proof.
  induction l as [|a l IH]; simpl; [tauto|].
  destruct (N.eqb (Key a) k); simpl; tauto.
Qed.

Lemma unlink_other l k k' :
  k' <> k -> In k' (map Key l) -> In k' (map Key (LRU.unlink l k)).
Proof.
  intros Hne. induction l as [|a l IH]; simpl; [tauto|].
  destruct (N.eqb_spec (Key a) k) as [Hk|Hk]; simpl.
  - intros [H|H]; [congruence|assumption].
  - tauto.
Qed.

Lemma unlink_NoDup l k :
  NoDup (map Key l) -> NoDup (map Key (LRU.unlink l k)).
Proof.
  induction l as [|a l IH]; simpl; [auto|].
  intros H. inversion H as [|? ? Hn Hd]; subst.
  destruct (N.eqb (Key a) k); [assumption|].
  simpl. constructor; [|auto].
  intros Hin. apply Hn. eapply unlink_incl; eauto.
Qed.

Lemma unlink_gone l k :
  NoDup (map Key l) -> ~ In k (map Key (LRU.unlink l k)).
Proof.
  induction l as [|a l IH]; simpl; [tauto|].
  intros H. inversion H as [|? ? Hn Hd]; subst.
  destruct (N.eqb_spec (Key a) k) as [Hk|Hk]; simpl.
  - congruence.
  - intros [H1|H1]; [congruence|]. now apply IH.
Qed.

Lemma Back_None l : LRU.Back l = None <-> l = [].
Proof.
  induction l as [|a l IH]; simpl; [tauto|].
  destruct l as [|b l]; [split; discriminate|].
  rewrite IH. split; discriminate.
Qed.

Lemma Back_Some l e :
  LRU.Back l = Some e -> l = removelast l ++ [e].
Proof.
  induction l as [|a l IH]; [discriminate|].
  destruct l as [|b l].
  - simpl. intros H. injection H as <-. reflexivity.
  - intros H. change (LRU.Back (b :: l) = Some e) in H.
    change (removelast (a :: b :: l)) with (a :: removelast (b :: l)).
    simpl app. f_equal. auto.
Qed.

Lemma Back_keys l e :
  LRU.Back l = Some e -> map Key l = map Key (removelast l) ++ [Key e].
Proof.
  intros H. apply Back_Some in H. rewrite H at 1.
  now rewrite map_app.
Qed.

Lemma Back_length l e :
  LRU.Back l = Some e -> S (length (removelast l)) = length l.
Proof.
  intros H. apply Back_Some in H. rewrite H at 2.
  rewrite length_app. simpl. lia.
Qed.

Lemma removelast_incl l k :
  In k (map Key (removelast l)) -> In k (map Key l).
Proof.
  destruct (LRU.Back l) as [e|] eqn:E.
  - rewrite (Back_keys _ _ E), in_app_iff. auto.
  - apply Back_None in E. subst. simpl. tauto.
Qed.

Lemma removelast_NoDup l :
  NoDup (map Key l) -> NoDup (map Key (removelast l)).
Proof.
  destruct (LRU.Back l) as [e|] eqn:E.
  - rewrite (Back_keys _ _ E). intros H.
    apply NoDup_remove_1 in H. now rewrite app_nil_r in H.
  - apply Back_None in E. subst. auto.
Qed.

Lemma Back_gone l e :
  LRU.Back l = Some e -> NoDup (map Key l) ->
  ~ In (Key e) (map Key (removelast l)).
Proof.
  intros E. rewrite (Back_keys _ _ E). intros H.
  apply NoDup_remove_2 in H. now rewrite app_nil_r in H.
Qed.

Lemma Back_In l e : LRU.Back l = Some e -> In (Key e) (map Key l).
Proof.
  intros E. rewrite (Back_keys _ _ E), in_app_iff. simpl. auto.
Qed.

End ListFacts.

(** ** The bounded LRU container *)

Section LRUFacts.

Context {V : Type}.

Implicit Types (c : LRU.t V) (k : key) (v : any V).

Lemma contains_true c k : LRU.contains c k = true <-> In k (keys c).
Proof.
  unfold LRU.contains, keys.
  destruct (LRU.items (LRU.evictList c) k) as [e|] eqn:E.
  - apply items_Some in E as [<- Hin]. split; [|reflexivity].
    intros _. now apply in_map.
  - apply items_None in E. split; [discriminate|contradiction].
Qed.

Lemma contains_false c k : LRU.contains c k = false <-> ~ In k (keys c).
Proof.
  rewrite <- contains_true. destruct (LRU.contains c k); split; congruence.
Qed.

Lemma contains_items c k :
  LRU.contains c k = false -> LRU.items (LRU.evictList c) k = None.
Proof.
  unfold LRU.contains. destruct (LRU.items _ k); [discriminate|reflexivity].
Qed.

Lemma Len_nonneg c : 0 <= LRU.Len c.
Proof. unfold LRU.Len. lia. Qed.

Lemma Len_pos_of_contains c k : LRU.contains c k = true -> 1 <= LRU.Len c.
Proof.
  rewrite contains_true. unfold keys, LRU.Len.
  destruct (LRU.evictList c); simpl; [tauto|lia].
Qed.

(** *** removeOldest and getAndRemoveOldest *)

Lemma removeOldest_size c : LRU.size (LRU.removeOldest c) = LRU.size c.
Proof. unfold LRU.removeOldest. now destruct (LRU.Back _). Qed.

Lemma removeOldest_list c :
  LRU.evictList (LRU.removeOldest c) = removelast (LRU.evictList c).
Proof.
  unfold LRU.removeOldest.
  destruct (LRU.Back _) eqn:E; [reflexivity|].
  apply Back_None in E. now rewrite E.
Qed.

Lemma removeOldest_Len c :
  1 <= LRU.Len c -> LRU.Len (LRU.removeOldest c) = LRU.Len c - 1.
Proof.
  unfold LRU.Len. rewrite removeOldest_list.
  destruct (LRU.Back (LRU.evictList c)) eqn:E.
  - apply Back_length in E. lia.
  - apply Back_None in E. rewrite E. simpl. lia.
Qed.

Lemma removeOldest_Len_le c : LRU.Len (LRU.removeOldest c) <= LRU.Len c.
Proof.
  unfold LRU.Len. rewrite removeOldest_list.
  destruct (LRU.Back (LRU.evictList c)) eqn:E.
  - apply Back_length in E. lia.
  - apply Back_None in E. rewrite E. simpl. lia.
Qed.

Lemma removeOldest_incl c k :
  In k (keys (LRU.removeOldest c)) -> In k (keys c).
Proof. unfold keys. rewrite removeOldest_list. apply removelast_incl. Qed.

Lemma removeOldest_NoDup c :
  NoDup (keys c) -> NoDup (keys (LRU.removeOldest c)).
Proof. unfold keys. rewrite removeOldest_list. apply removelast_NoDup. Qed.

Lemma getAndRemoveOldest_fst c :
  fst (LRU.getAndRemoveOldest c) = LRU.removeOldest c.
Proof.
  unfold LRU.getAndRemoveOldest, LRU.removeOldest.
  now destruct (LRU.Back _).
Qed.

Lemma getAndRemoveOldest_found c c' k v ok :
  LRU.getAndRemoveOldest c = (c', (k, v, ok)) ->
  1 <= LRU.Len c ->
  ok = true /\ In k (keys c) /\ (NoDup (keys c) -> ~ In k (keys c')).
Proof.
  unfold LRU.getAndRemoveOldest, LRU.Len, keys.
  destruct (LRU.Back (LRU.evictList c)) as [e|] eqn:E.
  - intros H _. injection H as <- <- _ <-. simpl.
    split; [reflexivity|]. split.
    + now apply Back_In.
    + now apply Back_gone.
  - apply Back_None in E. rewrite E. simpl. lia.
Qed.

Lemma getAndRemoveOldest_empty c c' k v ok :
  LRU.getAndRemoveOldest c = (c', (k, v, ok)) ->
  LRU.Len c = 0 -> ok = false /\ c' = c.
Proof.
  unfold LRU.getAndRemoveOldest, LRU.Len.
  destruct (LRU.Back (LRU.evictList c)) as [e|] eqn:E.
  - apply Back_length in E. lia.
  - intros H _. injection H as <- _ _ <-. auto.
Qed.

(** *** Remove *)

Lemma Remove_size c k : LRU.size (LRU.Remove c k) = LRU.size c.
Proof.
  unfold LRU.Remove, LRU.removeIfExist.
  now destruct (LRU.items _ k).
Qed.

Lemma Remove_list c k :
  LRU.evictList (LRU.Remove c k) = LRU.unlink (LRU.evictList c) k.
Proof.
  unfold LRU.Remove, LRU.removeIfExist, LRU.removeElement.
  destruct (LRU.items _ k) as [e|] eqn:E; simpl.
  - now apply items_Some in E as [-> _].
  - now rewrite unlink_absent.
Qed.

Lemma removeIfExist_spec c k :
  LRU.removeIfExist c k = (LRU.Remove c k, LRU.contains c k).
Proof.
  unfold LRU.Remove, LRU.contains, LRU.removeIfExist.
  now destruct (LRU.items _ k).
Qed.

Lemma Remove_absent c k : LRU.contains c k = false -> LRU.Remove c k = c.
Proof.
  unfold LRU.Remove, LRU.contains, LRU.removeIfExist.
  now destruct (LRU.items _ k).
Qed.

Lemma Remove_Len c k :
  LRU.contains c k = true -> LRU.Len (LRU.Remove c k) = LRU.Len c - 1.
Proof.
  unfold LRU.Len, LRU.contains. rewrite Remove_list.
  destruct (LRU.items _ k) as [e|] eqn:E; [|discriminate].
  apply unlink_length in E. lia.
Qed.

Lemma Remove_Len_le c k : LRU.Len (LRU.Remove c k) <= LRU.Len c.
Proof.
  destruct (LRU.contains c k) eqn:E.
  - rewrite Remove_Len by assumption. lia.
  - rewrite Remove_absent by assumption. lia.
Qed.

Lemma Remove_incl c k k' : In k' (keys (LRU.Remove c k)) -> In k' (keys c).
Proof. unfold keys. rewrite Remove_list. apply unlink_incl. Qed.

Lemma Remove_other c k k' :
  k' <> k -> In k' (keys c) -> In k' (keys (LRU.Remove c k)).
Proof. unfold keys. rewrite Remove_list. apply unlink_other. Qed.

Lemma Remove_NoDup c k : NoDup (keys c) -> NoDup (keys (LRU.Remove c k)).
Proof. unfold keys. rewrite Remove_list. apply unlink_NoDup. Qed.

Lemma Remove_gone c k : NoDup (keys c) -> ~ In k (keys (LRU.Remove c k)).
Proof. unfold keys. rewrite Remove_list. apply unlink_gone. Qed.

End LRUFacts.

Section LRUGetPut.

Context {V : Type}.

Implicit Types (c : LRU.t V) (k : key) (v : any V).

(** *** Get *)

Lemma Get_size c k : LRU.size (fst (LRU.Get c k)) = LRU.size c.
Proof. unfold LRU.Get. now destruct (LRU.items _ k). Qed.

Lemma Get_miss c k :
  LRU.contains c k = false -> LRU.Get c k = (c, (None, false)).
Proof.
  unfold LRU.Get, LRU.contains. now destruct (LRU.items _ k).
Qed.

Lemma Get_found c k : snd (snd (LRU.Get c k)) = LRU.contains c k.
Proof. unfold LRU.Get, LRU.contains. now destruct (LRU.items _ k). Qed.

Lemma Get_Len c k : LRU.Len (fst (LRU.Get c k)) = LRU.Len c.
Proof.
  unfold LRU.Get, LRU.Len.
  destruct (LRU.items _ k) as [e|] eqn:E; simpl; [|reflexivity].
  apply unlink_length in E. lia.
Qed.

Lemma Get_keys c k k' :
  In k' (keys (fst (LRU.Get c k))) <-> In k' (keys c).
Proof.
  unfold LRU.Get, keys.
  destruct (LRU.items _ k) as [e|] eqn:E; simpl; [|tauto].
  apply items_Some in E as [He Hin]. split.
  - intros [H|H]; [subst; now apply in_map|]. eapply unlink_incl; eauto.
  - intros H. destruct (N.eq_dec k' k) as [->|Hne]; [auto|].
    right. now apply unlink_other.
Qed.

Lemma Get_incl c k k' :
  In k' (keys (fst (LRU.Get c k))) -> In k' (keys c).
Proof. apply Get_keys. Qed.

Lemma Get_NoDup c k : NoDup (keys c) -> NoDup (keys (fst (LRU.Get c k))).
Proof.
  unfold LRU.Get, keys.
  destruct (LRU.items _ k) as [e|] eqn:E; simpl; [|auto].
  apply items_Some in E as [He Hin]. intros H. constructor.
  - rewrite He. now apply unlink_gone.
  - now apply unlink_NoDup.
Qed.

Lemma Peek_found c k : snd (LRU.Peek c k) = LRU.contains c k.
Proof. unfold LRU.Peek, LRU.contains. now destruct (LRU.items _ k). Qed.

(** *** Put *)

Lemma Put_size c k v : LRU.size (LRU.Put c k v) = LRU.size c.
Proof.
  unfold LRU.Put. destruct (LRU.items _ k); [reflexivity|].
  cbv zeta. destruct (_ >? _); [|reflexivity].
  now rewrite removeOldest_size.
Qed.

Lemma Put_present c k v :
  LRU.contains c k = true ->
  LRU.evictList (LRU.Put c k v)
  = mkItem k v :: LRU.unlink (LRU.evictList c) k.
Proof.
  unfold LRU.Put, LRU.contains.
  destruct (LRU.items _ k) as [e|] eqn:E; [|discriminate].
  apply items_Some in E as [-> _]. reflexivity.
Qed.

Lemma Put_absent_room c k v :
  LRU.contains c k = false -> LRU.Len c < LRU.size c ->
  LRU.evictList (LRU.Put c k v) = mkItem k v :: LRU.evictList c.
Proof.
  intros Hc Hl. unfold LRU.Put. rewrite (contains_items _ _ Hc). cbv zeta.
  replace (_ >? _) with false; [reflexivity|].
  symmetry. rewrite Z.gtb_ltb. apply Z.ltb_ge.
  unfold LRU.Len in *. simpl LRU.evictList. simpl LRU.size.
  rewrite length_cons. lia.
Qed.

Lemma Put_absent_full c k v :
  LRU.contains c k = false -> LRU.size c <= LRU.Len c ->
  LRU.evictList (LRU.Put c k v)
  = removelast (mkItem k v :: LRU.evictList c).
Proof.
  intros Hc Hl. unfold LRU.Put. rewrite (contains_items _ _ Hc). cbv zeta.
  replace (_ >? _) with true; [now rewrite removeOldest_list|].
  symmetry. rewrite Z.gtb_ltb. apply Z.ltb_lt.
  unfold LRU.Len in *. simpl LRU.evictList. simpl LRU.size.
  rewrite length_cons. lia.
Qed.

Lemma Put_Len_present c k v :
  LRU.contains c k = true -> LRU.Len (LRU.Put c k v) = LRU.Len c.
Proof.
  intros Hc. unfold LRU.Len. rewrite Put_present by assumption.
  unfold LRU.contains in Hc.
  destruct (LRU.items _ k) as [e|] eqn:E; [|discriminate].
  apply unlink_length in E. simpl. lia.
Qed.

Lemma Put_Len_absent_room c k v :
  LRU.contains c k = false -> LRU.Len c < LRU.size c ->
  LRU.Len (LRU.Put c k v) = LRU.Len c + 1.
Proof.
  intros Hc Hl. unfold LRU.Len. rewrite Put_absent_room by assumption.
  simpl. lia.
Qed.

Lemma Put_Len_absent_full c k v :
  LRU.contains c k = false -> LRU.size c <= LRU.Len c ->
  LRU.Len (LRU.Put c k v) = LRU.Len c.
Proof.
  intros Hc Hl. unfold LRU.Len. rewrite Put_absent_full by assumption.
  assert (H : LRU.Back (mkItem k v :: LRU.evictList c) <> None).
  { rewrite Back_None. discriminate. }
  destruct (LRU.Back (mkItem k v :: LRU.evictList c)) as [e|] eqn:E;
    [|congruence].
  apply Back_length in E. simpl in E |- *. lia.
Qed.

Lemma Put_Len_le c k v :
  LRU.Len c <= LRU.size c -> LRU.Len (LRU.Put c k v) <= LRU.size c.
Proof.
  intros Hl. destruct (LRU.contains c k) eqn:Hc.
  - rewrite Put_Len_present by assumption. lia.
  - destruct (Z.lt_ge_cases (LRU.Len c) (LRU.size c)).
    + rewrite Put_Len_absent_room by assumption. lia.
    + rewrite Put_Len_absent_full by assumption. lia.
Qed.

Lemma Put_Len_step c k v : LRU.Len (LRU.Put c k v) <= LRU.Len c + 1.
Proof.
  destruct (LRU.contains c k) eqn:Hc.
  - rewrite Put_Len_present by assumption. lia.
  - destruct (Z.lt_ge_cases (LRU.Len c) (LRU.size c)).
    + rewrite Put_Len_absent_room by assumption. lia.
    + rewrite Put_Len_absent_full by assumption. lia.
Qed.

Lemma Put_incl c k v k' :
  In k' (keys (LRU.Put c k v)) -> k' = k \/ In k' (keys c).
Proof.
  unfold keys. destruct (LRU.contains c k) eqn:Hc.
  - rewrite Put_present by assumption. simpl.
    intros [H|H]; [auto|]. right. eapply unlink_incl; eauto.
  - destruct (Z.lt_ge_cases (LRU.Len c) (LRU.size c)).
    + rewrite Put_absent_room by assumption. simpl. intuition.
    + rewrite Put_absent_full by assumption. intros Hin.
      apply removelast_incl in Hin. simpl in Hin. intuition.
Qed.

Lemma Put_NoDup c k v : NoDup (keys c) -> NoDup (keys (LRU.Put c k v)).
Proof.
  unfold keys. intros Hd. destruct (LRU.contains c k) eqn:Hc.
  - rewrite Put_present by assumption. simpl. constructor.
    + now apply unlink_gone.
    + now apply unlink_NoDup.
  - assert (Hn : NoDup (map Key (mkItem k v :: LRU.evictList c))).
    { simpl. constructor; [|assumption]. now apply contains_false. }
    destruct (Z.lt_ge_cases (LRU.Len c) (LRU.size c)).
    + now rewrite Put_absent_room.
    + rewrite Put_absent_full by assumption. now apply removelast_NoDup.
Qed.

Lemma Put_contains c k v :
  0 < LRU.size c -> LRU.Len c <= LRU.size c ->
  In k (keys (LRU.Put c k v)).
Proof.
  unfold keys. intros Hs Hl. destruct (LRU.contains c k) eqn:Hc.
  - rewrite Put_present by assumption. simpl. auto.
  - destruct (Z.lt_ge_cases (LRU.Len c) (LRU.size c)).
    + rewrite Put_absent_room by assumption. simpl. auto.
    + rewrite Put_absent_full by assumption.
      unfold LRU.Len in *.
      destruct (LRU.evictList c) as [|a l]; [simpl in *; lia|].
      change (removelast (mkItem k v :: a :: l))
        with (mkItem k v :: removelast (a :: l)).
      simpl. auto.
Qed.

End LRUGetPut.

(** ** Runs of the LRU container *)

Section LRURuns.

Context {V : Type}.

Implicit Types (c : LRU.t V) (o : op V).

Lemma lru_exec_size c o : LRU.size (lru_exec c o) = LRU.size c.
Proof.
  destruct o; simpl; auto using Get_size, Put_size, Remove_size.
Qed.

Lemma lru_exec_Len c o :
  LRU.Len c <= LRU.size c -> LRU.Len (lru_exec c o) <= LRU.size c.
Proof.
  intros H. destruct o; simpl; auto.
  - rewrite Get_Len. assumption.
  - now apply Put_Len_le.
  - pose proof (Remove_Len_le c k). lia.
  - unfold LRU.Len in *. simpl. lia.
Qed.

Lemma lru_run_bounded ops : forall c,
  LRU.Len c <= LRU.size c ->
  LRU.size (lru_run c ops) = LRU.size c
  /\ LRU.Len (lru_run c ops) <= LRU.size c.
Proof.
  induction ops as [|o ops IH]; intros c H; simpl; [auto|].
  destruct (IH (lru_exec c o)) as [Hs Hl].
  - rewrite lru_exec_size. now apply lru_exec_Len.
  - rewrite lru_exec_size in Hs, Hl. auto.
Qed.

Lemma Put_full_evicts_tail c k v :
  LRU.contains c k = false -> 0 < LRU.size c -> LRU.Len c = LRU.size c ->
  exists rest oldest,
    LRU.evictList c = rest ++ [oldest]
    /\ LRU.evictList (LRU.Put c k v) = mkItem k v :: rest.
Proof.
  intros Hc Hs Hl. rewrite Put_absent_full by (assumption || lia).
  unfold LRU.Len in Hl.
  destruct (LRU.Back (LRU.evictList c)) as [e|] eqn:E.
  - exists (removelast (LRU.evictList c)), e. split.
    + now apply Back_Some.
    + destruct (LRU.evictList c); [discriminate|reflexivity].
  - apply Back_None in E. rewrite E in Hl. simpl in Hl. lia.
Qed.

End LRURuns.

(** ** Filling the container *)

Section LRUFill.

Context {V : Type}.

(** Writes of pairwise distinct keys into an empty container: each one
    adds an entry until the capacity is reached, and the length stays
    there afterwards. *)
Lemma lru_puts_Len (size : Z) (kvs : list (key * any V)) :
  0 < size -> NoDup (map fst kvs) ->
  let c := lru_run (LRU.mk size [])
             (map (fun kv => OpPut (fst kv) (snd kv)) kvs) in
  LRU.Len c = Z.min size (Z.of_nat (length kvs))
  /\ forall k, In k (keys c) -> In k (map fst kvs).
Proof.
  intros Hpos. induction kvs as [|[k v] kvs IH] using rev_ind; intros Hd.
  { simpl. split; [unfold LRU.Len; simpl; lia|auto]. }
  rewrite map_app in Hd. simpl in Hd.
  apply NoDup_remove in Hd as [Hd Hk]. rewrite app_nil_r in Hd, Hk.
  destruct (IH Hd) as [HL HK]. clear IH.
  unfold lru_run in *. rewrite map_app, fold_left_app. simpl.
  set (c := fold_left lru_exec _ (LRU.mk size [])) in *.
  assert (Hs : LRU.size c = size).
  { destruct (lru_run_bounded
                (map (fun kv => OpPut (fst kv) (snd kv)) kvs)
                (LRU.mk size [])) as [Hs _]; [|exact Hs].
    unfold LRU.Len. simpl. lia. }
  assert (Hc : LRU.contains c k = false).
  { apply contains_false. intros Hin. now apply Hk, HK. }
  rewrite length_app. simpl length. split.
  - destruct (Z.lt_ge_cases (LRU.Len c) (LRU.size c)) as [Hlt|Hge].
    + rewrite Put_Len_absent_room by assumption. lia.
    + rewrite Put_Len_absent_full by assumption. lia.
  - intros k' Hin. rewrite map_app. apply in_or_app.
    apply Put_incl in Hin as [->|Hin]; [right; simpl; auto|left; auto].
Qed.

Lemma NoDup_of_nat_seq (a n : nat) : NoDup (map N.of_nat (seq a n)).
Proof.
  revert a. induction n as [|n IH]; intros a; simpl; constructor; [|apply IH].
  intros Hin. apply in_map_iff in Hin as (x & Hx & Hin).
  apply Nat2N.inj in Hx. subst x. apply in_seq in Hin. lia.
Qed.

(** Every positive capacity is reached: [size] writes of distinct keys
    fill the container. *)
Lemma lru_full_reached (size : Z) :
  0 < size ->
  exists ops : list (op V),
    LRU.Len (lru_run (LRU.mk size []) ops) = size.
Proof.
  intros Hpos.
  set (kvs := map (fun i => (N.of_nat i, @None V))
                (seq 0 (Z.to_nat size))).
  assert (Hd : NoDup (map fst kvs)).
  { unfold kvs. rewrite map_map. simpl. apply NoDup_of_nat_seq. }
  exists (map (fun kv => OpPut (fst kv) (snd kv)) kvs).
  rewrite (proj1 (lru_puts_Len size kvs Hpos Hd)).
  unfold kvs. rewrite length_map, length_seq. lia.
Qed.

End LRUFill.

(** C4.  A bounded LRU container of any positive capacity can be built,
    and after any sequence of [Get], [Put], [Peek], [Remove], [Purge],
    [Items] and [Len] calls its length is at most that capacity.  On such
    a container a [Put] of a key that is not held puts the new entry in
    front and, below capacity, keeps every entry, so that the length
    grows by one; at full capacity it drops exactly the entry at the
    back: the list [rest ++ [oldest]] becomes [new :: rest].  Full
    capacity is reached: writing pairwise distinct keys gives the length
    [min(size, number of keys)]. *)
Theorem lru_capacity_invariant (V : Type) (size : Z) :
  0 < size ->
  exists c0 : LRU.t V,
    LRU.NewLRU V size = Ok c0
    /\ (forall ops : list (op V),
          let c := lru_run c0 ops in
          LRU.size c = size
          /\ LRU.Len c <= size
          /\ forall k v,
               LRU.contains c k = false ->
               (LRU.Len c < size ->
                LRU.evictList (LRU.Put c k v) = mkItem k v :: LRU.evictList c
                /\ LRU.Len (LRU.Put c k v) = LRU.Len c + 1)
               /\ (LRU.Len c = size ->
                   LRU.Len (LRU.Put c k v) = size
                   /\ exists rest oldest,
                        LRU.evictList c = rest ++ [oldest]
                        /\ LRU.evictList (LRU.Put c k v)
                           = mkItem k v :: rest))
    /\ (forall kvs : list (key * any V),
          NoDup (map fst kvs) ->
          LRU.Len (lru_run c0 (map (fun kv => OpPut (fst kv) (snd kv)) kvs))
          = Z.min size (Z.of_nat (length kvs)))
    /\ (exists ops : list (op V), LRU.Len (lru_run c0 ops) = size).
Proof.
  intros Hpos. exists (LRU.mk size []). split.
  { unfold LRU.NewLRU. destruct (Z.leb_spec size 0); [lia|reflexivity]. }
  split; [|split].
  - intros ops c.
    destruct (lru_run_bounded ops (LRU.mk size [])) as [Hs Hl].
    { unfold LRU.Len. simpl. lia. }
    fold c in Hs, Hl. simpl in Hs, Hl.
    split; [assumption|]. split; [assumption|].
    intros k v Hc. split.
    + intros Hroom. split.
      * apply Put_absent_room; [assumption|lia].
      * apply Put_Len_absent_room; [assumption|lia].
    + intros Hfull. split.
      * rewrite Put_Len_absent_full by (assumption || lia). assumption.
      * apply Put_full_evicts_tail; (assumption || lia).
  - intros kvs Hd. apply (lru_puts_Len size kvs Hpos Hd).
  - now apply lru_full_reached.
Qed.

(** At capacity 2: after [Put] of keys 1 and 2 the container is full, and
    the [Put] of key 3 drops the entry at the back. *)
Lemma lru_capacity_invariant_witness :
  exists c0 : LRU.t nat,
    LRU.NewLRU nat 2 = Ok c0
    /\ let c := lru_run c0 [OpPut 1%N (Some 10%nat);
                            OpPut 2%N (Some 20%nat)] in
       LRU.contains c 3%N = false
       /\ LRU.Len c = 2
       /\ LRU.Len (LRU.Put c 3%N (Some 30%nat)) = 2
       /\ exists rest oldest,
            LRU.evictList c = rest ++ [oldest]
            /\ LRU.evictList (LRU.Put c 3%N (Some 30%nat))
               = mkItem 3%N (Some 30%nat) :: rest.
Proof.
  destruct (lru_capacity_invariant nat 2 eq_refl) as (c0 & Hnew & Hops & _).
  exists c0. split; [exact Hnew|].
  injection Hnew as <-.
  destruct (Hops [OpPut 1%N (Some 10%nat); OpPut 2%N (Some 20%nat)])
    as (_ & _ & Hput).
  destruct (Hput 3%N (Some 30%nat) eq_refl) as [_ Hfull].
  split; [reflexivity|]. split; [reflexivity|]. exact (Hfull eq_refl).
Defined.

(** C7.  On a fresh LRU of capacity 2, [Put(k1,v1)], [Put(k2,v2)],
    [Get(k1)], [Put(k3,v3)] with distinct keys evicts [k2]: [Get] finds
    [v1], and [Items] is then [k3] followed by [k1], with their values. *)
Theorem lru_recency_scenario (V : Type) (k1 k2 k3 : key) (v1 v2 v3 : any V) :
  k1 <> k2 -> k1 <> k3 -> k2 <> k3 ->
  exists c0 : LRU.t V,
    LRU.NewLRU V 2 = Ok c0
    /\ let c1 := LRU.Put c0 k1 v1 in
       let c2 := LRU.Put c1 k2 v2 in
       let '(c3, got) := LRU.Get c2 k1 in
       let c4 := LRU.Put c3 k3 v3 in
       got = (v1, true)
       /\ LRU.Items c4 = [mkItem k3 v3; mkItem k1 v1]
       /\ LRU.contains c4 k2 = false
       /\ forall k, In k (map Key (LRU.Items c4)) <-> k = k1 \/ k = k3.
Proof.
  intros H12 H13 H23. exists (LRU.mk 2 []). split; [reflexivity|].
  assert (E12 : N.eqb k1 k2 = false) by now apply N.eqb_neq.
  assert (E21 : N.eqb k2 k1 = false) by (apply N.eqb_neq; congruence).
  assert (E13 : N.eqb k1 k3 = false) by now apply N.eqb_neq.
  assert (E23 : N.eqb k2 k3 = false) by now apply N.eqb_neq.
  assert (E32 : N.eqb k3 k2 = false) by (apply N.eqb_neq; congruence).
  unfold LRU.Put, LRU.Get, LRU.Items, LRU.contains, LRU.removeOldest,
    LRU.Len; simpl.
  repeat (progress (simpl;
    rewrite ?E12, ?E21, ?E13, ?E23, ?E32, ?N.eqb_refl)).
  repeat split; intuition congruence.
Qed.

Lemma lru_recency_scenario_witness :
  exists c0 : LRU.t nat,
    LRU.NewLRU nat 2 = Ok c0
    /\ let c1 := LRU.Put c0 1%N (Some 10%nat) in
       let c2 := LRU.Put c1 2%N (Some 20%nat) in
       let '(c3, got) := LRU.Get c2 1%N in
       let c4 := LRU.Put c3 3%N (Some 30%nat) in
       got = (Some 10%nat, true)
       /\ LRU.Items c4 = [mkItem 3%N (Some 30%nat); mkItem 1%N (Some 10%nat)]
       /\ LRU.contains c4 2%N = false
       /\ forall k, In k (map Key (LRU.Items c4)) <-> k = 1%N \/ k = 3%N.
Proof.
  apply (lru_recency_scenario nat 1%N 2%N 3%N (Some 10%nat) (Some 20%nat)
           (Some 30%nat)); discriminate.
Defined.

(** ** Preservation of the container invariant *)

Section LRUInv.

Context {V : Type}.

Implicit Types (c : LRU.t V) (k : key) (v : any V).

Lemma lru_inv_new (size : Z) :
  0 < size -> lru_inv (LRU.mk size (@nil (Item V))).
Proof.
  intros H. constructor; simpl; [assumption|constructor|].
  unfold LRU.Len. simpl. lia.
Qed.

Lemma lru_inv_Put c k v : lru_inv c -> lru_inv (LRU.Put c k v).
Proof.
  intros [Hp Hd Hl]. constructor; rewrite ?Put_size.
  - assumption.
  - now apply Put_NoDup.
  - now apply Put_Len_le.
Qed.

Lemma lru_inv_Remove c k : lru_inv c -> lru_inv (LRU.Remove c k).
Proof.
  intros [Hp Hd Hl]. constructor; rewrite ?Remove_size.
  - assumption.
  - now apply Remove_NoDup.
  - pose proof (Remove_Len_le c k). lia.
Qed.

Lemma lru_inv_Get c k : lru_inv c -> lru_inv (fst (LRU.Get c k)).
Proof.
  intros [Hp Hd Hl]. constructor; rewrite ?Get_size.
  - assumption.
  - now apply Get_NoDup.
  - now rewrite Get_Len.
Qed.

Lemma lru_inv_removeOldest c : lru_inv c -> lru_inv (LRU.removeOldest c).
Proof.
  intros [Hp Hd Hl]. constructor; rewrite ?removeOldest_size.
  - assumption.
  - now apply removeOldest_NoDup.
  - pose proof (removeOldest_Len_le c). lia.
Qed.

Lemma lru_inv_Purge c : lru_inv c -> lru_inv (LRU.Purge c).
Proof.
  intros [Hp Hd Hl]. constructor; simpl; [assumption|constructor|].
  unfold LRU.Len. simpl. lia.
Qed.

Lemma Purge_keys c k : ~ In k (keys (LRU.Purge c)).
Proof. simpl. tauto. Qed.

(** After [Put] the key is indexed with the value just written. *)
Lemma Put_items c k v :
  lru_inv c ->
  LRU.items (LRU.evictList (LRU.Put c k v)) k = Some (mkItem k v).
Proof.
  intros [Hp Hd Hl]. destruct (LRU.contains c k) eqn:Hc.
  - rewrite Put_present by assumption. simpl. now rewrite N.eqb_refl.
  - destruct (Z.lt_ge_cases (LRU.Len c) (LRU.size c)).
    + rewrite Put_absent_room by assumption. simpl. now rewrite N.eqb_refl.
    + rewrite Put_absent_full by assumption. unfold LRU.Len in *.
      destruct (LRU.evictList c) as [|a l]; [simpl in *; lia|].
      change (removelast (mkItem k v :: a :: l))
        with (mkItem k v :: removelast (a :: l)).
      simpl. now rewrite N.eqb_refl.
Qed.

Lemma disjoint_sym (a b : LRU.t V) : disjoint a b -> disjoint b a.
Proof. unfold disjoint. firstorder. Qed.

Lemma disjoint_incl (a a' b b' : LRU.t V) :
  (forall k, In k (keys a') -> In k (keys a)) ->
  (forall k, In k (keys b') -> In k (keys b)) ->
  disjoint a b -> disjoint a' b'.
Proof. unfold disjoint. firstorder. Qed.

Lemma disjoint_Remove_l (a b : LRU.t V) k :
  disjoint a b -> disjoint (LRU.Remove a k) b.
Proof. apply disjoint_incl; [apply Remove_incl|auto]. Qed.

Lemma disjoint_Remove_r (a b : LRU.t V) k :
  disjoint a b -> disjoint a (LRU.Remove b k).
Proof. apply disjoint_incl; [auto|apply Remove_incl]. Qed.

Lemma disjoint_removeOldest_l (a b : LRU.t V) :
  disjoint a b -> disjoint (LRU.removeOldest a) b.
Proof. apply disjoint_incl; [apply removeOldest_incl|auto]. Qed.

Lemma disjoint_removeOldest_r (a b : LRU.t V) :
  disjoint a b -> disjoint a (LRU.removeOldest b).
Proof. apply disjoint_incl; [auto|apply removeOldest_incl]. Qed.

(** Moving [k] out of [a] (where it is indexed once) into [b]. *)
Lemma disjoint_move (a b : LRU.t V) k v :
  NoDup (keys a) -> disjoint a b ->
  disjoint (LRU.Remove a k) (LRU.Put b k v).
Proof.
  intros Hd Hab k0 H1 H2.
  apply Put_incl in H2 as [->|H2].
  - now apply (Remove_gone a k).
  - apply Remove_incl in H1. now apply (Hab k0).
Qed.

(** Writing [k] into [b] keeps [b] apart from a container without [k]. *)
Lemma disjoint_Put_r (a b : LRU.t V) k v :
  ~ In k (keys a) -> disjoint a b -> disjoint a (LRU.Put b k v).
Proof.
  intros Hk Hab k0 H1 H2.
  apply Put_incl in H2 as [->|H2]; [contradiction|]. now apply (Hab k0).
Qed.

Lemma disjoint_Put_l (a b : LRU.t V) k v :
  ~ In k (keys b) -> disjoint a b -> disjoint (LRU.Put a k v) b.
Proof.
  intros Hk Hab. apply disjoint_sym, disjoint_Put_r; [assumption|].
  now apply disjoint_sym.
Qed.

End LRUInv.

(** ** float64 scaling

    Upper bounds on the rounding steps of [SpecFloat], with values
    compared after scaling by [2 ^ K] so that all exponents are
    natural. *)

(** The constants are canonical binary64 values, and they are what the
    conversion and the product compute on small integers. *)
Lemma float64_constants :
  valid_binary Float64.prec Float64.emax Float64.one = true
  /\ valid_binary Float64.prec Float64.emax Float64.quarter = true
  /\ valid_binary Float64.prec Float64.emax Float64.half = true
  /\ Float64.of_int 1 = Float64.one
  /\ Float64.mul Float64.half Float64.half = Float64.quarter
  /\ Float64.to_int (Float64.mul (Float64.of_int 7) Float64.half) = 3
  /\ Float64.of_int (2 ^ 53 + 1) = Float64.of_int (2 ^ 53).
Proof. repeat split. Qed.

Lemma digits2_pos_lower (p : positive) :
  2 ^ (Zpos (digits2_pos p) - 1) <= Zpos p.
Proof.
  induction p as [p IH|p IH|]; simpl digits2_pos.
  - rewrite Pos2Z.inj_succ.
    replace (Z.succ (Zpos (digits2_pos p)) - 1)
      with (Z.succ (Zpos (digits2_pos p) - 1)) by lia.
    rewrite Z.pow_succ_r by lia. lia.
  - rewrite Pos2Z.inj_succ.
    replace (Z.succ (Zpos (digits2_pos p)) - 1)
      with (Z.succ (Zpos (digits2_pos p) - 1)) by lia.
    rewrite Z.pow_succ_r by lia. lia.
  - simpl. lia.
Qed.

Lemma shr_1_m (x : shr_record) :
  0 <= shr_m x -> shr_m (shr_1 x) = shr_m x / 2.
Proof.
  destruct x as [m r s]. cbn [shr_m]. intros Hm.
  destruct m as [|[q|q|]|q]; cbn [shr_1 shr_m]; try lia; try reflexivity.
  - apply Z.div_unique with 1; lia.
  - apply Z.div_unique with 0; lia.
Qed.

Lemma iter_shr_1_m (n : positive) : forall x : shr_record,
  0 <= shr_m x -> shr_m (iter_pos shr_1 n x) = shr_m x / 2 ^ Zpos n.
Proof.
  assert (Hnn : forall x, 0 <= shr_m x -> 0 <= shr_m (shr_1 x)).
  { intros x Hx. rewrite shr_1_m by assumption. apply Z.div_pos; lia. }
  induction n as [n IH|n IH|]; intros x Hx; simpl iter_pos.
  - rewrite IH, IH, shr_1_m; try assumption.
    + rewrite Pos2Z.inj_xI.
      rewrite !Z.div_div by (try apply Z.pow_pos_nonneg; lia).
      f_equal. rewrite <- Z.pow_add_r, <- Z.pow_succ_r by lia. f_equal. lia.
    + auto.
    + rewrite IH by auto. apply Z.div_pos; [auto|]. apply Z.pow_pos_nonneg; lia.
  - rewrite IH, IH; try assumption.
    + rewrite Pos2Z.inj_xO.
      rewrite !Z.div_div by (try apply Z.pow_pos_nonneg; lia).
      f_equal. rewrite <- Z.pow_add_r by lia. f_equal. lia.
    + rewrite IH by auto. apply Z.div_pos; [auto|]. apply Z.pow_pos_nonneg; lia.
  - rewrite shr_1_m by assumption. reflexivity.
Qed.

Lemma round_nearest_even_bounds (m : Z) (l : location) :
  m <= round_nearest_even m l <= m + 1.
Proof.
  destruct l as [|[| |]]; simpl; try lia.
  destruct (Z.even m); lia.
Qed.

Lemma shr_exact_upper (r e k K : Z) (mrs : shr_record) (e' : Z) :
  0 <= r -> 0 <= e + K ->
  shr (shr_record_of_loc r loc_Exact) e k = (mrs, e') ->
  e <= e' /\ 0 <= shr_m mrs /\ shr_m mrs * 2 ^ (e' + K) <= r * 2 ^ (e + K).
Proof.
  intros Hr HK. unfold shr. destruct k as [|kp|kn]; intros H;
    injection H as <- <-; cbn [shr_record_of_loc shr_m]; try lia.
  rewrite iter_shr_1_m by (simpl; lia). cbn [shr_m].
  assert (HP : 0 < 2 ^ Zpos kp) by (apply Z.pow_pos_nonneg; lia).
  split; [lia|]. split; [apply Z.div_pos; lia|].
  replace (e + Zpos kp + K) with (Zpos kp + (e + K)) by lia.
  rewrite Z.pow_add_r by lia.
  pose proof (Z.mul_div_le r _ HP) as Hd.
  assert (HX : 0 < 2 ^ (e + K)) by (apply Z.pow_pos_nonneg; lia).
  rewrite Z.mul_assoc. apply Z.mul_le_mono_nonneg_r; lia.
Qed.

Lemma shr_round_upper (mx : positive) (ex k K : Z) (mrs : shr_record) (e' : Z) :
  0 <= ex + K ->
  2 ^ (k + 52) <= Zpos mx ->
  shr (shr_record_of_loc (Zpos mx) loc_Exact) ex k = (mrs, e') ->
  let r := round_nearest_even (shr_m mrs) (loc_of_shr_record mrs) in
  ex <= e' /\ 0 <= r
  /\ r * 2 ^ (e' + K) * 2 ^ 52 <= Zpos mx * 2 ^ (ex + K) * (2 ^ 52 + 1).
Proof.
  intros HK Hk. unfold shr.
  assert (HX : 0 < 2 ^ (ex + K)) by (apply Z.pow_pos_nonneg; lia).
  destruct k as [|kp|kn]; intros H; injection H as <- <-;
    cbn [shr_record_of_loc shr_m loc_of_shr_record round_nearest_even];
    try (split; [lia|]; split; [lia|]; nia).
  set (x := iter_pos shr_1 kp (Build_shr_record (Zpos mx) false false)).
  set (r := round_nearest_even _ _).
  pose proof (round_nearest_even_bounds (shr_m x) (loc_of_shr_record x))
    as Hb.
  fold r in Hb. unfold x in Hb. rewrite iter_shr_1_m in Hb by (simpl; lia). cbn [shr_m] in Hb.
  assert (HP : 0 < 2 ^ Zpos kp) by (apply Z.pow_pos_nonneg; lia).
  pose proof (Z.mul_div_le (Zpos mx) _ HP) as Hd.
  assert (H0 : 0 <= Zpos mx / 2 ^ Zpos kp) by (apply Z.div_pos; lia).
  rewrite Z.pow_add_r in Hk by lia.
  replace (ex + Zpos kp + K) with (Zpos kp + (ex + K)) by lia.
  rewrite Z.pow_add_r by lia.
  remember (2 ^ 52) as C eqn:HC.
  assert (0 < C) by (subst C; lia).
  remember (2 ^ Zpos kp) as P. remember (2 ^ (ex + K)) as X.
  remember (Zpos mx / P) as A.
  split; [lia|]. split; [lia|].
  assert (H1 : r * P <= Zpos mx + P) by nia.
  assert (H2 : r * P * C <= Zpos mx * C + Zpos mx) by nia.
  replace (r * (P * X) * C) with (r * P * C * X) by ring.
  replace (Zpos mx * X * (C + 1)) with ((Zpos mx * C + Zpos mx) * X) by ring.
  apply Z.mul_le_mono_nonneg_r; lia.
Qed.

Lemma binary_round_aux_upper (sx s : bool) (mx : positive) (ex K : Z)
    (m : positive) (e : Z) :
  -1021 <= ex -> 0 <= ex + K ->
  binary_round_aux 53 1024 sx (Zpos mx) ex loc_Exact = S754_finite s m e ->
  ex <= e
  /\ Zpos m * 2 ^ (e + K) * 2 ^ 52 <= Zpos mx * 2 ^ (ex + K) * (2 ^ 52 + 1).
Proof.
  intros Hex HK. unfold binary_round_aux, shr_fexp.
  destruct (shr (shr_record_of_loc (Zpos mx) loc_Exact) ex
              (fexp 53 1024 (Zdigits2 (Zpos mx) + ex) - ex))
    as [mrs' e'] eqn:E1.
  apply shr_round_upper with (K := K) in E1; [|assumption|].
  - cbv zeta in E1. destruct E1 as (He' & Hr & Hb).
    destruct (shr (shr_record_of_loc
                (round_nearest_even (shr_m mrs') (loc_of_shr_record mrs'))
                loc_Exact) e' _) as [mrs'' e''] eqn:E2.
    apply shr_exact_upper with (K := K) in E2; [|assumption|lia].
    destruct E2 as (He'' & Hm & Hb2).
    destruct (shr_m mrs'') as [|q|q] eqn:Eq; try discriminate.
    destruct (e'' <=? 1024 - 53); [|discriminate].
    intros H. injection H as _ <- <-. split; [lia|].
    remember (2 ^ 52) as C. assert (0 < C) by (subst C; lia).
    nia.
  - simpl Zdigits2. unfold fexp, emin.
    pose proof (digits2_pos_lower mx) as Hd.
    rewrite Z.max_l by lia.
    replace (Zpos (digits2_pos mx) + ex - 53 - ex + 52)
      with (Zpos (digits2_pos mx) - 1) by lia.
    assumption.
Qed.

Lemma shl_align_value (mx : positive) (ex ex' K : Z) (mz : positive) (ez : Z) :
  0 <= ex' + K -> 0 <= ex + K ->
  shl_align mx ex ex' = (mz, ez) ->
  Z.min ex ex' <= ez /\ 0 <= ez + K
  /\ Zpos mz * 2 ^ (ez + K) = Zpos mx * 2 ^ (ex + K).
Proof.
  intros HK' HK. unfold shl_align.
  destruct (ex' - ex) as [|d|d] eqn:E; intros H; injection H as <- <-;
    try (split; [lia|]; split; [lia|]; reflexivity).
  pose proof (Pos2Z.opp_pos d) as Hd.
  split; [lia|]. split; [lia|].
  change (Pos.iter xO mx d) with (Zpower.shift_pos d mx).
  rewrite Zpower.shift_pos_correct, Zpower.Zpower_pos_nat.
  rewrite Zpower.Zpower_nat_Z, positive_nat_Z.
  replace (ex + K) with (Zpos d + (ex' + K)) by lia.
  rewrite (Z.pow_add_r 2 (Zpos d) (ex' + K)) by lia. ring.
Qed.

Lemma to_int_upper (s : bool) (m : positive) (e K n : Z) :
  0 < n -> 0 <= K -> 0 <= e + K ->
  Zpos m * 2 ^ (e + K) < n * 2 ^ K ->
  Float64.to_int (S754_finite s m e) < n.
Proof.
  intros Hn HK HeK Hlt. unfold Float64.to_int.
  assert (Ha : 0 <= (if 0 <=? e then Zpos m * 2 ^ e
                     else Zpos m / 2 ^ (- e)) < n).
  { destruct (Z.leb_spec 0 e) as [He|He].
    - rewrite Z.pow_add_r in Hlt by lia.
      assert (0 < 2 ^ K) by (apply Z.pow_pos_nonneg; lia).
      assert (0 < 2 ^ e) by (apply Z.pow_pos_nonneg; lia).
      split; [lia|]. nia.
    - assert (HP : 0 < 2 ^ (- e)) by (apply Z.pow_pos_nonneg; lia).
      split; [apply Z.div_pos; lia|].
      apply Z.div_lt_upper_bound; [assumption|].
      assert (HK2 : 2 ^ K = 2 ^ (- e) * 2 ^ (e + K)).
      { rewrite <- Z.pow_add_r by lia. f_equal. lia. }
      rewrite HK2 in Hlt.
      assert (0 < 2 ^ (e + K)) by (apply Z.pow_pos_nonneg; lia).
      nia. }
  cbv zeta.
  destruct (_ && _); [|unfold Float64.MinInt64; lia].
  destruct s; lia.
Qed.

(** The default recent ratio leaves [recentSize] below the capacity:
    [int(float64(n) * 0.25) < n] for every positive [n]. *)
Lemma default_recentSize_lt (n : Z) :
  0 < n ->
  Float64.to_int (Float64.mul (Float64.of_int n) Float64.quarter) < n.
Proof.
  intros Hn. destruct n as [|p|p]; try lia.
  unfold Float64.of_int, binary_normalize, binary_round.
  destruct (shl_align p 0 _) as [mz ez] eqn:Es.
  apply shl_align_value with (K := 52) in Es.
  2:{ unfold Float64.prec, Float64.emax, fexp, emin. lia. }
  2:{ lia. }
  destruct Es as (Hez & Hez' & Hval).
  destruct (binary_round_aux _ _ false (Zpos mz) ez loc_Exact)
    as [s1|s1| |s1 m1 e1] eqn:E1;
    try (cbn; unfold Float64.MinInt64; lia).
  apply binary_round_aux_upper with (K := 52) in E1; [|lia|lia].
  destruct E1 as (He1 & Hb1).
  unfold Float64.mul, Float64.quarter, SFmul.
  destruct (binary_round_aux _ _ _ _ _ loc_Exact)
    as [s2|s2| |s2 m2 e2] eqn:E2;
    try (cbn; unfold Float64.MinInt64; lia).
  apply binary_round_aux_upper with (K := 106) in E2; [|lia|lia].
  destruct E2 as (He2 & Hb2).
  apply to_int_upper with (K := 106); try lia.
  rewrite Pos2Z.inj_mul in Hb2.
  change (Zpos (2 ^ 52)) with (2 ^ 52) in Hb2.
  replace (e1 + -54 + 106) with (e1 + 52) in Hb2 by lia.
  change (2 ^ 106) with (2 ^ 52 * 2 ^ 52 * 4).
  rewrite Z.add_0_l in Hval.
  remember (2 ^ 52) as C eqn:HC.
  assert (HC1 : 1 < C) by (subst C; lia).
  remember (2 ^ (e1 + 52)) as X1. remember (2 ^ (e2 + 106)) as X2.
  remember (2 ^ (ez + 52)) as X0.
  assert (0 < X2) by (subst X2; apply Z.pow_pos_nonneg; lia).
  assert (H1 : Zpos m1 * X1 <= Zpos p * (C + 1)).
  { apply Z.mul_le_mono_pos_r with C; [lia|]. rewrite Hval in Hb1. nia. }
  assert (H2 : Zpos m2 * X2 <= Zpos m1 * X1 * (C + 1)).
  { apply Z.mul_le_mono_pos_r with C; [lia|]. nia. }
  assert (H3 : Zpos m2 * X2 <= Zpos p * ((C + 1) * (C + 1))) by nia.
  assert (H4 : (C + 1) * (C + 1) < C * C * 4) by nia.
  nia.
Qed.

(** *** Finite results and lower bounds *)

Lemma digits2_pos_le (p : positive) (j : Z) :
  0 <= j -> Zpos p < 2 ^ j -> Zpos (digits2_pos p) <= j.
Proof.
  intros Hj Hp. pose proof (digits2_pos_lower p) as Hl.
  destruct (Z.le_gt_cases (Zpos (digits2_pos p)) j) as [|Hgt]; [assumption|].
  assert (2 ^ j <= 2 ^ (Zpos (digits2_pos p) - 1))
    by (apply Z.pow_le_mono_r; lia).
  lia.
Qed.

Lemma div_pow_bounds (x P C : Z) :
  0 < P -> 0 < C -> P * C <= x ->
  x / P * P <= x /\ x * (C - 1) <= x / P * P * C /\ C <= x / P.
Proof.
  intros HP HC Hx.
  pose proof (Z.mul_div_le x P HP) as H1.
  pose proof (Z.mul_succ_div_gt x P HP) as H2.
  assert (H3 : C <= x / P) by (apply Z.div_le_lower_bound; lia).
  split; [lia|]. split; [|assumption]. nia.
Qed.

(** One renormalisation step on an exact positive mantissa: the mantissa
    is divided by [2 ^ k], [k] the number of digits above 53. *)
Lemma shr_fexp_exact (x : positive) (e K : Z) (mrs : shr_record) (e' : Z) :
  -1021 <= e -> 0 <= e + K ->
  shr_fexp 53 1024 (Zpos x) e loc_Exact = (mrs, e') ->
  let r := round_nearest_even (shr_m mrs) (loc_of_shr_record mrs) in
  e <= e'
  /\ e' = e + Z.max 0 (Zpos (digits2_pos x) - 53)
  /\ 0 < shr_m mrs <= r
  /\ shr_m mrs * 2 ^ (e' + K) <= Zpos x * 2 ^ (e + K)
  /\ Zpos x * 2 ^ (e + K) * (2 ^ 52 - 1) <= shr_m mrs * 2 ^ (e' + K) * 2 ^ 52
  /\ r * 2 ^ (e' + K) * 2 ^ 52 <= Zpos x * 2 ^ (e + K) * (2 ^ 52 + 1).
Proof.
  intros He HK. unfold shr_fexp, shr. simpl Zdigits2.
  pose proof (digits2_pos_lower x) as Hd.
  assert (Hf : fexp 53 1024 (Zpos (digits2_pos x) + e) - e
               = Zpos (digits2_pos x) - 53).
  { unfold fexp, emin. lia. }
  rewrite Hf. clear Hf.
  assert (HX : 0 < 2 ^ (e + K)) by (apply Z.pow_pos_nonneg; lia).
  remember (2 ^ 52) as C eqn:HC.
  assert (HC1 : 1 < C) by (subst C; lia).
  destruct (Zpos (digits2_pos x) - 53) as [|kp|kn] eqn:Ek.
  - intros H. injection H as <- <-.
    cbn [shr_record_of_loc shr_m loc_of_shr_record round_nearest_even].
    nia.
  - intros H. injection H as <- <-.
    set (y := iter_pos shr_1 kp _).
    pose proof (round_nearest_even_bounds (shr_m y) (loc_of_shr_record y))
      as Hb.
    cbv zeta. set (r := round_nearest_even _ _) in *.
    unfold y in Hb |- *. rewrite iter_shr_1_m in Hb |- * by (simpl; lia).
    cbn [shr_record_of_loc shr_m] in Hb |- *.
    assert (HP : 0 < 2 ^ Zpos kp) by (apply Z.pow_pos_nonneg; lia).
    assert (HPC : 2 ^ Zpos kp * C <= Zpos x).
    { subst C. rewrite <- Z.pow_add_r by lia.
      replace (Zpos kp + 52) with (Zpos (digits2_pos x) - 1) by lia.
      assumption. }
    destruct (div_pow_bounds (Zpos x) (2 ^ Zpos kp) C HP) as (B1 & B2 & B3);
      [lia|assumption|].
    replace (e + Zpos kp + K) with (Zpos kp + (e + K)) by lia.
    rewrite (Z.pow_add_r 2 (Zpos kp) (e + K)) by lia.
    remember (2 ^ Zpos kp) as P. remember (2 ^ (e + K)) as X.
    remember (Zpos x / P) as q.
    split; [lia|]. split; [lia|]. split; [lia|].
    split; [nia|]. split; [nia|].
    assert (H1 : r * P <= Zpos x + P) by nia.
    assert (H2 : r * P * C <= Zpos x * C + Zpos x) by nia.
    replace (r * (P * X) * C) with (r * P * C * X) by ring.
    replace (Zpos x * X * (C + 1)) with ((Zpos x * C + Zpos x) * X) by ring.
    apply Z.mul_le_mono_nonneg_r; lia.
  - intros H. injection H as <- <-.
    cbn [shr_record_of_loc shr_m loc_of_shr_record round_nearest_even].
    nia.
Qed.

Lemma digits2_pos_scaled (p : positive) (a b : Z) :
  0 <= a -> Zpos p * 2 ^ a < 2 ^ b -> Zpos (digits2_pos p) <= b - a.
Proof.
  intros Ha H.
  assert (HA : 0 < 2 ^ a) by (apply Z.pow_pos_nonneg; lia).
  assert (Hab : a <= b).
  { destruct (Z.le_gt_cases a b) as [|Hgt]; [assumption|].
    destruct (Z.le_gt_cases 0 b) as [Hb|Hb].
    - assert (2 ^ b <= 2 ^ a) by (apply Z.pow_le_mono_r; lia). nia.
    - rewrite (Z.pow_neg_r 2 b) in H by lia. nia. }
  apply digits2_pos_le; [lia|].
  replace b with (b - a + a) in H by lia.
  rewrite Z.pow_add_r in H by lia.
  assert (0 < 2 ^ (b - a)) by (apply Z.pow_pos_nonneg; lia).
  nia.
Qed.

(** Rounding an exact positive mantissa within the normal range yields a
    finite float, at most one part in [2 ^ 52] above and two parts in
    [2 ^ 52] below. *)
Lemma binary_round_aux_finite (sx : bool) (mx : positive) (ex K B : Z) :
  -1021 <= ex <= 971 -> 0 <= ex + K -> B <= 1022 ->
  Zpos mx * 2 ^ (ex + K) <= 2 ^ (B + K) ->
  exists m e,
    binary_round_aux 53 1024 sx (Zpos mx) ex loc_Exact = S754_finite sx m e
    /\ ex <= e
    /\ Zpos m * 2 ^ (e + K) * 2 ^ 52
       <= Zpos mx * 2 ^ (ex + K) * (2 ^ 52 + 1)
    /\ Zpos mx * 2 ^ (ex + K) * ((2 ^ 52 - 1) * (2 ^ 52 - 1))
       <= Zpos m * 2 ^ (e + K) * (2 ^ 52 * 2 ^ 52).
Proof.
  intros Hex HK HB Hval. unfold binary_round_aux.
  destruct (shr_fexp 53 1024 (Zpos mx) ex loc_Exact) as [mrs' e'] eqn:E1.
  apply shr_fexp_exact with (K := K) in E1; [|lia|lia].
  cbv zeta in E1. destruct E1 as (He1 & He1' & Hr & _ & Hlo1 & Hup1).
  set (r := round_nearest_even _ _) in *.
  destruct r as [|rp|rn] eqn:Er; try lia.
  destruct (shr_fexp 53 1024 (Zpos rp) e' loc_Exact) as [mrs'' e''] eqn:E2.
  apply shr_fexp_exact with (K := K) in E2; [|lia|lia].
  cbv zeta in E2. destruct E2 as (He2 & He2' & Hm & Hup2 & Hlo2 & _).
  assert (HX : 0 < 2 ^ (ex + K)) by (apply Z.pow_pos_nonneg; lia).
  assert (HX1 : 0 < 2 ^ (e' + K)) by (apply Z.pow_pos_nonneg; lia).
  assert (HX2 : 0 < 2 ^ (e'' + K)) by (apply Z.pow_pos_nonneg; lia).
  (* the exponent stays below the overflow threshold *)
  assert (Hd1 : Zpos (digits2_pos mx) <= B + K + 1 - (ex + K)).
  { apply digits2_pos_scaled; [lia|].
    assert (2 ^ (B + K) < 2 ^ (B + K + 1)); [|lia].
    destruct (Z.le_gt_cases 0 (B + K)).
    - apply Z.pow_lt_mono_r; lia.
    - rewrite (Z.pow_neg_r 2 (B + K)) in Hval by lia. nia. }
  assert (Hd2 : Zpos (digits2_pos rp) <= B + K + 53 - (e' + K + 52)).
  { apply digits2_pos_scaled; [lia|].
    rewrite (Z.pow_add_r 2 (e' + K) 52) by lia.
    assert (0 <= B + K).
    { destruct (Z.le_gt_cases 0 (B + K)); [assumption|].
      rewrite (Z.pow_neg_r 2 (B + K)) in Hval by lia. nia. }
    rewrite (Z.pow_add_r 2 (B + K) 53) by lia.
    change (2 ^ 53) with (2 * 2 ^ 52).
    remember (2 ^ 52) as C. assert (1 < C) by (subst C; lia).
    remember (2 ^ (B + K)) as Y. nia. }
  destruct (shr_m mrs'') as [|q|q] eqn:Eq; try lia.
  destruct (Z.leb_spec e'' (1024 - 53)) as [_|Hov]; [|lia].
  exists q, e''. split; [reflexivity|]. split; [lia|].
  remember (2 ^ 52) as C. assert (1 < C) by (subst C; lia).
  remember (2 ^ (ex + K)) as X. remember (2 ^ (e' + K)) as X1.
  remember (2 ^ (e'' + K)) as X2.
  split.
  - apply Z.le_trans with (Zpos rp * X1 * C); [|assumption].
    apply Z.mul_le_mono_nonneg_r; lia.
  - assert (H1 : Zpos mx * X * (C - 1) <= Zpos rp * X1 * C).
    { apply Z.le_trans with (shr_m mrs' * X1 * C); [assumption|].
      apply Z.mul_le_mono_nonneg_r; [lia|].
      apply Z.mul_le_mono_nonneg_r; lia. }
    assert (H2 : Zpos mx * X * (C - 1) * (C - 1)
                 <= Zpos rp * X1 * C * (C - 1)).
    { apply Z.mul_le_mono_nonneg_r; lia. }
    assert (H3 : Zpos rp * X1 * (C - 1) * C <= Zpos q * X2 * C * C).
    { apply Z.mul_le_mono_nonneg_r; lia. }
    replace (Zpos mx * X * ((C - 1) * (C - 1)))
      with (Zpos mx * X * (C - 1) * (C - 1)) by ring.
    replace (Zpos q * X2 * (C * C)) with (Zpos q * X2 * C * C) by ring.
    replace (Zpos rp * X1 * C * (C - 1))
      with (Zpos rp * X1 * (C - 1) * C) in H2 by ring.
    lia.
Qed.

Lemma shl_align_le (mx : positive) (ex ex' : Z) (mz : positive) (ez : Z) :
  shl_align mx ex ex' = (mz, ez) -> ez <= ex.
Proof.
  unfold shl_align. destruct (ex' - ex) as [|d|d] eqn:E; intros H;
    injection H as <- <-; lia.
Qed.

Lemma to_int_bounds (m : positive) (e K lo hi : Z) :
  0 <= lo -> hi <= Float64.MaxInt64 + 1 -> 0 <= K -> 0 <= e + K ->
  lo * 2 ^ K <= Zpos m * 2 ^ (e + K) < hi * 2 ^ K ->
  lo <= Float64.to_int (S754_finite false m e) < hi.
Proof.
  intros Hlo Hhi HK HeK Hv. unfold Float64.to_int.
  assert (Ha : lo <= (if 0 <=? e then Zpos m * 2 ^ e
                      else Zpos m / 2 ^ (- e)) < hi).
  { assert (0 < 2 ^ K) by (apply Z.pow_pos_nonneg; lia).
    destruct (Z.leb_spec 0 e) as [He|He].
    - rewrite Z.pow_add_r in Hv by lia.
      assert (0 < 2 ^ e) by (apply Z.pow_pos_nonneg; lia).
      split; nia.
    - assert (HP : 0 < 2 ^ (- e)) by (apply Z.pow_pos_nonneg; lia).
      assert (HK2 : 2 ^ K = 2 ^ (- e) * 2 ^ (e + K)).
      { rewrite <- Z.pow_add_r by lia. f_equal. lia. }
      rewrite HK2 in Hv.
      assert (0 < 2 ^ (e + K)) by (apply Z.pow_pos_nonneg; lia).
      split.
      + apply Z.div_le_lower_bound; [assumption|]. nia.
      + apply Z.div_lt_upper_bound; [assumption|]. nia. }
  cbv zeta.
  replace (_ && _) with true; [assumption|].
  symmetry. apply andb_true_iff. unfold Float64.MinInt64, Float64.MaxInt64 in *.
  split; apply Z.leb_le; lia.
Qed.

(** The default ghost ratio gives a positive ghost capacity from size 2
    on: [1 <= int(float64(n) * 0.50) < n] for [2 <= n <= MaxInt64]. *)
Lemma default_evictSize_pos (n : Z) :
  2 <= n <= Float64.MaxInt64 ->
  1 <= Float64.to_int (Float64.mul (Float64.of_int n) Float64.half) < n.
Proof.
  intros Hn. destruct (Z.eq_dec n 2) as [->|Hn2]; [now vm_compute|].
  destruct n as [|p|p]; try lia.
  unfold Float64.of_int, binary_normalize, binary_round.
  unfold Float64.prec, Float64.emax.
  destruct (shl_align p 0 _) as [mz ez] eqn:Es.
  pose proof (shl_align_le _ _ _ _ _ Es) as Hez0.
  apply shl_align_value with (K := 52) in Es.
  2:{ unfold Float64.prec, Float64.emax, fexp, emin. lia. }
  2:{ lia. }
  destruct Es as (Hez & Hez' & Hval). rewrite Z.add_0_l in Hval.
  unfold Float64.MaxInt64 in Hn.
  destruct (binary_round_aux_finite false mz ez 52 63)
    as (m1 & e1 & -> & He1 & Hup1 & Hlo1); [lia|lia|lia| |].
  { rewrite Hval. change (2 ^ (63 + 52)) with (2 ^ 63 * 2 ^ 52). nia. }
  rewrite Hval in Hup1, Hlo1.
  unfold Float64.mul, Float64.half, SFmul, Float64.prec, Float64.emax.
  cbn [xorb].
  assert (HX1 : 0 < 2 ^ (e1 + 52)) by (apply Z.pow_pos_nonneg; lia).
  destruct (binary_round_aux_finite false (m1 * 2 ^ 52) (e1 + -53) 105 63)
    as (m2 & e2 & -> & He2 & Hup2 & Hlo2); [| lia | lia | |].
  { split; [lia|].
    assert (e1 + 52 <= 63 + 52 + 1); [|lia].
    apply (Z.pow_le_mono_r_iff 2); [lia|lia|].
    change (2 ^ (63 + 52 + 1)) with (2 ^ 63 * (2 ^ 52 + 2 ^ 52)).
    remember (2 ^ 52) as C. assert (1 < C) by (subst C; lia).
    remember (2 ^ (e1 + 52)) as X1. nia. }
  { rewrite Pos2Z.inj_mul. change (Zpos (2 ^ 52)) with (2 ^ 52).
    replace (e1 + -53 + 105) with (e1 + 52) by lia.
    change (2 ^ (63 + 105)) with (2 ^ 63 * 2 ^ 52 * (2 ^ 52 + 2 ^ 52)).
    remember (2 ^ 52) as C. assert (1 < C) by (subst C; lia).
    remember (2 ^ (e1 + 52)) as X1. nia. }
  rewrite Pos2Z.inj_mul in Hup2, Hlo2.
  change (Zpos (2 ^ 52)) with (2 ^ 52) in Hup2, Hlo2.
  replace (e1 + -53 + 105) with (e1 + 52) in Hup2, Hlo2 by lia.
  destruct (to_int_bounds m2 e2 105 1 (Zpos p)); [lia| |lia|lia| |lia].
  { unfold Float64.MaxInt64. lia. }
  assert (HX2 : 0 < 2 ^ (e2 + 105)) by (apply Z.pow_pos_nonneg; lia).
  change (2 ^ 105) with (2 * (2 ^ 52 * 2 ^ 52)).
  assert (HC4 : 2 * (2 ^ 52 * 2 ^ 52) * (2 ^ 52 * 2 ^ 52)
                <= 3 * ((2 ^ 52 - 1) * (2 ^ 52 - 1))
                   * ((2 ^ 52 - 1) * (2 ^ 52 - 1))) by (vm_compute; discriminate).
  remember (2 ^ 52) as C. assert (HC1 : 1 < C) by (subst C; lia).
  remember (2 ^ (e1 + 52)) as X1. remember (2 ^ (e2 + 105)) as X2.
  remember ((C - 1) * (C - 1)) as D. remember (C * C) as C2.
  assert (0 < D) by (subst D; nia). assert (0 < C2) by (subst C2; nia).
  split.
  - (* lower bound *)
    assert (H1 : Zpos p * C * D * D <= Zpos m1 * X1 * C2 * D) by nia.
    assert (H2 : Zpos m1 * X1 * C2 * D <= Zpos m2 * X2 * C2 * C).
    { replace (Zpos m1 * X1 * C2 * D) with (Zpos m1 * C * X1 * D * C)
        by (subst C2; ring).
      replace (Zpos m2 * X2 * C2 * C) with (Zpos m2 * X2 * C2 * C) by ring.
      nia. }
    assert (H3 : Zpos p * D * D <= Zpos m2 * X2 * C2) by nia.
    assert (H4 : 3 * (D * D) <= Zpos p * D * D) by nia.
    assert (H5 : 2 * C2 * C2 <= Zpos m2 * X2 * C2) by lia.
    nia.
  - (* upper bound *)
    assert (H1 : Zpos m1 * X1 <= Zpos p * (C + 1)) by nia.
    assert (H2 : Zpos m2 * X2 <= Zpos m1 * X1 * (C + 1)) by nia.
    assert (H3 : Zpos m2 * X2 <= Zpos p * ((C + 1) * (C + 1))) by nia.
    assert (H4 : (C + 1) * (C + 1) < 2 * C2) by (subst C2; nia).
    nia.
Qed.

(** ** The Two-Queue cache *)

Section TwoQFacts.

Context {V : Type}.

Implicit Types (c : TwoQueueCache.t V) (k : key) (v : any V).

Lemma NewTwoQueueCache_inv (size : Z) c0 :
  TwoQueueCache.NewTwoQueueCache V size = Ok c0 ->
  twoq_inv c0 /\ TwoQueueCache.size c0 = size /\ 0 < size.
Proof.
  unfold TwoQueueCache.NewTwoQueueCache, TwoQueueCache.newTowQueueParams.
  destruct (Z.leb_spec size 0) as [|Hpos]; [discriminate|].
  change (Float64.ltb TwoQueueCache.defaultRecentRatio Float64.zero
          || Float64.ltb Float64.one TwoQueueCache.defaultRecentRatio)
    with false.
  change (Float64.ltb TwoQueueCache.defaultGhostRatio Float64.zero
          || Float64.ltb Float64.one TwoQueueCache.defaultGhostRatio)
    with false.
  cbv iota zeta. unfold LRU.NewLRU.
  destruct (Z.leb_spec size 0); [lia|].
  destruct (Z.leb_spec
              (Float64.to_int
                 (Float64.mul (Float64.of_int size)
                    TwoQueueCache.defaultGhostRatio)) 0) as [|Hev];
    [discriminate|].
  intros Hc0. injection Hc0 as <-. split; [|auto].
  constructor; simpl; auto using lru_inv_new.
  - now apply default_recentSize_lt.
  - unfold TwoQueueCache.Len, LRU.Len. simpl. lia.
  - intros k [].
  - intros k [].
  - intros k [].
Qed.

(** [ensureSpace] keeps the invariant and leaves room for one entry. *)
Lemma ensureSpace_inv c (recentEvict : bool) :
  twoq_inv c ->
  let c1 := TwoQueueCache.ensureSpace c recentEvict in
  twoq_inv c1
  /\ TwoQueueCache.size c1 = TwoQueueCache.size c
  /\ TwoQueueCache.Len c1 < TwoQueueCache.size c
  /\ (forall k, In k (keys (TwoQueueCache.recent c1)) ->
                In k (keys (TwoQueueCache.recent c)))
  /\ (forall k, In k (keys (TwoQueueCache.frequent c1)) ->
                In k (keys (TwoQueueCache.frequent c)))
  /\ (forall k, In k (keys (TwoQueueCache.evict c1)) ->
                In k (keys (TwoQueueCache.evict c))
                \/ In k (keys (TwoQueueCache.recent c))).
Proof.
  intros I. pose proof I as [Hrs Hr Hf He Hrc Hfc Hlen Hrf Hre Hfe].
  unfold TwoQueueCache.Len in Hlen.
  unfold TwoQueueCache.ensureSpace.
  destruct (Z.ltb_spec (LRU.Len (TwoQueueCache.recent c)
                        + LRU.Len (TwoQueueCache.frequent c))
              (TwoQueueCache.size c)) as [Hroom|Hfull].
  { cbv zeta. unfold TwoQueueCache.Len. intuition. }
  pose proof (Len_nonneg (TwoQueueCache.recent c)) as Hr0.
  pose proof (Len_nonneg (TwoQueueCache.frequent c)) as Hf0.
  pose proof (lru_cap_pos _ Hf) as Hpos.
  destruct (_ && _) eqn:Hcond.
  - (* the oldest of recent becomes a ghost *)
    apply andb_true_iff in Hcond as [Hne _].
    rewrite Z.gtb_ltb in Hne. apply Z.ltb_lt in Hne.
    destruct (LRU.getAndRemoveOldest (TwoQueueCache.recent c))
      as [recent' [[k0 v0] ok]] eqn:Eg.
    pose proof (getAndRemoveOldest_fst (TwoQueueCache.recent c)) as Hfst.
    rewrite Eg in Hfst. simpl in Hfst. subst recent'.
    apply getAndRemoveOldest_found in Eg as (_ & Hin & Hout); [|lia].
    specialize (Hout (lru_nodup _ Hr)).
    cbv zeta. unfold TwoQueueCache.Len. simpl.
    rewrite removeOldest_Len by lia.
    split; [constructor; simpl|];
      auto using lru_inv_removeOldest, lru_inv_Put.
    + now rewrite removeOldest_size.
    + unfold TwoQueueCache.Len. simpl. rewrite removeOldest_Len by lia. lia.
    + eapply disjoint_incl; [apply removeOldest_incl| |exact Hrf]. auto.
    + intros k H1 H2. apply Put_incl in H2 as [->|H2]; [contradiction|].
      apply removeOldest_incl in H1. now apply (Hre k).
    + apply disjoint_Put_r; [|assumption].
      intros H. now apply (Hrf k0).
    + split; [reflexivity|]. split; [lia|].
      split; [apply removeOldest_incl|]. split; [auto|].
      intros k H. apply Put_incl in H as [->|H]; auto.
  - (* the oldest of frequent is dropped *)
    assert (Hfne : 1 <= LRU.Len (TwoQueueCache.frequent c)).
    { apply andb_false_iff in Hcond.
      rewrite Z.gtb_ltb, Z.ltb_ge in Hcond.
      destruct Hcond as [Hc|Hc]; [lia|].
      apply orb_false_iff in Hc as [Hc _].
      rewrite Z.gtb_ltb, Z.ltb_ge in Hc. lia. }
    cbv zeta. unfold TwoQueueCache.Len. simpl.
    rewrite removeOldest_Len by lia.
    split; [constructor; simpl|];
      auto using lru_inv_removeOldest.
    + now rewrite removeOldest_size.
    + unfold TwoQueueCache.Len. simpl. rewrite removeOldest_Len by lia. lia.
    + eapply disjoint_incl; [|apply removeOldest_incl|exact Hrf]. auto.
    + eapply disjoint_incl; [apply removeOldest_incl| |exact Hfe]. auto.
    + split; [reflexivity|]. split; [lia|].
      split; [auto|]. split; [apply removeOldest_incl|]. auto.
Qed.

End TwoQFacts.

Section TwoQOps.

Context {V : Type}.

Implicit Types (c : TwoQueueCache.t V) (k : key) (v : any V).

(** The three outcomes of [Get]. *)
Lemma twoq_Get_frequent c k :
  LRU.contains (TwoQueueCache.frequent c) k = true ->
  TwoQueueCache.Get c k
  = (TwoQueueCache.mk (TwoQueueCache.size c) (TwoQueueCache.recentSize c)
       (TwoQueueCache.recent c)
       (fst (LRU.Get (TwoQueueCache.frequent c) k))
       (TwoQueueCache.evict c),
     snd (LRU.Get (TwoQueueCache.frequent c) k)).
Proof.
  intros H. unfold TwoQueueCache.Get.
  pose proof (Get_found (TwoQueueCache.frequent c) k) as Hf.
  destruct (LRU.Get (TwoQueueCache.frequent c) k) as [f' [val ok]].
  simpl in *. rewrite H in Hf. now subst ok.
Qed.

Lemma twoq_Get_recent c k :
  LRU.contains (TwoQueueCache.frequent c) k = false ->
  LRU.contains (TwoQueueCache.recent c) k = true ->
  TwoQueueCache.Get c k
  = (TwoQueueCache.mk (TwoQueueCache.size c) (TwoQueueCache.recentSize c)
       (LRU.Remove (TwoQueueCache.recent c) k)
       (LRU.Put (TwoQueueCache.frequent c) k
          (fst (LRU.Peek (TwoQueueCache.recent c) k)))
       (TwoQueueCache.evict c),
     (fst (LRU.Peek (TwoQueueCache.recent c) k), true)).
Proof.
  intros Hf Hr. unfold TwoQueueCache.Get. rewrite (Get_miss _ _ Hf).
  pose proof (Peek_found (TwoQueueCache.recent c) k) as Hp.
  destruct (LRU.Peek (TwoQueueCache.recent c) k) as [val ok].
  simpl in *. rewrite Hr in Hp. now subst ok.
Qed.

Lemma twoq_Get_miss c k :
  LRU.contains (TwoQueueCache.frequent c) k = false ->
  LRU.contains (TwoQueueCache.recent c) k = false ->
  TwoQueueCache.Get c k = (c, (None, false)).
Proof.
  intros Hf Hr. unfold TwoQueueCache.Get. rewrite (Get_miss _ _ Hf).
  pose proof (Peek_found (TwoQueueCache.recent c) k) as Hp.
  destruct (LRU.Peek (TwoQueueCache.recent c) k) as [val ok].
  simpl in *. rewrite Hr in Hp. now subst ok.
Qed.

(** With both queues within the total capacity, promoting a key of
    [recent] finds room in [frequent]. *)
Lemma twoq_promote_room c k :
  twoq_inv c ->
  LRU.contains (TwoQueueCache.recent c) k = true ->
  LRU.Len (TwoQueueCache.frequent c) < LRU.size (TwoQueueCache.frequent c).
Proof.
  intros I Hr. apply Len_pos_of_contains in Hr.
  pose proof (tq_len _ I) as Hl. unfold TwoQueueCache.Len in Hl.
  rewrite (tq_frequent_cap _ I). lia.
Qed.

Lemma twoq_inv_promote c k v :
  twoq_inv c ->
  LRU.contains (TwoQueueCache.frequent c) k = false ->
  LRU.contains (TwoQueueCache.recent c) k = true ->
  twoq_inv
    (TwoQueueCache.mk (TwoQueueCache.size c) (TwoQueueCache.recentSize c)
       (LRU.Remove (TwoQueueCache.recent c) k)
       (LRU.Put (TwoQueueCache.frequent c) k v)
       (TwoQueueCache.evict c)).
Proof.
  intros I Hf Hr. pose proof (twoq_promote_room _ _ I Hr) as Hroom.
  destruct I as [Hrs Ir If Ie Hrc Hfc Hlen Hrf Hre Hfe].
  constructor; simpl; auto using lru_inv_Remove, lru_inv_Put.
  - now rewrite Remove_size.
  - now rewrite Put_size.
  - unfold TwoQueueCache.Len in *. simpl.
    rewrite Remove_Len, Put_Len_absent_room by assumption. lia.
  - apply disjoint_move; [apply (lru_nodup _ Ir)|assumption].
  - eapply disjoint_incl; [apply Remove_incl| |exact Hre]. auto.
  - apply disjoint_Put_l; [|assumption].
    apply contains_true in Hr. now apply Hre.
Qed.

Lemma twoq_inv_Get c k : twoq_inv c -> twoq_inv (fst (TwoQueueCache.Get c k)).
Proof.
  intros I.
  destruct (LRU.contains (TwoQueueCache.frequent c) k) eqn:Hf.
  - rewrite twoq_Get_frequent by assumption. simpl.
    destruct I as [Hrs Ir If Ie Hrc Hfc Hlen Hrf Hre Hfe].
    constructor; simpl; auto using lru_inv_Get.
    + now rewrite Get_size.
    + unfold TwoQueueCache.Len in *. simpl. now rewrite Get_Len.
    + eapply disjoint_incl; [|apply Get_incl|exact Hrf]. auto.
    + eapply disjoint_incl; [apply Get_incl| |exact Hfe]. auto.
  - destruct (LRU.contains (TwoQueueCache.recent c) k) eqn:Hr.
    + rewrite twoq_Get_recent by assumption. simpl.
      now apply twoq_inv_promote.
    + now rewrite twoq_Get_miss.
Qed.

Lemma twoq_inv_Put c k v : twoq_inv c -> twoq_inv (TwoQueueCache.Put c k v).
Proof.
  intros I. unfold TwoQueueCache.Put.
  destruct (LRU.contains (TwoQueueCache.frequent c) k) eqn:Hf.
  { (* overwrite in frequent *)
    destruct I as [Hrs Ir If Ie Hrc Hfc Hlen Hrf Hre Hfe].
    constructor; simpl; auto using lru_inv_Put.
    - now rewrite Put_size.
    - unfold TwoQueueCache.Len in *. simpl.
      now rewrite Put_Len_present.
    - apply disjoint_Put_r; [|assumption].
      intros H. apply contains_true in Hf. now apply (Hrf k).
    - apply disjoint_Put_l; [|assumption].
      apply contains_true in Hf. now apply Hfe. }
  destruct (LRU.contains (TwoQueueCache.recent c) k) eqn:Hr.
  { now apply twoq_inv_promote. }
  apply contains_false in Hf, Hr.
  destruct (LRU.contains (TwoQueueCache.evict c) k) eqn:He.
  - (* ghost hit *)
    destruct (ensureSpace_inv c true I) as (I1 & Hs & Hl & Hr1 & Hf1 & He1).
    cbv zeta. set (c1 := TwoQueueCache.ensureSpace c true) in *.
    destruct I1 as [Hrs Ir If Ie Hrc Hfc Hlen Hrf Hre Hfe].
    constructor; simpl; auto using lru_inv_Put, lru_inv_Remove.
    + now rewrite Put_size.
    + unfold TwoQueueCache.Len in *. simpl.
      pose proof (Put_Len_step (TwoQueueCache.frequent c1) k v). lia.
    + apply disjoint_Put_r; [auto|assumption].
    + eapply disjoint_incl; [|apply Remove_incl|exact Hre]. auto.
    + intros k0 H1 H2. apply Put_incl in H1 as [->|H1].
      * now apply (Remove_gone (TwoQueueCache.evict c1) k (lru_nodup _ Ie)).
      * apply Remove_incl in H2. now apply (Hfe k0).
  - (* a key never seen *)
    apply contains_false in He.
    destruct (ensureSpace_inv c false I) as (I1 & Hs & Hl & Hr1 & Hf1 & He1).
    cbv zeta. set (c1 := TwoQueueCache.ensureSpace c false) in *.
    destruct I1 as [Hrs Ir If Ie Hrc Hfc Hlen Hrf Hre Hfe].
    constructor; simpl; auto using lru_inv_Put.
    + now rewrite Put_size.
    + unfold TwoQueueCache.Len in *. simpl.
      pose proof (Put_Len_step (TwoQueueCache.recent c1) k v). lia.
    + apply disjoint_Put_l; [auto|assumption].
    + apply disjoint_Put_l; [|assumption].
      intros H. apply He1 in H as [H|H]; contradiction.
Qed.

Lemma twoq_inv_Remove c k : twoq_inv c -> twoq_inv (TwoQueueCache.Remove c k).
Proof.
  intros [Hrs Ir If Ie Hrc Hfc Hlen Hrf Hre Hfe].
  unfold TwoQueueCache.Remove. rewrite !removeIfExist_spec.
  unfold TwoQueueCache.Len in *.
  pose proof (Remove_Len_le (TwoQueueCache.frequent c) k).
  pose proof (Remove_Len_le (TwoQueueCache.recent c) k).
  destruct (LRU.contains (TwoQueueCache.frequent c) k);
    [|destruct (LRU.contains (TwoQueueCache.recent c) k)];
    constructor; simpl; rewrite ?Remove_size;
    auto using lru_inv_Remove; unfold TwoQueueCache.Len; simpl; try lia.
  - eapply disjoint_incl; [|apply Remove_incl|exact Hrf]. auto.
  - eapply disjoint_incl; [apply Remove_incl| |exact Hfe]. auto.
  - eapply disjoint_incl; [apply Remove_incl| |exact Hrf]. auto.
  - eapply disjoint_incl; [apply Remove_incl| |exact Hre]. auto.
  - eapply disjoint_incl; [|apply Remove_incl|exact Hre]. auto.
  - eapply disjoint_incl; [|apply Remove_incl|exact Hfe]. auto.
Qed.

Lemma twoq_inv_Purge c : twoq_inv c -> twoq_inv (TwoQueueCache.Purge c).
Proof.
  intros [Hrs Ir If Ie Hrc Hfc Hlen Hrf Hre Hfe].
  pose proof (lru_cap_pos _ If).
  constructor; simpl; auto using lru_inv_Purge.
  - unfold TwoQueueCache.Len, LRU.Len. simpl. lia.
  - intros k [].
  - intros k [].
  - intros k [].
Qed.

Lemma twoq_inv_exec c (o : op V) : twoq_inv c -> twoq_inv (twoq_exec c o).
Proof.
  destruct o; simpl;
    auto using twoq_inv_Get, twoq_inv_Put, twoq_inv_Remove, twoq_inv_Purge.
Qed.

Lemma twoq_inv_run (ops : list (op V)) : forall c,
  twoq_inv c -> twoq_inv (twoq_run c ops).
Proof.
  induction ops as [|o ops IH]; intros c I; simpl; [assumption|].
  apply IH. now apply twoq_inv_exec.
Qed.

End TwoQOps.

Section TwoQBehaviour.

Context {V : Type}.

Implicit Types (c : TwoQueueCache.t V) (k : key) (v : any V).

Lemma getAndRemoveOldest_rest (l : LRU.t V) l' k0 v0 ok k :
  LRU.getAndRemoveOldest l = (l', (k0, v0, ok)) ->
  In k (keys l) -> k = k0 \/ In k (keys l').
Proof.
  unfold LRU.getAndRemoveOldest, keys.
  destruct (LRU.Back (LRU.evictList l)) as [e|] eqn:E.
  - intros H. injection H as <- <- _ _. simpl.
    rewrite (Back_keys _ _ E), in_app_iff. simpl. intuition.
  - intros H. injection H as <- _ _ _. auto.
Qed.

(** A key that [ensureSpace] takes out of [recent] is afterwards a ghost:
    indexed in [evict] with a nil value. *)
Lemma ensureSpace_ghost c (recentEvict : bool) k :
  twoq_inv c ->
  In k (keys (TwoQueueCache.recent c)) ->
  ~ In k (keys (TwoQueueCache.recent
                  (TwoQueueCache.ensureSpace c recentEvict))) ->
  LRU.Peek (TwoQueueCache.evict (TwoQueueCache.ensureSpace c recentEvict)) k
  = (None, true).
Proof.
  intros I Hin Hout. unfold TwoQueueCache.ensureSpace in *.
  destruct (_ <? _); [contradiction|].
  destruct (_ && _); [|contradiction].
  destruct (LRU.getAndRemoveOldest (TwoQueueCache.recent c))
    as [recent' [[k0 v0] ok]] eqn:Eg.
  simpl in *.
  destruct (getAndRemoveOldest_rest _ _ _ _ _ _ Eg Hin) as [->|H];
    [|contradiction].
  unfold LRU.Peek. now rewrite Put_items by apply (tq_evict _ I).
Qed.

(** [Put] on a ghost: the key leaves [evict], sits in [frequent] with the
    new value, and is not in [recent]. *)
Lemma twoq_Put_ghost c k v :
  twoq_inv c ->
  LRU.contains (TwoQueueCache.evict c) k = true ->
  let c' := TwoQueueCache.Put c k v in
  LRU.contains (TwoQueueCache.evict c') k = false
  /\ LRU.Peek (TwoQueueCache.frequent c') k = (v, true)
  /\ LRU.contains (TwoQueueCache.recent c') k = false.
Proof.
  intros I He. pose proof He as Hin. apply contains_true in Hin.
  assert (Hf : LRU.contains (TwoQueueCache.frequent c) k = false).
  { apply contains_false. intros H. now apply (tq_fe _ I k). }
  assert (Hr : LRU.contains (TwoQueueCache.recent c) k = false).
  { apply contains_false. intros H. now apply (tq_re _ I k). }
  unfold TwoQueueCache.Put. rewrite Hf, Hr, He. cbv zeta. simpl.
  destruct (ensureSpace_inv c true I) as (I1 & _ & _ & Hr1 & _ & _).
  split; [|split].
  - apply contains_false, Remove_gone, (lru_nodup _ (tq_evict _ I1)).
  - unfold LRU.Peek. now rewrite Put_items by apply (tq_frequent _ I1).
  - apply contains_false. intros H. apply Hr1 in H.
    now apply contains_false in Hr.
Qed.

(** [Get] on a cache satisfying the invariant: the length and the set of
    cached keys are kept, and [evict] is untouched. *)
Lemma twoq_Get_frame c k :
  twoq_inv c ->
  let c' := fst (TwoQueueCache.Get c k) in
  TwoQueueCache.Len c' = TwoQueueCache.Len c
  /\ TwoQueueCache.evict c' = TwoQueueCache.evict c
  /\ (forall k', In k' (map Key (TwoQueueCache.Items c'))
                 <-> In k' (map Key (TwoQueueCache.Items c)))
  /\ (LRU.contains (TwoQueueCache.frequent c) k = true ->
      TwoQueueCache.recent c' = TwoQueueCache.recent c
      /\ TwoQueueCache.frequent c'
         = fst (LRU.Get (TwoQueueCache.frequent c) k))
  /\ (LRU.contains (TwoQueueCache.frequent c) k = false ->
      LRU.contains (TwoQueueCache.recent c) k = true ->
      LRU.Len (TwoQueueCache.frequent c)
        < LRU.size (TwoQueueCache.frequent c)
      /\ TwoQueueCache.recent c' = LRU.Remove (TwoQueueCache.recent c) k
      /\ LRU.evictList (TwoQueueCache.frequent c')
         = mkItem k (fst (LRU.Peek (TwoQueueCache.recent c) k))
             :: LRU.evictList (TwoQueueCache.frequent c))
  /\ (LRU.contains (TwoQueueCache.frequent c) k = false ->
      LRU.contains (TwoQueueCache.recent c) k = false ->
      c' = c).
Proof.
  intros I. cbv zeta. unfold TwoQueueCache.Items, LRU.Items.
  destruct (LRU.contains (TwoQueueCache.frequent c) k) eqn:Hf.
  - rewrite twoq_Get_frequent by assumption.
    unfold TwoQueueCache.Len. simpl. rewrite Get_Len.
    split; [reflexivity|]. split; [reflexivity|]. split.
    + intros k'. rewrite !map_app, !in_app_iff.
      pose proof (Get_keys (TwoQueueCache.frequent c) k k') as Hk.
      unfold keys in Hk. tauto.
    + repeat split; auto; discriminate.
  - destruct (LRU.contains (TwoQueueCache.recent c) k) eqn:Hr.
    + rewrite twoq_Get_recent by assumption.
      pose proof (twoq_promote_room _ _ I Hr) as Hroom.
      unfold TwoQueueCache.Len. simpl.
      rewrite Remove_Len, Put_Len_absent_room by assumption.
      rewrite Put_absent_room by assumption.
      split; [lia|]. split; [reflexivity|]. split.
      * intros k'. rewrite !map_app, !in_app_iff. simpl.
        pose proof (Remove_incl (TwoQueueCache.recent c) k k') as H1.
        pose proof (Remove_other (TwoQueueCache.recent c) k k') as H2.
        apply contains_true in Hr. unfold keys in *.
        destruct (N.eq_dec k' k) as [->|Hne]; intuition congruence.
      * repeat split; auto; discriminate.
    + rewrite twoq_Get_miss by assumption. simpl.
      repeat split; auto; discriminate.
Qed.

End TwoQBehaviour.

(** ** The Adaptive Replacement Cache *)

Section ARCFacts.

Context {V : Type}.

Implicit Types (c : ARCCache.t V) (k : key) (v : any V).

Lemma NewARC_inv (size : Z) c0 :
  ARCCache.NewARC V size = Ok c0 ->
  arc_inv c0 /\ ARCCache.size c0 = size /\ 0 < size.
Proof.
  unfold ARCCache.NewARC, LRU.NewLRU.
  destruct (Z.leb_spec size 0) as [|Hpos]; [discriminate|].
  intros H. injection H as <-. split; [|auto].
  constructor; simpl; auto using lru_inv_new; try lia; intros k [].
Qed.

Lemma NewARC_ok (size : Z) :
  0 < size ->
  ARCCache.NewARC V size
  = Ok (ARCCache.mk size 0 (LRU.mk size []) (LRU.mk size [])
          (LRU.mk size []) (LRU.mk size [])).
Proof.
  intros H. unfold ARCCache.NewARC, LRU.NewLRU.
  destruct (Z.leb_spec size 0); [lia|reflexivity].
Qed.

(** [replace] moves the oldest key of one list to its ghost list, or does
    nothing when the list it turns to is empty. *)
Lemma replace_inv c (b2ContainsKey : bool) :
  arc_inv c ->
  let c1 := ARCCache.replace c b2ContainsKey in
  arc_inv c1
  /\ ARCCache.size c1 = ARCCache.size c
  /\ ARCCache.p c1 = ARCCache.p c
  /\ (forall k, In k (keys (ARCCache.t1 c1)) -> In k (keys (ARCCache.t1 c)))
  /\ (forall k, In k (keys (ARCCache.t2 c1)) -> In k (keys (ARCCache.t2 c)))
  /\ (forall k, In k (keys (ARCCache.b1 c1)) ->
                In k (keys (ARCCache.b1 c)) \/ In k (keys (ARCCache.t1 c)))
  /\ (forall k, In k (keys (ARCCache.b2 c1)) ->
                In k (keys (ARCCache.b2 c)) \/ In k (keys (ARCCache.t2 c))).
Proof.
  intros I.
  pose proof I as [Hp I1 Ib1 I2 Ib2 C1 C2 D12 D1b1 D1b2 D2b1 D2b2 Db].
  unfold ARCCache.replace, LRU.GetAndRemoveOldest.
  destruct (_ && _) eqn:Hcond.
  - apply andb_true_iff in Hcond as [Hne _].
    rewrite Z.gtb_ltb in Hne. apply Z.ltb_lt in Hne.
    destruct (LRU.getAndRemoveOldest (ARCCache.t1 c))
      as [t1' [[k0 v0] ok]] eqn:Eg.
    pose proof (getAndRemoveOldest_fst (ARCCache.t1 c)) as Hfst.
    rewrite Eg in Hfst. simpl in Hfst. subst t1'.
    apply getAndRemoveOldest_found in Eg as (-> & Hin & Hout); [|lia].
    specialize (Hout (lru_nodup _ I1)).
    cbv zeta. split; [constructor; simpl|simpl];
      auto using lru_inv_removeOldest, lru_inv_Put.
    + now rewrite removeOldest_size.
    + eapply disjoint_incl; [apply removeOldest_incl| |exact D12]. auto.
    + intros k H1 H2. apply Put_incl in H2 as [->|H2]; [contradiction|].
      apply removeOldest_incl in H1. now apply (D1b1 k).
    + eapply disjoint_incl; [apply removeOldest_incl| |exact D1b2]. auto.
    + apply disjoint_Put_r; [|assumption].
      intros H. now apply (D12 k0).
    + apply disjoint_Put_l; [|assumption]. now apply D1b2.
    + split; [reflexivity|]. split; [reflexivity|].
      split; [apply removeOldest_incl|]. split; [auto|]. split; [|auto].
      intros k H. apply Put_incl in H as [->|H]; auto.
  - destruct (LRU.getAndRemoveOldest (ARCCache.t2 c))
      as [t2' [[k0 v0] ok]] eqn:Eg.
    pose proof (getAndRemoveOldest_fst (ARCCache.t2 c)) as Hfst.
    rewrite Eg in Hfst. simpl in Hfst. subst t2'.
    pose proof (Len_nonneg (ARCCache.t2 c)) as H0.
    destruct (Z.eq_dec (LRU.Len (ARCCache.t2 c)) 0) as [Hz|Hnz].
    + apply getAndRemoveOldest_empty in Eg as [-> Hsame]; [|assumption].
      rewrite Hsame. cbv zeta. destruct c; simpl in *. intuition.
    + apply getAndRemoveOldest_found in Eg as (-> & Hin & Hout); [|lia].
      specialize (Hout (lru_nodup _ I2)).
      cbv zeta. split; [constructor; simpl|simpl];
        auto using lru_inv_removeOldest, lru_inv_Put.
      * now rewrite removeOldest_size.
      * eapply disjoint_incl; [|apply removeOldest_incl|exact D12]. auto.
      * apply disjoint_Put_r; [|assumption].
        intros H. now apply (D12 k0).
      * eapply disjoint_incl; [apply removeOldest_incl| |exact D2b1]. auto.
      * intros k H1 H2. apply Put_incl in H2 as [->|H2]; [contradiction|].
        apply removeOldest_incl in H1. now apply (D2b2 k).
      * apply disjoint_Put_r; [|assumption].
        intros H. now apply (D2b1 k0).
      * split; [reflexivity|]. split; [reflexivity|].
        split; [auto|]. split; [apply removeOldest_incl|]. split; [auto|].
        intros k H. apply Put_incl in H as [->|H]; auto.
Qed.

Lemma makeRoom_inv c (b2ContainsKey : bool) :
  arc_inv c ->
  let c1 := ARCCache.makeRoom c b2ContainsKey in
  arc_inv c1
  /\ ARCCache.size c1 = ARCCache.size c
  /\ ARCCache.p c1 = ARCCache.p c
  /\ (forall k, In k (keys (ARCCache.t1 c1)) -> In k (keys (ARCCache.t1 c)))
  /\ (forall k, In k (keys (ARCCache.t2 c1)) -> In k (keys (ARCCache.t2 c)))
  /\ (forall k, In k (keys (ARCCache.b1 c1)) ->
                In k (keys (ARCCache.b1 c)) \/ In k (keys (ARCCache.t1 c)))
  /\ (forall k, In k (keys (ARCCache.b2 c1)) ->
                In k (keys (ARCCache.b2 c)) \/ In k (keys (ARCCache.t2 c))).
Proof.
  intros I. unfold ARCCache.makeRoom.
  destruct (_ >=? _); [now apply replace_inv|].
  cbv zeta. intuition.
Qed.

End ARCFacts.

Section ARCOps.

Context {V : Type}.

Implicit Types (c : ARCCache.t V) (k : key) (v : any V).

(** A key of a ghost list makes the list non-empty, so the quotient of
    the two lengths is defined. *)
Lemma deltaB1_defined c k :
  LRU.Contains (ARCCache.b1 c) k = true ->
  ARCCache.deltaB1 c
  = Some (Z.max 1 (LRU.Len (ARCCache.b2 c) / LRU.Len (ARCCache.b1 c))).
Proof.
  intros H. apply Len_pos_of_contains in H.
  pose proof (Len_nonneg (ARCCache.b2 c)) as H2.
  unfold ARCCache.deltaB1, quo.
  destruct (Z.gtb_spec (LRU.Len (ARCCache.b2 c)) (LRU.Len (ARCCache.b1 c)))
    as [Hgt|Hle].
  - destruct (Z.eqb_spec (LRU.Len (ARCCache.b1 c)) 0); [lia|].
    rewrite Z.quot_div_nonneg by lia. f_equal.
    rewrite Z.max_r; [reflexivity|].
    apply Z.div_le_lower_bound; lia.
  - f_equal. rewrite Z.max_l; [reflexivity|].
    apply Z.div_le_upper_bound; lia.
Qed.

Lemma deltaB2_defined c k :
  LRU.Contains (ARCCache.b2 c) k = true ->
  ARCCache.deltaB2 c
  = Some (Z.max 1 (LRU.Len (ARCCache.b1 c) / LRU.Len (ARCCache.b2 c))).
Proof.
  intros H. apply Len_pos_of_contains in H.
  pose proof (Len_nonneg (ARCCache.b1 c)) as H1.
  unfold ARCCache.deltaB2, quo.
  destruct (Z.gtb_spec (LRU.Len (ARCCache.b1 c)) (LRU.Len (ARCCache.b2 c)))
    as [Hgt|Hle].
  - destruct (Z.eqb_spec (LRU.Len (ARCCache.b2 c)) 0); [lia|].
    rewrite Z.quot_div_nonneg by lia. f_equal.
    rewrite Z.max_r; [reflexivity|].
    apply Z.div_le_lower_bound; lia.
  - f_equal. rewrite Z.max_l; [reflexivity|].
    apply Z.div_le_upper_bound; lia.
Qed.

(** No call of [Put] divides by zero, whatever the cache. *)
Lemma arc_Put_defined c k v : exists c', ARCCache.Put c k v = Some c'.
Proof.
  unfold ARCCache.Put.
  destruct (LRU.Contains (ARCCache.t1 c) k); [eauto|].
  destruct (LRU.Contains (ARCCache.t2 c) k); [eauto|].
  destruct (LRU.Contains (ARCCache.b1 c) k) eqn:H1.
  { rewrite (deltaB1_defined _ _ H1). eauto. }
  destruct (LRU.Contains (ARCCache.b2 c) k) eqn:H2.
  { rewrite (deltaB2_defined _ _ H2). eauto. }
  eauto.
Qed.

Lemma arc_run_defined (ops : list (op V)) : forall c,
  exists c', arc_run c ops = Some c'.
Proof.
  induction ops as [|o ops IH]; intros c; simpl; [eauto|].
  destruct o; simpl; auto.
  destruct (arc_Put_defined c k value) as [c' ->]. auto.
Qed.

(** Promotion of a key of [T1] into [T2] ([Get], and [Put] on a key of
    [T1]). *)
Lemma arc_inv_promote c k v :
  arc_inv c -> In k (keys (ARCCache.t1 c)) ->
  arc_inv
    (ARCCache.mk (ARCCache.size c) (ARCCache.p c)
       (LRU.Remove (ARCCache.t1 c) k) (ARCCache.b1 c)
       (LRU.Put (ARCCache.t2 c) k v) (ARCCache.b2 c)).
Proof.
  intros [Hp I1 Ib1 I2 Ib2 C1 C2 D12 D1b1 D1b2 D2b1 D2b2 Db] Hin.
  constructor; simpl; auto using lru_inv_Remove, lru_inv_Put.
  - now rewrite Remove_size.
  - now rewrite Put_size.
  - apply disjoint_move; [apply (lru_nodup _ I1)|assumption].
  - eapply disjoint_incl; [apply Remove_incl| |exact D1b1]. auto.
  - eapply disjoint_incl; [apply Remove_incl| |exact D1b2]. auto.
  - apply disjoint_Put_l; [|assumption]. now apply D1b1.
  - apply disjoint_Put_l; [|assumption]. now apply D1b2.
Qed.

Lemma arc_inv_Get c k : arc_inv c -> arc_inv (fst (ARCCache.Get c k)).
Proof.
  intros I. unfold ARCCache.Get.
  pose proof (Peek_found (ARCCache.t1 c) k) as Hp1.
  destruct (LRU.Peek (ARCCache.t1 c) k) as [value ok]. simpl in Hp1.
  destruct ok.
  - simpl. apply arc_inv_promote; [assumption|].
    now apply contains_true.
  - pose proof (Get_found (ARCCache.t2 c) k) as Hg.
    pose proof (lru_inv_Get (ARCCache.t2 c) k) as Hi.
    pose proof (Get_incl (ARCCache.t2 c) k) as Hk.
    pose proof (Get_size (ARCCache.t2 c) k) as Hs.
    destruct (LRU.Get (ARCCache.t2 c) k) as [t2' [value' ok']].
    simpl in *. destruct ok'; [|assumption]. simpl.
    destruct I as [Hp I1 Ib1 I2 Ib2 C1 C2 D12 D1b1 D1b2 D2b1 D2b2 Db].
    constructor; simpl; auto; try congruence.
    + eapply disjoint_incl; [|apply Hk|exact D12]. auto.
    + eapply disjoint_incl; [apply Hk| |exact D2b1]. auto.
    + eapply disjoint_incl; [apply Hk| |exact D2b2]. auto.
Qed.

Lemma arc_inv_Remove c k : arc_inv c -> arc_inv (ARCCache.Remove c k).
Proof.
  intros [Hp I1 Ib1 I2 Ib2 C1 C2 D12 D1b1 D1b2 D2b1 D2b2 Db].
  unfold ARCCache.Remove, LRU.RemoveB. rewrite !removeIfExist_spec.
  destruct (LRU.contains (ARCCache.t1 c) k);
    [|destruct (LRU.contains (ARCCache.t2 c) k);
      [|destruct (LRU.contains (ARCCache.b1 c) k)]];
    constructor; simpl; rewrite ?Remove_size;
    auto using lru_inv_Remove, disjoint_Remove_l, disjoint_Remove_r.
Qed.

Lemma arc_inv_Purge c : arc_inv c -> arc_inv (ARCCache.Purge c).
Proof.
  intros [Hp I1 Ib1 I2 Ib2 C1 C2 D12 D1b1 D1b2 D2b1 D2b2 Db].
  constructor; simpl; auto using lru_inv_Purge; intros k [].
Qed.

End ARCOps.

Section ARCPut.

Context {V : Type}.

Implicit Types (c : ARCCache.t V) (k : key) (v : any V).

(** The tail of both ghost-hit branches: after [p] is adapted to [p'],
    make room, drop the ghost and insert into [T2]. *)
Lemma arc_inv_ghost_B1 c k v (p' : Z) :
  arc_inv c -> 0 <= p' <= ARCCache.size c ->
  ~ In k (keys (ARCCache.t1 c)) -> ~ In k (keys (ARCCache.t2 c)) ->
  In k (keys (ARCCache.b1 c)) ->
  let c1 := ARCCache.mk (ARCCache.size c) p' (ARCCache.t1 c)
              (ARCCache.b1 c) (ARCCache.t2 c) (ARCCache.b2 c) in
  let c2 := ARCCache.makeRoom c1 false in
  arc_inv (ARCCache.mk (ARCCache.size c2) (ARCCache.p c2)
             (ARCCache.t1 c2) (LRU.Remove (ARCCache.b1 c2) k)
             (LRU.Put (ARCCache.t2 c2) k v) (ARCCache.b2 c2))
  /\ ARCCache.size c2 = ARCCache.size c /\ ARCCache.p c2 = p'.
Proof.
  intros I Hp' Hn1 Hn2 Hb1 c1 c2.
  assert (I1 : arc_inv c1).
  { destruct I. constructor; simpl; auto. }
  destruct (makeRoom_inv c1 false I1) as (I2 & Hs & Hp & H1 & H2 & H3 & H4).
  fold c2 in I2, Hs, Hp, H1, H2, H3, H4. simpl in Hs, Hp, H1, H2, H3, H4.
  split; [|auto].
  pose proof I2 as [Hpb J1 Jb1 J2 Jb2 C1 C2 D12 D1b1 D1b2 D2b1 D2b2 Db].
  constructor; simpl;
    auto using lru_inv_Remove, lru_inv_Put, disjoint_Remove_l,
      disjoint_Remove_r.
  - now rewrite Put_size.
  - apply disjoint_Put_r; auto.
  - apply disjoint_sym, disjoint_move;
      [apply (lru_nodup _ Jb1)|now apply disjoint_sym].
  - apply disjoint_Put_l; [|assumption].
    intros H. apply H4 in H as [H|H]; [|contradiction].
    now apply (arc_b1_b2 _ I k).
Qed.

Lemma arc_inv_ghost_B2 c k v (p' : Z) :
  arc_inv c -> 0 <= p' <= ARCCache.size c ->
  ~ In k (keys (ARCCache.t1 c)) -> ~ In k (keys (ARCCache.t2 c)) ->
  In k (keys (ARCCache.b2 c)) ->
  let c1 := ARCCache.mk (ARCCache.size c) p' (ARCCache.t1 c)
              (ARCCache.b1 c) (ARCCache.t2 c) (ARCCache.b2 c) in
  let c2 := ARCCache.makeRoom c1 true in
  arc_inv (ARCCache.mk (ARCCache.size c2) (ARCCache.p c2)
             (ARCCache.t1 c2) (ARCCache.b1 c2)
             (LRU.Put (ARCCache.t2 c2) k v)
             (LRU.Remove (ARCCache.b2 c2) k))
  /\ ARCCache.size c2 = ARCCache.size c /\ ARCCache.p c2 = p'.
Proof.
  intros I Hp' Hn1 Hn2 Hb2 c1 c2.
  assert (I1 : arc_inv c1).
  { destruct I. constructor; simpl; auto. }
  destruct (makeRoom_inv c1 true I1) as (I2 & Hs & Hp & H1 & H2 & H3 & H4).
  fold c2 in I2, Hs, Hp, H1, H2, H3, H4. simpl in Hs, Hp, H1, H2, H3, H4.
  split; [|auto].
  pose proof I2 as [Hpb J1 Jb1 J2 Jb2 C1 C2 D12 D1b1 D1b2 D2b1 D2b2 Db].
  constructor; simpl;
    auto using lru_inv_Remove, lru_inv_Put, disjoint_Remove_l,
      disjoint_Remove_r.
  - now rewrite Put_size.
  - apply disjoint_Put_r; auto.
  - apply disjoint_Put_l; [|assumption].
    intros H. apply H3 in H as [H|H]; [|contradiction].
    now apply (arc_b1_b2 _ I k).
  - apply disjoint_sym, disjoint_move;
      [apply (lru_nodup _ Jb2)|now apply disjoint_sym].
Qed.

(** Trimming a ghost list: [if cond { b.RemoveOldest() }]. *)
Lemma trim_incl (cond : bool) (b : LRU.t V) k :
  In k (keys (if cond then LRU.RemoveOldest b else b)) -> In k (keys b).
Proof. destruct cond; [apply removeOldest_incl|auto]. Qed.

Lemma trim_inv (cond : bool) (b : LRU.t V) :
  lru_inv b -> lru_inv (if cond then LRU.RemoveOldest b else b).
Proof. destruct cond; [apply lru_inv_removeOldest|auto]. Qed.

(** A key seen nowhere enters [T1]. *)
Lemma arc_inv_fresh c k v :
  arc_inv c ->
  ~ In k (keys (ARCCache.t1 c)) -> ~ In k (keys (ARCCache.t2 c)) ->
  ~ In k (keys (ARCCache.b1 c)) -> ~ In k (keys (ARCCache.b2 c)) ->
  let c1 := ARCCache.makeRoom c false in
  let b1' := if LRU.Len (ARCCache.b1 c1) >? ARCCache.size c1 - ARCCache.p c1
             then LRU.RemoveOldest (ARCCache.b1 c1) else ARCCache.b1 c1 in
  let b2' := if LRU.Len (ARCCache.b2 c1) >? ARCCache.p c1
             then LRU.RemoveOldest (ARCCache.b2 c1) else ARCCache.b2 c1 in
  arc_inv (ARCCache.mk (ARCCache.size c1) (ARCCache.p c1)
             (LRU.Put (ARCCache.t1 c1) k v) b1' (ARCCache.t2 c1) b2')
  /\ ARCCache.size c1 = ARCCache.size c /\ ARCCache.p c1 = ARCCache.p c.
Proof.
  intros I Hn1 Hn2 Hnb1 Hnb2 c1 b1' b2'.
  destruct (makeRoom_inv c false I) as (I1 & Hs & Hp & H1 & H2 & H3 & H4).
  fold c1 in I1, Hs, Hp, H1, H2, H3, H4.
  split; [|auto].
  pose proof I1 as [Hpb J1 Jb1 J2 Jb2 C1 C2 D12 D1b1 D1b2 D2b1 D2b2 Db].
  assert (Hk1 : ~ In k (keys (ARCCache.b1 c1))).
  { intros H. apply H3 in H as [H|H]; contradiction. }
  assert (Hk2 : ~ In k (keys (ARCCache.b2 c1))).
  { intros H. apply H4 in H as [H|H]; contradiction. }
  assert (Hi1 : forall k0, In k0 (keys b1') -> In k0 (keys (ARCCache.b1 c1)))
    by (intros k0; apply trim_incl).
  assert (Hi2 : forall k0, In k0 (keys b2') -> In k0 (keys (ARCCache.b2 c1)))
    by (intros k0; apply trim_incl).
  assert (Jb1' : lru_inv b1') by now apply trim_inv.
  assert (Jb2' : lru_inv b2') by now apply trim_inv.
  constructor; simpl; auto using lru_inv_Put.
  - now rewrite Put_size.
  - apply disjoint_Put_l; auto.
  - apply disjoint_Put_l; [auto|].
    eapply disjoint_incl; [|apply Hi1|exact D1b1]. auto.
  - apply disjoint_Put_l; [auto|].
    eapply disjoint_incl; [|apply Hi2|exact D1b2]. auto.
  - eapply disjoint_incl; [|apply Hi1|exact D2b1]. auto.
  - eapply disjoint_incl; [|apply Hi2|exact D2b2]. auto.
  - eapply disjoint_incl; [apply Hi1|apply Hi2|exact Db].
Qed.

End ARCPut.

Section ARCRuns.

Context {V : Type}.

Implicit Types (c : ARCCache.t V) (k : key) (v : any V).

Lemma arc_Put_B1_spec c k v :
  arc_inv c -> LRU.Contains (ARCCache.b1 c) k = true ->
  exists c',
    ARCCache.Put c k v = Some c'
    /\ arc_inv c'
    /\ ARCCache.size c' = ARCCache.size c
    /\ ARCCache.p c'
       = Z.min (ARCCache.size c)
           (ARCCache.p c
            + Z.max 1 (LRU.Len (ARCCache.b2 c) / LRU.Len (ARCCache.b1 c))).
Proof.
  intros I Hb. pose proof Hb as Hin. apply contains_true in Hin.
  assert (Hn1 : ~ In k (keys (ARCCache.t1 c))).
  { intros H. now apply (arc_t1_b1 _ I k). }
  assert (Hn2 : ~ In k (keys (ARCCache.t2 c))).
  { intros H. now apply (arc_t2_b1 _ I k). }
  unfold ARCCache.Put, LRU.Contains in *.
  apply contains_false in Hn1, Hn2. rewrite Hn1, Hn2, Hb.
  apply contains_false in Hn1, Hn2.
  rewrite (deltaB1_defined _ _ Hb).
  set (delta := Z.max 1 _).
  set (p' := if ARCCache.p c + delta >=? ARCCache.size c
             then ARCCache.size c else ARCCache.p c + delta).
  pose proof (arc_p _ I) as Hp.
  assert (Hp' : p' = Z.min (ARCCache.size c) (ARCCache.p c + delta)).
  { unfold p'. rewrite Z.geb_leb. destruct (Z.leb_spec (ARCCache.size c)
      (ARCCache.p c + delta)); lia. }
  assert (Hd : 1 <= delta) by (unfold delta; lia).
  destruct (arc_inv_ghost_B1 c k v p' I) as (I' & Hs & Hpp); auto; [lia|].
  eexists. split; [reflexivity|]. cbv zeta. simpl.
  split; [exact I'|]. split; [exact Hs|]. now rewrite Hpp.
Qed.

Lemma arc_Put_B2_spec c k v :
  arc_inv c -> LRU.Contains (ARCCache.b2 c) k = true ->
  exists c',
    ARCCache.Put c k v = Some c'
    /\ arc_inv c'
    /\ ARCCache.size c' = ARCCache.size c
    /\ ARCCache.p c'
       = Z.max 0
           (ARCCache.p c
            - Z.max 1 (LRU.Len (ARCCache.b1 c) / LRU.Len (ARCCache.b2 c))).
Proof.
  intros I Hb. pose proof Hb as Hin. apply contains_true in Hin.
  assert (Hn1 : ~ In k (keys (ARCCache.t1 c))).
  { intros H. now apply (arc_t1_b2 _ I k). }
  assert (Hn2 : ~ In k (keys (ARCCache.t2 c))).
  { intros H. now apply (arc_t2_b2 _ I k). }
  assert (Hnb : ~ In k (keys (ARCCache.b1 c))).
  { intros H. now apply (arc_b1_b2 _ I k). }
  unfold ARCCache.Put, LRU.Contains in *.
  apply contains_false in Hn1, Hn2, Hnb. rewrite Hn1, Hn2, Hnb, Hb.
  apply contains_false in Hn1, Hn2.
  rewrite (deltaB2_defined _ _ Hb).
  set (delta := Z.max 1 _).
  set (p' := if delta >=? ARCCache.p c then 0 else ARCCache.p c - delta).
  pose proof (arc_p _ I) as Hp.
  assert (Hp' : p' = Z.max 0 (ARCCache.p c - delta)).
  { unfold p'. rewrite Z.geb_leb.
    destruct (Z.leb_spec (ARCCache.p c) delta); lia. }
  assert (Hd : 1 <= delta) by (unfold delta; lia).
  destruct (arc_inv_ghost_B2 c k v p' I) as (I' & Hs & Hpp); auto; [lia|].
  eexists. split; [reflexivity|]. cbv zeta. simpl.
  split; [exact I'|]. split; [exact Hs|]. now rewrite Hpp.
Qed.

Lemma arc_inv_Put c k v c' :
  arc_inv c -> ARCCache.Put c k v = Some c' ->
  arc_inv c' /\ ARCCache.size c' = ARCCache.size c.
Proof.
  intros I.
  destruct (LRU.Contains (ARCCache.t1 c) k) eqn:H1.
  { unfold ARCCache.Put. rewrite H1. intros H. injection H as <-.
    split; [|reflexivity]. apply arc_inv_promote; [assumption|].
    now apply contains_true. }
  destruct (LRU.Contains (ARCCache.t2 c) k) eqn:H2.
  { unfold ARCCache.Put. rewrite H1, H2. intros H. injection H as <-.
    split; [|reflexivity]. apply contains_true in H2.
    destruct I as [Hp I1 Ib1 I2 Ib2 C1 C2 D12 D1b1 D1b2 D2b1 D2b2 Db].
    constructor; simpl; auto using lru_inv_Put.
    - now rewrite Put_size.
    - apply disjoint_Put_r; [|assumption]. intros H. now apply (D12 k).
    - apply disjoint_Put_l; [|assumption]. now apply D2b1.
    - apply disjoint_Put_l; [|assumption]. now apply D2b2. }
  destruct (LRU.Contains (ARCCache.b1 c) k) eqn:H3.
  { destruct (arc_Put_B1_spec c k v I H3) as (c'' & -> & I' & Hs & _).
    intros H. injection H as <-. auto. }
  destruct (LRU.Contains (ARCCache.b2 c) k) eqn:H4.
  { destruct (arc_Put_B2_spec c k v I H4) as (c'' & -> & I' & Hs & _).
    intros H. injection H as <-. auto. }
  unfold ARCCache.Put. rewrite H1, H2, H3, H4.
  unfold LRU.Contains in *. apply contains_false in H1, H2, H3, H4.
  intros H. injection H as <-.
  destruct (arc_inv_fresh c k v I H1 H2 H3 H4) as (I' & Hs & _).
  split; [exact I'|exact Hs].
Qed.

Lemma arc_inv_exec c (o : op V) c' :
  arc_inv c -> arc_exec c o = Some c' ->
  arc_inv c' /\ ARCCache.size c' = ARCCache.size c.
Proof.
  intros I. destruct o; simpl; try (intros H; injection H as <-).
  - split; [now apply arc_inv_Get|].
    unfold ARCCache.Get.
    destruct (LRU.Peek _ k) as [? []];
      [|destruct (LRU.Get _ k) as [? [? []]]]; reflexivity.
  - now apply arc_inv_Put.
  - auto.
  - split; [now apply arc_inv_Remove|].
    unfold ARCCache.Remove.
    repeat (destruct (LRU.RemoveB _ k) as [? []]; try reflexivity).
  - split; [now apply arc_inv_Purge|reflexivity].
  - auto.
  - auto.
Qed.

Lemma arc_inv_run (ops : list (op V)) : forall c c',
  arc_inv c -> arc_run c ops = Some c' ->
  arc_inv c' /\ ARCCache.size c' = ARCCache.size c.
Proof.
  induction ops as [|o ops IH]; intros c c' I; simpl.
  - intros H. injection H as <-. auto.
  - destruct (arc_exec c o) as [c1|] eqn:E; [|discriminate].
    destruct (arc_inv_exec _ _ _ I E) as [I1 Hs1]. intros H.
    destruct (IH _ _ I1 H) as [I' Hs']. split; [assumption|congruence].
Qed.

(** On every run from [NewARC] the adaptation parameter stays within
    [0 <= p <= size], and each of the four lists within its capacity. *)
Corollary arc_p_bounds (size : Z) c0 (ops : list (op V)) c :
  ARCCache.NewARC V size = Ok c0 ->
  arc_run c0 ops = Some c ->
  0 <= ARCCache.p c <= size
  /\ LRU.Len (ARCCache.t1 c) <= size
  /\ LRU.Len (ARCCache.t2 c) <= size.
Proof.
  intros Hnew Hrun.
  destruct (NewARC_inv _ _ Hnew) as (I0 & Hs0 & _).
  destruct (arc_inv_run _ _ _ I0 Hrun) as [I Hs].
  pose proof (arc_p _ I). pose proof (lru_len _ (arc_t1 _ I)).
  pose proof (lru_len _ (arc_t2 _ I)).
  rewrite (arc_t1_cap _ I) in *. rewrite (arc_t2_cap _ I) in *. lia.
Qed.

End ARCRuns.

(** * Main results *)

(** C1.  The bound [len(T1) + len(T2) <= size] fails.  With capacity 1,
    after [Put(1)], [Put(2)], [Put(1)] the third call is a [B1] hit that
    raises [p] to 1; [replace] then turns to the empty [T2] and evicts
    nothing, and the insert into [T2] leaves one key in [T1] and one in
    [T2]: the cache holds 2 entries.  (The bound [0 <= p <= size] does
    hold on every run, see [arc_p_bounds].) *)
Theorem arc_capacity_exceeded (V : Type) (v1 v2 v3 : any V) :
  exists c0 c : ARCCache.t V,
    ARCCache.NewARC V 1 = Ok c0
    /\ arc_run c0 [OpPut 1%N v1; OpPut 2%N v2; OpPut 1%N v3] = Some c
    /\ ARCCache.size c = 1
    /\ keys (ARCCache.t1 c) = [2%N]
    /\ keys (ARCCache.t2 c) = [1%N]
    /\ ARCCache.Len c = 2
    /\ ~ (ARCCache.Len c <= ARCCache.size c).
Proof.
  exists (ARCCache.mk 1 0 (LRU.mk 1 []) (LRU.mk 1 []) (LRU.mk 1 [])
            (LRU.mk 1 [])).
  exists (ARCCache.mk 1 1 (LRU.mk 1 [mkItem 2%N v2]) (LRU.mk 1 [])
            (LRU.mk 1 [mkItem 1%N v3]) (LRU.mk 1 [])).
  split; [reflexivity|]. split; [vm_compute; reflexivity|].
  do 4 (split; [reflexivity|]).
  vm_compute. intros H. now apply H.
Qed.

(** C8.  With capacity 1, [Put(1)], [Put(2)], [Put(1)], [Remove(1)] leads
    to a cache with [T1 = [2]], [T2] empty and [len(T1) = p = 1].  A [Put]
    of the unseen key 3 finds the cache full and calls [replace(false)],
    which changes nothing; the insert into the full [T1] then drops key 2,
    which is afterwards in none of [T1], [T2], [B1], [B2]. *)
Theorem arc_silent_discard (V : Type) (v1 v2 v3 v4 : any V) :
  exists c0 c c' : ARCCache.t V,
    ARCCache.NewARC V 1 = Ok c0
    /\ arc_run c0 [OpPut 1%N v1; OpPut 2%N v2; OpPut 1%N v3; OpRemove 1%N]
       = Some c
    /\ keys (ARCCache.t1 c) = [2%N]
    /\ keys (ARCCache.t2 c) = []
    /\ LRU.Len (ARCCache.t1 c) = ARCCache.p c
    /\ LRU.Contains (ARCCache.t1 c) 3%N = false
    /\ LRU.Contains (ARCCache.t2 c) 3%N = false
    /\ LRU.Contains (ARCCache.b1 c) 3%N = false
    /\ LRU.Contains (ARCCache.b2 c) 3%N = false
    /\ (LRU.Len (ARCCache.t1 c) + LRU.Len (ARCCache.t2 c)
          >=? ARCCache.size c) = true
    /\ ARCCache.makeRoom c false = ARCCache.replace c false
    /\ ARCCache.replace c false = c
    /\ ARCCache.Put c 3%N v4 = Some c'
    /\ keys (ARCCache.t1 c') = [3%N]
    /\ LRU.Contains (ARCCache.t1 c') 2%N = false
    /\ LRU.Contains (ARCCache.t2 c') 2%N = false
    /\ LRU.Contains (ARCCache.b1 c') 2%N = false
    /\ LRU.Contains (ARCCache.b2 c') 2%N = false.
Proof.
  exists (ARCCache.mk 1 0 (LRU.mk 1 []) (LRU.mk 1 []) (LRU.mk 1 [])
            (LRU.mk 1 [])).
  exists (ARCCache.mk 1 1 (LRU.mk 1 [mkItem 2%N v2]) (LRU.mk 1 [])
            (LRU.mk 1 []) (LRU.mk 1 [])).
  exists (ARCCache.mk 1 1 (LRU.mk 1 [mkItem 3%N v4]) (LRU.mk 1 [])
            (LRU.mk 1 []) (LRU.mk 1 [])).
  split; [reflexivity|].
  do 16 (split; [vm_compute; reflexivity|]).
  vm_compute; reflexivity.
Qed.

(** C10.  [Put] of ARC, the one operation with a division, is defined on
    every cache, for every key and value, and so is every run of
    operations: a key of [B1] makes [len(B1) >= 1], so the divisor of
    [len(B2)/len(B1)] is positive and the quotient, at least 1, is the
    adaptation step; symmetrically for [B2].  The operations of the LRU
    container and of the 2Q cache use no partial primitive. *)
Theorem arc_operations_total (V : Type) (c : ARCCache.t V) :
  (forall k v, exists c', ARCCache.Put c k v = Some c')
  /\ (forall ops, exists c', arc_run c ops = Some c')
  /\ (forall k, LRU.Contains (ARCCache.b1 c) k = true ->
        1 <= LRU.Len (ARCCache.b1 c)
        /\ exists delta, ARCCache.deltaB1 c = Some delta /\ 1 <= delta)
  /\ (forall k, LRU.Contains (ARCCache.b2 c) k = true ->
        1 <= LRU.Len (ARCCache.b2 c)
        /\ exists delta, ARCCache.deltaB2 c = Some delta /\ 1 <= delta).
Proof.
  split; [intros k v; apply arc_Put_defined|].
  split; [intros ops; apply arc_run_defined|].
  split; intros k H.
  - split; [now apply Len_pos_of_contains in H|].
    rewrite (deltaB1_defined _ _ H). eexists. split; [reflexivity|lia].
  - split; [now apply Len_pos_of_contains in H|].
    rewrite (deltaB2_defined _ _ H). eexists. split; [reflexivity|lia].
Qed.

Lemma arc_operations_total_witness :
  let c : ARCCache.t nat :=
    ARCCache.mk 2 1
      (LRU.mk 2 [mkItem 4%N (Some 40%nat)]) (LRU.mk 2 [mkItem 2%N None])
      (LRU.mk 2 [mkItem 3%N (Some 30%nat)]) (LRU.mk 2 [mkItem 1%N None]) in
  (exists c', ARCCache.Put c 2%N (Some 20%nat) = Some c')
  /\ (1 <= LRU.Len (ARCCache.b1 c)
      /\ exists delta, ARCCache.deltaB1 c = Some delta /\ 1 <= delta)
  /\ (1 <= LRU.Len (ARCCache.b2 c)
      /\ exists delta, ARCCache.deltaB2 c = Some delta /\ 1 <= delta).
Proof.
  intros c. destruct (arc_operations_total nat c) as (H0 & _ & H1 & H2).
  split; [apply H0|].
  split; [apply (H1 2%N); reflexivity|apply (H2 1%N); reflexivity].
Defined.

(** C6.  On a cache reached from [NewARC], a [Put] on a key of [B1] sets
    [p] to [min(size, p + delta)] with
    [delta = max(1, len(B2) / len(B1))], so [p] grows unless it is already
    [size]; a [Put] on a key of [B2] sets [p] to [max(0, p - delta)] with
    [delta = max(1, len(B1) / len(B2))], so [p] shrinks unless it is
    already 0. *)
Theorem arc_ghost_hit_tuning (V : Type) (size : Z) (c0 c : ARCCache.t V)
    (ops : list (op V)) :
  ARCCache.NewARC V size = Ok c0 ->
  arc_run c0 ops = Some c ->
  (forall k v, LRU.Contains (ARCCache.b1 c) k = true ->
     exists c',
       ARCCache.Put c k v = Some c'
       /\ ARCCache.p c'
          = Z.min size
              (ARCCache.p c
               + Z.max 1 (LRU.Len (ARCCache.b2 c) / LRU.Len (ARCCache.b1 c)))
       /\ ARCCache.p c <= ARCCache.p c' <= size
       /\ (ARCCache.p c < ARCCache.p c' \/ ARCCache.p c = size))
  /\ (forall k v, LRU.Contains (ARCCache.b2 c) k = true ->
        exists c',
          ARCCache.Put c k v = Some c'
          /\ ARCCache.p c'
             = Z.max 0
                 (ARCCache.p c
                  - Z.max 1 (LRU.Len (ARCCache.b1 c)
                             / LRU.Len (ARCCache.b2 c)))
          /\ 0 <= ARCCache.p c' <= ARCCache.p c
          /\ (ARCCache.p c' < ARCCache.p c \/ ARCCache.p c = 0)).
Proof.
  intros Hnew Hrun.
  destruct (NewARC_inv _ _ Hnew) as (I0 & Hs0 & Hpos).
  destruct (arc_inv_run _ _ _ I0 Hrun) as [I Hs].
  pose proof (arc_p _ I) as Hp. rewrite Hs, Hs0 in Hp.
  split; intros k v Hk.
  - destruct (arc_Put_B1_spec c k v I Hk) as (c' & E & _ & _ & Hp').
    rewrite Hs, Hs0 in Hp'. exists c'. split; [exact E|].
    split; [exact Hp'|]. lia.
  - destruct (arc_Put_B2_spec c k v I Hk) as (c' & E & _ & _ & Hp').
    exists c'. split; [exact E|]. split; [exact Hp'|]. lia.
Qed.

Lemma arc_ghost_hit_tuning_witness :
  let c0 : ARCCache.t nat :=
    ARCCache.mk 2 0 (LRU.mk 2 []) (LRU.mk 2 []) (LRU.mk 2 []) (LRU.mk 2 []) in
  let c : ARCCache.t nat :=
    ARCCache.mk 2 1
      (LRU.mk 2 [mkItem 4%N (Some 40%nat)]) (LRU.mk 2 [mkItem 2%N None])
      (LRU.mk 2 [mkItem 3%N (Some 30%nat)]) (LRU.mk 2 [mkItem 1%N None]) in
  (exists c', ARCCache.Put c 2%N (Some 20%nat) = Some c'
              /\ ARCCache.p c' = 2)
  /\ (exists c', ARCCache.Put c 1%N (Some 10%nat) = Some c'
                 /\ ARCCache.p c' = 0).
Proof.
  intros c0 c.
  destruct (arc_ghost_hit_tuning nat 2 c0 c
              [OpPut 1%N (Some 10%nat); OpPut 2%N (Some 20%nat);
               OpPut 3%N (Some 30%nat); OpPut 1%N (Some 11%nat);
               OpGet 3%N; OpPut 4%N (Some 40%nat)]
              eq_refl eq_refl) as [H1 H2].
  split.
  - destruct (H1 2%N (Some 20%nat) eq_refl) as (c' & E & Hp & _).
    exists c'. split; [exact E|exact Hp].
  - destruct (H2 1%N (Some 10%nat) eq_refl) as (c' & E & Hp & _).
    exists c'. split; [exact E|exact Hp].
Defined.

(** The ratio check admits a ghost ratio of [0.0], yet with it no size
    can be constructed: the ghost capacity is never positive. *)
Lemma newTowQueueParams_zero_ghost_ratio (V : Type) (size : Z)
    (recentRatio : Float64.float64) :
  is_ok (TwoQueueCache.newTowQueueParams V size recentRatio Float64.zero)
  = false.
Proof.
  unfold TwoQueueCache.newTowQueueParams.
  destruct (size <=? 0); [reflexivity|].
  destruct (_ || _); [reflexivity|].
  change (Float64.ltb Float64.zero Float64.zero
          || Float64.ltb Float64.one Float64.zero) with false.
  cbv iota zeta. unfold LRU.NewLRU.
  destruct (size <=? 0); [reflexivity|].
  replace (Float64.to_int (Float64.mul (Float64.of_int size) Float64.zero)
             <=? 0) with true; [reflexivity|].
  symmetry. apply Z.leb_le.
  destruct (Float64.of_int size) as [s|s| |s m e]; cbn;
    unfold Float64.MinInt64; lia.
Qed.

Lemma NewLRU_ok_iff (V : Type) (size : Z) :
  is_ok (LRU.NewLRU V size) = true <-> 0 < size.
Proof.
  unfold LRU.NewLRU. destruct (Z.leb_spec size 0); simpl; split;
    (lia || congruence || auto).
Qed.

Lemma NewARC_ok_iff (V : Type) (size : Z) :
  is_ok (ARCCache.NewARC V size) = true <-> 0 < size.
Proof.
  unfold ARCCache.NewARC, LRU.NewLRU.
  destruct (Z.leb_spec size 0); simpl; split;
    (lia || congruence || auto).
Qed.

(** The 2Q constructor succeeds exactly when it passes its three checks
    and the ghost capacity it computes is positive. *)
Lemma newTowQueueParams_ok_iff (V : Type) (size : Z)
    (recentRatio ghostRatio : Float64.float64) :
  is_ok (TwoQueueCache.newTowQueueParams V size recentRatio ghostRatio)
  = true
  <-> 0 < size
      /\ (Float64.ltb recentRatio Float64.zero
          || Float64.ltb Float64.one recentRatio) = false
      /\ (Float64.ltb ghostRatio Float64.zero
          || Float64.ltb Float64.one ghostRatio) = false
      /\ 0 < Float64.to_int
               (Float64.mul (Float64.of_int size) ghostRatio).
Proof.
  unfold TwoQueueCache.newTowQueueParams, LRU.NewLRU.
  destruct (Z.leb_spec size 0) as [Hs|Hs].
  { simpl. split; [discriminate|lia]. }
  destruct (_ || _).
  { simpl. split; [discriminate|intuition discriminate]. }
  destruct (_ || _).
  { simpl. split; [discriminate|intuition discriminate]. }
  cbv zeta.
  destruct (Z.leb_spec
              (Float64.to_int
                 (Float64.mul (Float64.of_int size) ghostRatio)) 0);
    simpl; split; (discriminate || intuition lia).
Qed.

(** The sizes and ratios that the three constructors accept, for a size
    within [int]: the LRU container and the ARC cache are constructed
    exactly for the positive sizes; the 2Q cache is constructed exactly
    when the size is positive, neither ratio compares below 0.0 or above
    1.0, and the ghost capacity [int(size * ghostRatio)] is positive,
    which for the default ratios means exactly the sizes from 2 on. *)
Lemma constructors_succeed_iff (V : Type) (size : Z) :
  size <= Float64.MaxInt64 ->
  (is_ok (LRU.NewLRU V size) = true <-> 0 < size)
  /\ (is_ok (ARCCache.NewARC V size) = true <-> 0 < size)
  /\ (forall recentRatio ghostRatio,
        is_ok (TwoQueueCache.newTowQueueParams V size recentRatio ghostRatio)
        = true
        <-> 0 < size
            /\ (Float64.ltb recentRatio Float64.zero
                || Float64.ltb Float64.one recentRatio) = false
            /\ (Float64.ltb ghostRatio Float64.zero
                || Float64.ltb Float64.one ghostRatio) = false
            /\ 0 < Float64.to_int
                     (Float64.mul (Float64.of_int size) ghostRatio))
  /\ (is_ok (TwoQueueCache.NewTwoQueueCache V size) = true <-> 2 <= size).
Proof.
  intros Hmax.
  split; [apply NewLRU_ok_iff|]. split; [apply NewARC_ok_iff|].
  split; [intros r g; apply newTowQueueParams_ok_iff|].
  unfold TwoQueueCache.NewTwoQueueCache.
  rewrite newTowQueueParams_ok_iff. split.
  - intros (Hpos & _ & _ & Hev).
    destruct (Z.eq_dec size 1) as [->|Hne]; [|lia].
    vm_compute in Hev. discriminate.
  - intros Hge.
    pose proof (default_evictSize_pos size (conj Hge Hmax)) as Hev.
    split; [lia|]. split; [reflexivity|]. split; [reflexivity|].
    unfold TwoQueueCache.defaultGhostRatio. lia.
Qed.

(** C3.  The 2Q constructor refuses arguments that pass every check it
    makes.  The size 1 is positive and the default ratios 0.25 and 0.50
    pass the range checks; the LRU container and the ARC cache of size 1
    are built, but [NewTwoQueueCache(1)] fails, with the error of a
    non-positive size: the ghost capacity [int(float64(1) * 0.50)] is 0
    and [NewLRU(0)] is refused.  A ghost ratio of 0.0 passes the range
    check as well, and with it every size is refused, size 4 with the
    same error.  In the other direction a NaN ratio, which is not in
    [[0.0, 1.0]], passes both comparisons: with a NaN recent ratio the
    cache of size 4 is built. *)
Theorem twoq_construction_refuses_valid_arguments (V : Type) :
  is_ok (LRU.NewLRU V 1) = true
  /\ is_ok (ARCCache.NewARC V 1) = true
  /\ (Float64.ltb TwoQueueCache.defaultRecentRatio Float64.zero
      || Float64.ltb Float64.one TwoQueueCache.defaultRecentRatio) = false
  /\ (Float64.ltb TwoQueueCache.defaultGhostRatio Float64.zero
      || Float64.ltb Float64.one TwoQueueCache.defaultGhostRatio) = false
  /\ Float64.to_int
       (Float64.mul (Float64.of_int 1) TwoQueueCache.defaultGhostRatio) = 0
  /\ TwoQueueCache.NewTwoQueueCache V 1 = Err ErrPositiveSize
  /\ (Float64.ltb Float64.zero Float64.zero
      || Float64.ltb Float64.one Float64.zero) = false
  /\ (forall size recentRatio,
        is_ok (TwoQueueCache.newTowQueueParams V size recentRatio
                 Float64.zero) = false)
  /\ TwoQueueCache.newTowQueueParams V 4 TwoQueueCache.defaultRecentRatio
       Float64.zero = Err ErrPositiveSize
  /\ (Float64.ltb S754_nan Float64.zero
      || Float64.ltb Float64.one S754_nan) = false
  /\ is_ok (TwoQueueCache.newTowQueueParams V 4 S754_nan
              TwoQueueCache.defaultGhostRatio) = true.
Proof.
  split; [reflexivity|]. split; [reflexivity|]. split; [reflexivity|].
  split; [reflexivity|]. split; [reflexivity|]. split; [reflexivity|].
  split; [reflexivity|].
  split; [intros size r; apply newTowQueueParams_zero_ghost_ratio|].
  split; [reflexivity|]. split; reflexivity.
Qed.

(** C2, as stated, fails.  On the 2Q cache of size 4 ([recentSize] 1)
    with [recent = [4]] and [frequent = [3; 2; 1]], which is at the
    boundary, [ensureSpace(true)] keeps key 4 in [recent] and records no
    ghost, while [ensureSpace(false)] moves key 4 from [recent] to
    [evict] and leaves [frequent] alone. *)
Lemma ensureSpace_boundary_counterexample :
  exists c0 : TwoQueueCache.t nat,
    TwoQueueCache.NewTwoQueueCache nat 4 = Ok c0
    /\ let c :=
         twoq_run c0
           [OpPut 1%N (Some 10%nat); OpGet 1%N;
            OpPut 2%N (Some 20%nat); OpGet 2%N;
            OpPut 3%N (Some 30%nat); OpGet 3%N;
            OpPut 4%N (Some 40%nat)] in
       keys (TwoQueueCache.recent c) = [4%N]
       /\ keys (TwoQueueCache.frequent c) = [3%N; 2%N; 1%N]
       /\ LRU.Len (TwoQueueCache.recent c) = TwoQueueCache.recentSize c
       /\ TwoQueueCache.size c
          <= LRU.Len (TwoQueueCache.recent c)
             + LRU.Len (TwoQueueCache.frequent c)
       /\ ~ (TwoQueueCache.recent (TwoQueueCache.ensureSpace c true)
             = LRU.removeOldest (TwoQueueCache.recent c)
             /\ In 4%N (keys (TwoQueueCache.evict
                                (TwoQueueCache.ensureSpace c true))))
       /\ ~ (TwoQueueCache.recent (TwoQueueCache.ensureSpace c false)
             = TwoQueueCache.recent c
             /\ TwoQueueCache.frequent (TwoQueueCache.ensureSpace c false)
                = LRU.removeOldest (TwoQueueCache.frequent c)).
Proof.
  eexists. split; [reflexivity|]. cbv zeta.
  split; [reflexivity|]. split; [reflexivity|]. split; [reflexivity|].
  split; [vm_compute; discriminate|].
  split; intros [H _]; vm_compute in H; discriminate.
Qed.

(** C2, amended.  At the boundary [len(recent) = recentSize], with the
    cache full and [recent] non-empty, [ensureSpace(false)] (a brand-new
    key) removes the oldest entry of [recent] and records its key in
    [evict] with a nil value, leaving [frequent] alone;
    [ensureSpace(true)] (a ghost hit) leaves [recent] and [evict] alone
    and removes the oldest entry of [frequent]. *)
Theorem ensureSpace_boundary (V : Type) (c : TwoQueueCache.t V) :
  0 < LRU.Len (TwoQueueCache.recent c) ->
  LRU.Len (TwoQueueCache.recent c) = TwoQueueCache.recentSize c ->
  TwoQueueCache.size c
    <= LRU.Len (TwoQueueCache.recent c)
       + LRU.Len (TwoQueueCache.frequent c) ->
  (exists oldest,
     LRU.Back (LRU.evictList (TwoQueueCache.recent c)) = Some oldest
     /\ TwoQueueCache.ensureSpace c false
        = TwoQueueCache.mk (TwoQueueCache.size c) (TwoQueueCache.recentSize c)
            (LRU.mk (LRU.size (TwoQueueCache.recent c))
               (removelast (LRU.evictList (TwoQueueCache.recent c))))
            (TwoQueueCache.frequent c)
            (LRU.Put (TwoQueueCache.evict c) (Key oldest) None))
  /\ TwoQueueCache.ensureSpace c true
     = TwoQueueCache.mk (TwoQueueCache.size c) (TwoQueueCache.recentSize c)
         (TwoQueueCache.recent c)
         (LRU.removeOldest (TwoQueueCache.frequent c))
         (TwoQueueCache.evict c).
Proof.
  intros Hne Hb Hfull. unfold TwoQueueCache.ensureSpace.
  destruct (Z.ltb_spec (LRU.Len (TwoQueueCache.recent c)
                        + LRU.Len (TwoQueueCache.frequent c))
              (TwoQueueCache.size c)); [lia|].
  rewrite <- Hb, Z.eqb_refl.
  replace (LRU.Len (TwoQueueCache.recent c) >? 0) with true
    by (symmetry; rewrite Z.gtb_ltb; now apply Z.ltb_lt).
  replace (LRU.Len (TwoQueueCache.recent c)
             >? LRU.Len (TwoQueueCache.recent c)) with false
    by (symmetry; rewrite Z.gtb_ltb; apply Z.ltb_irrefl).
  simpl. split; [|now rewrite Hb].
  unfold LRU.getAndRemoveOldest.
  destruct (LRU.Back (LRU.evictList (TwoQueueCache.recent c)))
    as [e|] eqn:E.
  - exists e. split; [reflexivity|]. now rewrite Hb.
  - apply Back_None in E. unfold LRU.Len in Hne. rewrite E in Hne.
    simpl in Hne. lia.
Qed.

Lemma ensureSpace_boundary_witness :
  let c : TwoQueueCache.t nat :=
    TwoQueueCache.mk 4 1
      (LRU.mk 4 [mkItem 4%N (Some 40%nat)])
      (LRU.mk 4 [mkItem 3%N (Some 30%nat); mkItem 2%N (Some 20%nat);
                 mkItem 1%N (Some 10%nat)])
      (LRU.mk 2 []) in
  keys (TwoQueueCache.evict (TwoQueueCache.ensureSpace c false)) = [4%N]
  /\ keys (TwoQueueCache.recent (TwoQueueCache.ensureSpace c false)) = []
  /\ keys (TwoQueueCache.recent (TwoQueueCache.ensureSpace c true)) = [4%N]
  /\ keys (TwoQueueCache.frequent (TwoQueueCache.ensureSpace c true))
     = [3%N; 2%N].
Proof.
  intros c.
  destruct (ensureSpace_boundary nat c) as [(e & He & Hf) Ht];
    [reflexivity|reflexivity|discriminate|].
  rewrite Hf, Ht. injection He as <-. repeat split.
Defined.

(** C5.  On a 2Q cache reached from [NewTwoQueueCache]: a key that
    [ensureSpace] takes out of [recent] is then held by [evict] with a nil
    value; and a [Put] on a key held by [evict] leaves it out of [evict],
    in [frequent] with the value written, and not in [recent]. *)
Theorem twoq_ghost_readmission (V : Type) (size : Z)
    (c0 : TwoQueueCache.t V) (ops : list (op V)) :
  TwoQueueCache.NewTwoQueueCache V size = Ok c0 ->
  let c := twoq_run c0 ops in
  (forall (recentEvict : bool) k,
     In k (keys (TwoQueueCache.recent c)) ->
     ~ In k (keys (TwoQueueCache.recent
                     (TwoQueueCache.ensureSpace c recentEvict))) ->
     LRU.Peek (TwoQueueCache.evict (TwoQueueCache.ensureSpace c recentEvict))
       k = (None, true))
  /\ (forall k v,
        LRU.contains (TwoQueueCache.evict c) k = true ->
        let c' := TwoQueueCache.Put c k v in
        LRU.contains (TwoQueueCache.evict c') k = false
        /\ LRU.Peek (TwoQueueCache.frequent c') k = (v, true)
        /\ LRU.contains (TwoQueueCache.recent c') k = false).
Proof.
  intros Hnew c.
  destruct (NewTwoQueueCache_inv _ _ Hnew) as (I0 & _ & _).
  pose proof (twoq_inv_run ops c0 I0) as I. fold c in I.
  split.
  - intros b k. now apply ensureSpace_ghost.
  - intros k v. now apply twoq_Put_ghost.
Qed.

Lemma twoq_ghost_readmission_witness :
  let c0 : TwoQueueCache.t nat :=
    TwoQueueCache.mk 4 1 (LRU.mk 4 []) (LRU.mk 4 []) (LRU.mk 2 []) in
  let c :=
    twoq_run c0
      [OpPut 1%N (Some 10%nat); OpPut 2%N (Some 20%nat);
       OpPut 3%N (Some 30%nat); OpPut 4%N (Some 40%nat);
       OpPut 5%N (Some 50%nat)] in
  keys (TwoQueueCache.evict c) = [1%N]
  /\ LRU.Peek (TwoQueueCache.evict (TwoQueueCache.ensureSpace c true)) 2%N
     = (None, true)
  /\ (let c' := TwoQueueCache.Put c 1%N (Some 11%nat) in
      LRU.contains (TwoQueueCache.evict c') 1%N = false
      /\ LRU.Peek (TwoQueueCache.frequent c') 1%N = (Some 11%nat, true)
      /\ LRU.contains (TwoQueueCache.recent c') 1%N = false).
Proof.
  intros c0 c.
  destruct (twoq_ghost_readmission nat 4 c0
              [OpPut 1%N (Some 10%nat); OpPut 2%N (Some 20%nat);
               OpPut 3%N (Some 30%nat); OpPut 4%N (Some 40%nat);
               OpPut 5%N (Some 50%nat)] eq_refl) as [H1 H2].
  split; [reflexivity|]. split.
  - apply (H1 true 2%N); vm_compute; intuition discriminate.
  - apply (H2 1%N (Some 11%nat)). reflexivity.
Defined.

(** C9.  On a 2Q cache reached from [NewTwoQueueCache], [Get] keeps
    [Len()], the set of cached keys and [evict].  A hit in [frequent]
    only reorders [frequent]; a hit in [recent] finds [frequent] below its
    capacity, unlinks the key from [recent] and puts it at the front of
    [frequent], whose other entries all stay; a miss changes nothing. *)
Theorem twoq_Get_preserves (V : Type) (size : Z)
    (c0 : TwoQueueCache.t V) (ops : list (op V)) (k : key) :
  TwoQueueCache.NewTwoQueueCache V size = Ok c0 ->
  let c := twoq_run c0 ops in
  let c' := fst (TwoQueueCache.Get c k) in
  TwoQueueCache.Len c' = TwoQueueCache.Len c
  /\ TwoQueueCache.Len c <= TwoQueueCache.size c
  /\ TwoQueueCache.evict c' = TwoQueueCache.evict c
  /\ (forall k', In k' (map Key (TwoQueueCache.Items c'))
                 <-> In k' (map Key (TwoQueueCache.Items c)))
  /\ if LRU.contains (TwoQueueCache.frequent c) k then
       TwoQueueCache.recent c' = TwoQueueCache.recent c
       /\ TwoQueueCache.frequent c'
          = fst (LRU.Get (TwoQueueCache.frequent c) k)
     else if LRU.contains (TwoQueueCache.recent c) k then
       LRU.Len (TwoQueueCache.frequent c)
         < LRU.size (TwoQueueCache.frequent c)
       /\ TwoQueueCache.recent c' = LRU.Remove (TwoQueueCache.recent c) k
       /\ LRU.evictList (TwoQueueCache.frequent c')
          = mkItem k (fst (LRU.Peek (TwoQueueCache.recent c) k))
              :: LRU.evictList (TwoQueueCache.frequent c)
     else c' = c.
Proof.
  intros Hnew c c'.
  destruct (NewTwoQueueCache_inv _ _ Hnew) as (I0 & _ & _).
  pose proof (twoq_inv_run ops c0 I0) as I. fold c in I.
  destruct (twoq_Get_frame c k I) as (HL & HE & HK & H1 & H2 & H3).
  fold c' in HL, HE, HK, H1, H2, H3.
  split; [exact HL|]. split; [apply (tq_len _ I)|].
  split; [exact HE|]. split; [exact HK|].
  destruct (LRU.contains (TwoQueueCache.frequent c) k); [auto|].
  destruct (LRU.contains (TwoQueueCache.recent c) k); auto.
Qed.

Lemma twoq_Get_preserves_witness :
  let c0 : TwoQueueCache.t nat :=
    TwoQueueCache.mk 4 1 (LRU.mk 4 []) (LRU.mk 4 []) (LRU.mk 2 []) in
  let c :=
    twoq_run c0
      [OpPut 1%N (Some 10%nat); OpPut 2%N (Some 20%nat); OpGet 1%N;
       OpPut 3%N (Some 30%nat); OpPut 4%N (Some 40%nat)] in
  let c' := fst (TwoQueueCache.Get c 2%N) in
  TwoQueueCache.Len c' = 4
  /\ keys (TwoQueueCache.recent c') = [4%N; 3%N]
  /\ keys (TwoQueueCache.frequent c') = [2%N; 1%N].
Proof.
  intros c0 c c'.
  destruct (twoq_Get_preserves nat 4 c0
              [OpPut 1%N (Some 10%nat); OpPut 2%N (Some 20%nat); OpGet 1%N;
               OpPut 3%N (Some 30%nat); OpPut 4%N (Some 40%nat)] 2%N eq_refl)
    as (HL & _ & _ & _ & Hcase).
  split; [exact HL|]. repeat split.
Defined.

(** * Further properties of the three policies *)

(** ** Lookups in the recency list *)

Section ItemsFacts.

Context {V : Type}.

Implicit Types (l : list (Item V)) (k : key) (e : Item V).

Lemma items_unlink_other l k k' :
  k' <> k -> LRU.items (LRU.unlink l k) k' = LRU.items l k'.
Proof.
  intros Hne. induction l as [|a l IH]; simpl; [reflexivity|].
  destruct (N.eqb_spec (Key a) k) as [Hk|Hk]; simpl.
  - destruct (N.eqb_spec (Key a) k'); [congruence|reflexivity].
  - now rewrite IH.
Qed.

Lemma items_app l l' k :
  LRU.items (l ++ l') k
  = match LRU.items l k with
    | Some e => Some e
    | None => LRU.items l' k
    end.
Proof.
  induction l as [|a l IH]; simpl; [reflexivity|].
  destruct (N.eqb (Key a) k); [reflexivity|assumption].
Qed.

Lemma items_removelast_other l e k :
  LRU.Back l = Some e -> k <> Key e ->
  LRU.items (removelast l) k = LRU.items l k.
Proof.
  intros E Hne. rewrite (Back_Some _ _ E) at 2. rewrite items_app.
  destruct (LRU.items (removelast l) k); [reflexivity|].
  simpl. destruct (N.eqb_spec (Key e) k); [congruence|reflexivity].
Qed.

Lemma items_removelast_back l e :
  LRU.Back l = Some e -> NoDup (map Key l) ->
  LRU.items (removelast l) (Key e) = None.
Proof. intros E Hd. apply items_None. now apply Back_gone. Qed.

Lemma items_Back l e :
  LRU.Back l = Some e -> NoDup (map Key l) ->
  LRU.items l (Key e) = Some e.
Proof.
  intros E Hd. rewrite (Back_Some _ _ E) at 1. rewrite items_app.
  rewrite (items_removelast_back _ _ E Hd). simpl.
  now rewrite N.eqb_refl.
Qed.

(** Under unique keys every listed entry is the one its key is indexed
    to. *)
Lemma items_unique l e :
  NoDup (map Key l) -> In e l -> LRU.items l (Key e) = Some e.
Proof.
  induction l as [|a l IH]; simpl; [tauto|].
  intros Hd. inversion Hd as [|? ? Hn Hd']; subst.
  intros [->|Hin]; [now rewrite N.eqb_refl|].
  destruct (N.eqb_spec (Key a) (Key e)) as [Hk|Hk]; [|auto].
  exfalso. apply Hn. rewrite Hk. now apply in_map.
Qed.

End ItemsFacts.

Section LRUBehaviour.

Context {V : Type}.

Implicit Types (c : LRU.t V) (k : key) (v : any V).

Lemma NewLRU_inv (size : Z) c0 :
  LRU.NewLRU V size = Ok c0 ->
  lru_inv c0 /\ c0 = LRU.mk size [] /\ 0 < size.
Proof.
  unfold LRU.NewLRU. destruct (Z.leb_spec size 0) as [|Hpos];
    [discriminate|].
  intros E. injection E as <-. auto using lru_inv_new.
Qed.

Lemma lru_inv_exec c (o : op V) : lru_inv c -> lru_inv (lru_exec c o).
Proof.
  destruct o; simpl;
    auto using lru_inv_Get, lru_inv_Put, lru_inv_Remove, lru_inv_Purge.
Qed.

Lemma lru_inv_run (ops : list (op V)) : forall c,
  lru_inv c -> lru_inv (lru_run c ops).
Proof.
  induction ops as [|o ops IH]; intros c I; simpl; [assumption|].
  apply IH. now apply lru_inv_exec.
Qed.

Lemma lru_reachable_inv (size : Z) c0 (ops : list (op V)) :
  LRU.NewLRU V size = Ok c0 ->
  lru_inv (lru_run c0 ops) /\ LRU.size (lru_run c0 ops) = size.
Proof.
  intros H. destruct (NewLRU_inv _ _ H) as (I & -> & Hpos).
  split; [now apply lru_inv_run|].
  destruct (lru_run_bounded ops (LRU.mk size [])) as [Hs _]; [|exact Hs].
  apply (lru_len _ I).
Qed.

(** The entry written by [Put] is at the front. *)
Lemma Put_front c k v :
  lru_inv c -> exists rest, LRU.evictList (LRU.Put c k v) = mkItem k v :: rest.
Proof.
  intros [Hp Hd Hl]. destruct (LRU.contains c k) eqn:Hc.
  - rewrite Put_present by assumption. eauto.
  - destruct (Z.lt_ge_cases (LRU.Len c) (LRU.size c)).
    + rewrite Put_absent_room by assumption. eauto.
    + rewrite Put_absent_full by assumption. unfold LRU.Len in *.
      destruct (LRU.evictList c) as [|a l]; [simpl in *; lia|].
      change (removelast (mkItem k v :: a :: l))
        with (mkItem k v :: removelast (a :: l)). eauto.
Qed.

Lemma Peek_Get c k : snd (LRU.Get c k) = LRU.Peek c k.
Proof. unfold LRU.Get, LRU.Peek. now destruct (LRU.items _ k). Qed.

Lemma Peek_after_Get c k k' :
  LRU.Peek (fst (LRU.Get c k)) k' = LRU.Peek c k'.
Proof.
  unfold LRU.Get, LRU.Peek.
  destruct (LRU.items (LRU.evictList c) k) as [e|] eqn:E; simpl;
    [|reflexivity].
  apply items_Some in E as E'. destruct E' as [He _].
  destruct (N.eqb_spec (Key e) k') as [Hk|Hk].
  - subst k'. rewrite He, E. reflexivity.
  - rewrite items_unlink_other by congruence. reflexivity.
Qed.

Lemma Peek_after_Remove c k k' :
  k' <> k -> LRU.Peek (LRU.Remove c k) k' = LRU.Peek c k'.
Proof.
  intros Hne. unfold LRU.Peek. rewrite Remove_list.
  now rewrite items_unlink_other.
Qed.

Lemma Peek_absent c k :
  LRU.contains c k = false -> LRU.Peek c k = (None, false).
Proof. unfold LRU.contains, LRU.Peek. now destruct (LRU.items _ k). Qed.

Lemma Peek_Put_same c k v :
  lru_inv c -> LRU.Peek (LRU.Put c k v) k = (v, true).
Proof. intros I. unfold LRU.Peek. now rewrite Put_items. Qed.

Lemma Peek_Put_other_present c k v k' :
  k' <> k -> LRU.contains c k = true ->
  LRU.Peek (LRU.Put c k v) k' = LRU.Peek c k'.
Proof.
  intros Hne Hc. unfold LRU.Peek. rewrite Put_present by assumption.
  simpl. destruct (N.eqb_spec k k'); [congruence|].
  now rewrite items_unlink_other.
Qed.

Lemma Peek_Put_other_room c k v k' :
  k' <> k -> LRU.contains c k = false -> LRU.Len c < LRU.size c ->
  LRU.Peek (LRU.Put c k v) k' = LRU.Peek c k'.
Proof.
  intros Hne Hc Hl. unfold LRU.Peek. rewrite Put_absent_room by assumption.
  simpl. destruct (N.eqb_spec k k'); [congruence|reflexivity].
Qed.

End LRUBehaviour.

(** ** The LRU container as a map *)

(** X1.  On a container reached from [NewLRU], a [Put] is seen by the next
    lookup: [Peek] and [Get] both report the value just written, and the
    entry is the first of [Items]. *)
Theorem lru_put_then_lookup (V : Type) (size : Z) (c0 : LRU.t V)
    (ops : list (op V)) (k : key) (v : any V) :
  LRU.NewLRU V size = Ok c0 ->
  let c := LRU.Put (lru_run c0 ops) k v in
  LRU.Peek c k = (v, true)
  /\ snd (LRU.Get c k) = (v, true)
  /\ exists rest, LRU.Items c = mkItem k v :: rest.
Proof.
  intros Hnew c. destruct (lru_reachable_inv size c0 ops Hnew) as [I _].
  split; [now apply Peek_Put_same|].
  split; [rewrite Peek_Get; now apply Peek_Put_same|].
  now apply Put_front.
Qed.

Lemma lru_put_then_lookup_witness :
  let c := LRU.Put (lru_run (LRU.mk 2 [])
                      [OpPut 1%N (Some 10%nat); OpPut 2%N (Some 20%nat)])
             3%N (Some 30%nat) in
  LRU.Peek c 3%N = (Some 30%nat, true)
  /\ snd (LRU.Get c 3%N) = (Some 30%nat, true)
  /\ exists rest, LRU.Items c = mkItem 3%N (Some 30%nat) :: rest.
Proof.
  apply (lru_put_then_lookup nat 2 (LRU.mk 2 [])
           [OpPut 1%N (Some 10%nat); OpPut 2%N (Some 20%nat)]).
  reflexivity.
Defined.

(** X2.  On a container reached from [NewLRU], a [Put] of [k] leaves the
    lookup of every other key as it was when [k] is already held or the
    container has room; otherwise exactly the entry at the back stops
    being found, and every key other than it is found as before. *)
Theorem lru_put_keeps_other_keys (V : Type) (size : Z) (c0 : LRU.t V)
    (ops : list (op V)) (k k' : key) (v : any V) :
  LRU.NewLRU V size = Ok c0 ->
  k' <> k ->
  let c := lru_run c0 ops in
  if LRU.contains c k || (LRU.Len c <? size) then
    LRU.Peek (LRU.Put c k v) k' = LRU.Peek c k'
  else
    exists oldest,
      LRU.Back (LRU.evictList c) = Some oldest
      /\ LRU.Peek c (Key oldest) = (Value oldest, true)
      /\ LRU.Peek (LRU.Put c k v) (Key oldest) = (None, false)
      /\ (k' <> Key oldest ->
          LRU.Peek (LRU.Put c k v) k' = LRU.Peek c k').
Proof.
  intros Hnew Hne c.
  destruct (lru_reachable_inv size c0 ops Hnew) as [I Hs]. fold c in I, Hs.
  destruct (LRU.contains c k) eqn:Hc; simpl.
  { now apply Peek_Put_other_present. }
  destruct (Z.ltb_spec (LRU.Len c) size) as [Hl|Hl].
  { apply Peek_Put_other_room; (assumption || lia). }
  pose proof (lru_cap_pos _ I) as Hp. pose proof (lru_nodup _ I) as Hd.
  unfold keys in Hd.
  destruct (LRU.Back (LRU.evictList c)) as [e|] eqn:E.
  2:{ apply Back_None in E. unfold LRU.Len in Hl. rewrite E in Hl.
      simpl in Hl. lia. }
  assert (Hke : Key e <> k).
  { intros <-. apply contains_false in Hc. apply Hc.
    unfold keys. now apply Back_In. }
  assert (Hlist : LRU.evictList (LRU.Put c k v)
                  = mkItem k v :: removelast (LRU.evictList c)).
  { rewrite Put_absent_full by (assumption || lia).
    destruct (LRU.evictList c); [discriminate|reflexivity]. }
  exists e. split; [reflexivity|]. unfold LRU.Peek. rewrite Hlist. simpl.
  rewrite (items_Back _ _ E Hd).
  destruct (N.eqb_spec k (Key e)); [congruence|].
  rewrite (items_removelast_back _ _ E Hd).
  split; [reflexivity|]. split; [reflexivity|].
  intros Hk'. destruct (N.eqb_spec k k'); [congruence|].
  now rewrite (items_removelast_other _ _ _ E Hk').
Qed.

Lemma lru_put_keeps_other_keys_witness :
  let c := lru_run (LRU.mk 2 [])
             [OpPut 1%N (Some 10%nat); OpPut 2%N (Some 20%nat)] in
  exists oldest,
    LRU.Back (LRU.evictList c) = Some oldest
    /\ LRU.Peek c (Key oldest) = (Value oldest, true)
    /\ LRU.Peek (LRU.Put c 3%N (Some 30%nat)) (Key oldest) = (None, false)
    /\ (2%N <> Key oldest ->
        LRU.Peek (LRU.Put c 3%N (Some 30%nat)) 2%N = LRU.Peek c 2%N).
Proof.
  assert (Hne : 2%N <> 3%N) by discriminate.
  exact (lru_put_keeps_other_keys nat 2 (LRU.mk 2 [])
           [OpPut 1%N (Some 10%nat); OpPut 2%N (Some 20%nat)]
           3%N 2%N (Some 30%nat) eq_refl Hne).
Defined.

(** X3.  On a container reached from [NewLRU], [Remove] of [k] makes [k]
    not found, leaves every other lookup as it was, shortens the list by
    one exactly when [k] was held, and reports that; a second [Remove] of
    [k] reports nothing to remove and changes nothing. *)
Theorem lru_remove_behaviour (V : Type) (size : Z) (c0 : LRU.t V)
    (ops : list (op V)) (k : key) :
  LRU.NewLRU V size = Ok c0 ->
  let c := lru_run c0 ops in
  let c' := LRU.Remove c k in
  LRU.removeIfExist c k = (c', LRU.contains c k)
  /\ LRU.Peek c' k = (None, false)
  /\ (forall k', k' <> k -> LRU.Peek c' k' = LRU.Peek c k')
  /\ LRU.Len c' = LRU.Len c - (if LRU.contains c k then 1 else 0)
  /\ LRU.removeIfExist c' k = (c', false).
Proof.
  intros Hnew c c'.
  destruct (lru_reachable_inv size c0 ops Hnew) as [I _]. fold c in I.
  assert (Hgone : LRU.contains c' k = false).
  { apply contains_false, Remove_gone, (lru_nodup _ I). }
  split; [apply removeIfExist_spec|].
  split; [now apply Peek_absent|].
  split; [intros k' Hne; now apply Peek_after_Remove|].
  split.
  - unfold c'. destruct (LRU.contains c k) eqn:Hc.
    + now rewrite Remove_Len.
    + rewrite Remove_absent by assumption. lia.
  - rewrite removeIfExist_spec, Hgone. now rewrite Remove_absent.
Qed.

Lemma lru_remove_behaviour_witness :
  let c := lru_run (LRU.mk 2 [])
             [OpPut 1%N (Some 10%nat); OpPut 2%N (Some 20%nat)] in
  let c' := LRU.Remove c 1%N in
  LRU.removeIfExist c 1%N = (c', LRU.contains c 1%N)
  /\ LRU.Peek c' 1%N = (None, false)
  /\ (forall k', k' <> 1%N -> LRU.Peek c' k' = LRU.Peek c k')
  /\ LRU.Len c' = LRU.Len c - (if LRU.contains c 1%N then 1 else 0)
  /\ LRU.removeIfExist c' 1%N = (c', false).
Proof.
  apply (lru_remove_behaviour nat 2 (LRU.mk 2 [])
           [OpPut 1%N (Some 10%nat); OpPut 2%N (Some 20%nat)] 1%N).
  reflexivity.
Defined.

(** X4.  [Get] only reorders: on any container it returns what [Peek]
    returns, keeps the capacity and the length, and leaves the result of
    every later lookup as it was; on a hit the entry found becomes the
    first of [Items], on a miss the container is unchanged. *)
Theorem lru_get_only_reorders (V : Type) (c : LRU.t V) (k : key) :
  let c' := fst (LRU.Get c k) in
  snd (LRU.Get c k) = LRU.Peek c k
  /\ LRU.size c' = LRU.size c
  /\ LRU.Len c' = LRU.Len c
  /\ (forall k', LRU.Peek c' k' = LRU.Peek c k')
  /\ if LRU.contains c k then
       exists e rest,
         LRU.Items c' = e :: rest /\ Key e = k
         /\ LRU.Peek c k = (Value e, true)
     else c' = c.
Proof.
  intros c'. split; [apply Peek_Get|]. split; [apply Get_size|].
  split; [apply Get_Len|]. split; [intros k'; apply Peek_after_Get|].
  unfold c', LRU.contains, LRU.Get, LRU.Peek, LRU.Items.
  destruct (LRU.items (LRU.evictList c) k) as [e|] eqn:E; [|reflexivity].
  apply items_Some in E as [He _]. simpl. eauto.
Qed.

(** X6.  On a container reached from [NewLRU], [getAndRemoveOldest] and
    [removeOldest] leave an empty container unchanged, the former
    reporting [(0, nil, false)]; on a non-empty one both drop the entry at
    the back and nothing else, [getAndRemoveOldest] returning its key and
    its value, which is the value found under that key before and found
    no more afterwards. *)
Theorem lru_oldest_behaviour (V : Type) (size : Z) (c0 : LRU.t V)
    (ops : list (op V)) :
  LRU.NewLRU V size = Ok c0 ->
  let c := lru_run c0 ops in
  if LRU.Len c =? 0 then
    LRU.getAndRemoveOldest c = (c, (0%N, None, false))
    /\ LRU.removeOldest c = c
  else
    exists oldest rest,
      LRU.evictList c = rest ++ [oldest]
      /\ LRU.getAndRemoveOldest c
         = (LRU.mk (LRU.size c) rest, (Key oldest, Value oldest, true))
      /\ LRU.removeOldest c = LRU.mk (LRU.size c) rest
      /\ LRU.Peek c (Key oldest) = (Value oldest, true)
      /\ LRU.Peek (LRU.removeOldest c) (Key oldest) = (None, false)
      /\ forall k, k <> Key oldest ->
           LRU.Peek (LRU.removeOldest c) k = LRU.Peek c k.
Proof.
  intros Hnew c.
  destruct (lru_reachable_inv size c0 ops Hnew) as [I _]. fold c in I.
  pose proof (lru_nodup _ I) as Hd. unfold keys in Hd.
  unfold LRU.getAndRemoveOldest, LRU.removeOldest, LRU.Len, LRU.Peek.
  destruct (LRU.Back (LRU.evictList c)) as [e|] eqn:E.
  - pose proof (Back_length _ _ E) as Hlen.
    destruct (Z.eqb_spec (Z.of_nat (length (LRU.evictList c))) 0); [lia|].
    exists e, (removelast (LRU.evictList c)). simpl.
    split; [now apply Back_Some|]. split; [reflexivity|].
    split; [reflexivity|].
    rewrite (items_Back _ _ E Hd), (items_removelast_back _ _ E Hd).
    split; [reflexivity|]. split; [reflexivity|].
    intros k Hk. now rewrite (items_removelast_other _ _ _ E Hk).
  - apply Back_None in E. rewrite E. simpl. auto.
Qed.

Lemma lru_oldest_behaviour_witness :
  let c := lru_run (LRU.mk 2 [])
             [OpPut 1%N (Some 10%nat); OpPut 2%N (Some 20%nat)] in
  exists oldest rest,
    LRU.evictList c = rest ++ [oldest]
    /\ LRU.getAndRemoveOldest c
       = (LRU.mk (LRU.size c) rest, (Key oldest, Value oldest, true))
    /\ LRU.removeOldest c = LRU.mk (LRU.size c) rest
    /\ LRU.Peek c (Key oldest) = (Value oldest, true)
    /\ LRU.Peek (LRU.removeOldest c) (Key oldest) = (None, false)
    /\ forall k, k <> Key oldest ->
         LRU.Peek (LRU.removeOldest c) k = LRU.Peek c k.
Proof.
  exact (lru_oldest_behaviour nat 2 (LRU.mk 2 [])
           [OpPut 1%N (Some 10%nat); OpPut 2%N (Some 20%nat)] eq_refl).
Defined.

(** X7.  On a container reached from [NewLRU] the keys of [Items] are
    pairwise distinct, every entry of [Items] is the one [Peek] finds
    under its key, and [Peek] finds nothing under a key that is not in
    [Items]: the index and the list describe the same entries. *)
Theorem lru_index_consistent (V : Type) (size : Z) (c0 : LRU.t V)
    (ops : list (op V)) :
  LRU.NewLRU V size = Ok c0 ->
  let c := lru_run c0 ops in
  NoDup (map Key (LRU.Items c))
  /\ LRU.Len c = Z.of_nat (length (LRU.Items c))
  /\ (forall e, In e (LRU.Items c) -> LRU.Peek c (Key e) = (Value e, true))
  /\ (forall k, ~ In k (map Key (LRU.Items c)) ->
        LRU.Peek c k = (None, false) /\ LRU.contains c k = false).
Proof.
  intros Hnew c.
  destruct (lru_reachable_inv size c0 ops Hnew) as [I _]. fold c in I.
  pose proof (lru_nodup _ I) as Hd. unfold keys in Hd.
  split; [exact Hd|]. split; [reflexivity|]. split.
  - intros e He. unfold LRU.Peek. unfold LRU.Items in He.
    now rewrite (items_unique _ _ Hd He).
  - intros k Hk. assert (Hc : LRU.contains c k = false)
      by now apply contains_false.
    split; [now apply Peek_absent|assumption].
Qed.

Lemma lru_index_consistent_witness :
  let c := lru_run (LRU.mk 2 [])
             [OpPut 1%N (Some 10%nat); OpPut 2%N (Some 20%nat);
              OpGet 1%N; OpPut 3%N (Some 30%nat)] in
  NoDup (map Key (LRU.Items c))
  /\ LRU.Len c = Z.of_nat (length (LRU.Items c))
  /\ (forall e, In e (LRU.Items c) -> LRU.Peek c (Key e) = (Value e, true))
  /\ (forall k, ~ In k (map Key (LRU.Items c)) ->
        LRU.Peek c k = (None, false) /\ LRU.contains c k = false).
Proof.
  exact (lru_index_consistent nat 2 (LRU.mk 2 [])
           [OpPut 1%N (Some 10%nat); OpPut 2%N (Some 20%nat);
            OpGet 1%N; OpPut 3%N (Some 30%nat)] eq_refl).
Defined.

(** X5.  Writing pairwise distinct keys into a new container keeps the
    most recent ones: after [Put] of [k1 .. kn] in this order, [Items] is
    the last [size] of them, newest first, each with its value. *)
Theorem lru_keeps_most_recent (V : Type) (size : Z) (c0 : LRU.t V)
    (kvs : list (key * any V)) :
  LRU.NewLRU V size = Ok c0 ->
  NoDup (map fst kvs) ->
  LRU.Items (lru_run c0 (map (fun kv => OpPut (fst kv) (snd kv)) kvs))
  = firstn (Z.to_nat size)
      (rev (map (fun kv => mkItem (fst kv) (snd kv)) kvs)).
Proof.
  intros Hnew. destruct (NewLRU_inv _ _ Hnew) as (_ & -> & Hpos).
  unfold LRU.Items.
  induction kvs as [|[k v] kvs IH] using rev_ind; intros Hd.
  { simpl. now rewrite firstn_nil. }
  rewrite map_app in Hd. simpl in Hd.
  apply NoDup_remove in Hd as [Hd Hk]. rewrite app_nil_r in Hd, Hk.
  specialize (IH Hd).
  unfold lru_run in *. rewrite map_app, fold_left_app. simpl.
  set (c := fold_left lru_exec _ (LRU.mk size [])) in *.
  rewrite map_app, rev_app_distr. simpl.
  set (L := rev (map (fun kv => mkItem (fst kv) (snd kv)) kvs)) in *.
  assert (Hs : LRU.size c = size).
  { destruct (lru_run_bounded
                (map (fun kv => OpPut (fst kv) (snd kv)) kvs)
                (LRU.mk size [])) as [Hs _]; [|exact Hs].
    unfold LRU.Len. simpl. lia. }
  assert (Hc : LRU.contains c k = false).
  { apply contains_false. unfold keys. rewrite IH. intros Hin.
    apply Hk. apply in_map_iff in Hin as (e & <- & He).
    assert (He' : In e L).
    { rewrite <- (firstn_skipn (Z.to_nat size) L). apply in_or_app. auto. }
    unfold L in He'. apply in_rev in He'. rename He' into He1.
    clear He. rename He1 into He.
    apply in_map_iff in He as (kv & <- & Hkv). simpl.
    now apply in_map. }
  assert (Hn : (0 < Z.to_nat size)%nat) by lia.
  destruct (Nat.lt_ge_cases (length L) (Z.to_nat size)) as [Hlt|Hge].
  - rewrite firstn_all2 in IH by lia.
    rewrite Put_absent_room; [|assumption|].
    + rewrite IH. symmetry. apply firstn_all2. simpl. lia.
    + unfold LRU.Len. rewrite IH, Hs. lia.
  - rewrite Put_absent_full; [|assumption|].
    + rewrite IH. destruct (Z.to_nat size) as [|n] eqn:En; [lia|].
      rewrite firstn_cons.
      destruct (firstn (S n) L) as [|a l] eqn:Ef.
      { destruct L; [simpl in Hge; lia|discriminate]. }
      change (removelast (mkItem k v :: a :: l))
        with (mkItem k v :: removelast (a :: l)).
      rewrite <- Ef. now rewrite removelast_firstn by lia.
    + unfold LRU.Len. rewrite IH, Hs, length_firstn. lia.
Qed.

Lemma lru_keeps_most_recent_witness :
  LRU.Items (lru_run (LRU.mk 2 [])
               [OpPut 1%N (Some 10%nat); OpPut 2%N (Some 20%nat);
                OpPut 3%N (Some 30%nat)])
  = [mkItem 3%N (Some 30%nat); mkItem 2%N (Some 20%nat)].
Proof.
  assert (Hd : NoDup [1%N; 2%N; 3%N]).
  { repeat constructor; simpl; intuition discriminate. }
  exact (lru_keeps_most_recent nat 2 (LRU.mk 2 [])
           [(1%N, Some 10%nat); (2%N, Some 20%nat); (3%N, Some 30%nat)]
           eq_refl Hd).
Defined.

(** ** The Two-Queue cache as a map *)

Section TwoQBehaviourMore.

Context {V : Type}.

Implicit Types (c : TwoQueueCache.t V) (k : key) (v : any V).

Lemma ensureSpace_sizes c (b : bool) :
  TwoQueueCache.size (TwoQueueCache.ensureSpace c b) = TwoQueueCache.size c
  /\ TwoQueueCache.recentSize (TwoQueueCache.ensureSpace c b)
     = TwoQueueCache.recentSize c
  /\ LRU.size (TwoQueueCache.evict (TwoQueueCache.ensureSpace c b))
     = LRU.size (TwoQueueCache.evict c).
Proof.
  unfold TwoQueueCache.ensureSpace.
  destruct (_ <? _); [auto|]. destruct (_ && _); [|auto].
  destruct (LRU.getAndRemoveOldest _) as [r' [[k0 v0] ok]]. simpl.
  now rewrite Put_size.
Qed.

Lemma twoq_exec_sizes c (o : op V) :
  TwoQueueCache.size (twoq_exec c o) = TwoQueueCache.size c
  /\ TwoQueueCache.recentSize (twoq_exec c o) = TwoQueueCache.recentSize c
  /\ LRU.size (TwoQueueCache.evict (twoq_exec c o))
     = LRU.size (TwoQueueCache.evict c).
Proof.
  destruct o; simpl; auto.
  - unfold TwoQueueCache.Get.
    destruct (LRU.Get _ k) as [f' [val []]]; [auto|].
    destruct (LRU.Peek _ k) as [val' []]; auto.
  - unfold TwoQueueCache.Put.
    destruct (LRU.contains (TwoQueueCache.frequent c) k); [auto|].
    destruct (LRU.contains (TwoQueueCache.recent c) k); [auto|].
    destruct (LRU.contains (TwoQueueCache.evict c) k); cbv zeta; simpl;
      rewrite ?Remove_size; apply ensureSpace_sizes.
  - unfold TwoQueueCache.Remove.
    rewrite !removeIfExist_spec.
    destruct (LRU.contains (TwoQueueCache.frequent c) k); [auto|].
    destruct (LRU.contains (TwoQueueCache.recent c) k); [auto|].
    simpl. now rewrite Remove_size.
Qed.

Lemma twoq_run_sizes (ops : list (op V)) : forall c,
  TwoQueueCache.size (twoq_run c ops) = TwoQueueCache.size c
  /\ TwoQueueCache.recentSize (twoq_run c ops) = TwoQueueCache.recentSize c
  /\ LRU.size (TwoQueueCache.evict (twoq_run c ops))
     = LRU.size (TwoQueueCache.evict c).
Proof.
  induction ops as [|o ops IH]; intros c; simpl; [auto|].
  destruct (IH (twoq_exec c o)) as (H1 & H2 & H3).
  destruct (twoq_exec_sizes c o) as (E1 & E2 & E3).
  repeat split; congruence.
Qed.

Lemma twoq_reachable_inv (size : Z) c0 (ops : list (op V)) :
  TwoQueueCache.NewTwoQueueCache V size = Ok c0 ->
  twoq_inv (twoq_run c0 ops)
  /\ TwoQueueCache.size (twoq_run c0 ops) = size.
Proof.
  intros Hnew. destruct (NewTwoQueueCache_inv _ _ Hnew) as (I0 & Hs & _).
  split; [now apply twoq_inv_run|].
  destruct (twoq_run_sizes ops c0) as (H1 & _). congruence.
Qed.

(** [ensureSpace] removes exactly one cached entry when the cache is full
    and none otherwise. *)
Lemma ensureSpace_Len c (b : bool) :
  twoq_inv c ->
  TwoQueueCache.Len (TwoQueueCache.ensureSpace c b)
  = if TwoQueueCache.Len c <? TwoQueueCache.size c
    then TwoQueueCache.Len c else TwoQueueCache.Len c - 1.
Proof.
  intros I. pose proof I as [Hrs Hr Hf He Hrc Hfc Hlen Hrf Hre Hfe].
  unfold TwoQueueCache.Len in *. unfold TwoQueueCache.ensureSpace.
  destruct (Z.ltb_spec (LRU.Len (TwoQueueCache.recent c)
                        + LRU.Len (TwoQueueCache.frequent c))
              (TwoQueueCache.size c)) as [Hroom|Hfull]; [reflexivity|].
  pose proof (Len_nonneg (TwoQueueCache.recent c)) as Hr0.
  pose proof (Len_nonneg (TwoQueueCache.frequent c)) as Hf0.
  pose proof (lru_cap_pos _ Hf) as Hpos.
  destruct (_ && _) eqn:Hcond.
  - apply andb_true_iff in Hcond as [Hne _].
    rewrite Z.gtb_ltb in Hne. apply Z.ltb_lt in Hne.
    pose proof (getAndRemoveOldest_fst (TwoQueueCache.recent c)) as Hfst.
    destruct (LRU.getAndRemoveOldest (TwoQueueCache.recent c))
      as [recent' [[k0 v0] ok]]. simpl in Hfst. subst recent'. simpl.
    rewrite removeOldest_Len by lia. lia.
  - assert (Hfne : 1 <= LRU.Len (TwoQueueCache.frequent c)).
    { apply andb_false_iff in Hcond.
      rewrite Z.gtb_ltb, Z.ltb_ge in Hcond.
      destruct Hcond as [Hc|Hc]; [lia|].
      apply orb_false_iff in Hc as [Hc _].
      rewrite Z.gtb_ltb, Z.ltb_ge in Hc. lia. }
    simpl. rewrite removeOldest_Len by lia. lia.
Qed.

Lemma twoq_Peek_unfold c k :
  TwoQueueCache.Peek c k
  = if LRU.contains (TwoQueueCache.frequent c) k
    then LRU.Peek (TwoQueueCache.frequent c) k
    else LRU.Peek (TwoQueueCache.recent c) k.
Proof.
  unfold TwoQueueCache.Peek.
  pose proof (Peek_found (TwoQueueCache.frequent c) k) as H.
  destruct (LRU.Peek (TwoQueueCache.frequent c) k) as [val ok].
  simpl in H. subst ok.
  now destruct (LRU.contains (TwoQueueCache.frequent c) k).
Qed.

Lemma twoq_Peek_found c k :
  snd (TwoQueueCache.Peek c k)
  = LRU.contains (TwoQueueCache.frequent c) k
    || LRU.contains (TwoQueueCache.recent c) k.
Proof.
  rewrite twoq_Peek_unfold.
  destruct (LRU.contains (TwoQueueCache.frequent c) k) eqn:E; simpl.
  - now rewrite Peek_found.
  - now rewrite Peek_found.
Qed.

Lemma twoq_Get_result c k :
  snd (TwoQueueCache.Get c k) = TwoQueueCache.Peek c k.
Proof.
  rewrite twoq_Peek_unfold.
  destruct (LRU.contains (TwoQueueCache.frequent c) k) eqn:Hf.
  - rewrite twoq_Get_frequent by assumption. simpl. apply Peek_Get.
  - destruct (LRU.contains (TwoQueueCache.recent c) k) eqn:Hr.
    + rewrite twoq_Get_recent by assumption. simpl.
      pose proof (Peek_found (TwoQueueCache.recent c) k) as H.
      destruct (LRU.Peek (TwoQueueCache.recent c) k) as [val ok].
      simpl in *. congruence.
    + rewrite twoq_Get_miss by assumption. simpl.
      now rewrite Peek_absent.
Qed.

End TwoQBehaviourMore.

Section TwoQMap.

Context {V : Type}.

Implicit Types (c : TwoQueueCache.t V) (k : key) (v : any V).

Lemma contains_Put_same (l : LRU.t V) k v :
  lru_inv l -> LRU.contains (LRU.Put l k v) k = true.
Proof.
  intros I. rewrite <- Peek_found. now rewrite Peek_Put_same.
Qed.

Lemma twoq_Peek_Put_same c k v :
  twoq_inv c -> TwoQueueCache.Peek (TwoQueueCache.Put c k v) k = (v, true).
Proof.
  intros I. rewrite twoq_Peek_unfold. unfold TwoQueueCache.Put.
  destruct (LRU.contains (TwoQueueCache.frequent c) k) eqn:Hf.
  { simpl. rewrite contains_Put_same by apply (tq_frequent _ I).
    apply Peek_Put_same, (tq_frequent _ I). }
  destruct (LRU.contains (TwoQueueCache.recent c) k) eqn:Hr.
  { simpl. rewrite contains_Put_same by apply (tq_frequent _ I).
    apply Peek_Put_same, (tq_frequent _ I). }
  destruct (LRU.contains (TwoQueueCache.evict c) k) eqn:He.
  - destruct (ensureSpace_inv c true I) as (I1 & _). cbv zeta. simpl.
    rewrite contains_Put_same by apply (tq_frequent _ I1).
    apply Peek_Put_same, (tq_frequent _ I1).
  - destruct (ensureSpace_inv c false I) as (I1 & _ & _ & _ & Hf1 & _).
    cbv zeta. simpl.
    replace (LRU.contains
               (TwoQueueCache.frequent (TwoQueueCache.ensureSpace c false)) k)
      with false.
    + apply Peek_Put_same, (tq_recent _ I1).
    + symmetry. apply contains_false. intros H. apply Hf1 in H.
      now apply contains_false in Hf.
Qed.

(** [Get] on a cache satisfying the invariant changes no later lookup. *)
Lemma twoq_Peek_after_Get c k k' :
  twoq_inv c ->
  TwoQueueCache.Peek (fst (TwoQueueCache.Get c k)) k'
  = TwoQueueCache.Peek c k'.
Proof.
  intros I. rewrite !twoq_Peek_unfold.
  destruct (LRU.contains (TwoQueueCache.frequent c) k) eqn:Hf.
  - rewrite twoq_Get_frequent by assumption. simpl.
    rewrite <- !Peek_found, !Peek_after_Get. reflexivity.
  - destruct (LRU.contains (TwoQueueCache.recent c) k) eqn:Hr.
    2:{ now rewrite twoq_Get_miss. }
    rewrite twoq_Get_recent by assumption. simpl.
    pose proof (twoq_promote_room _ _ I Hr) as Hroom.
    destruct (N.eq_dec k' k) as [->|Hne].
    + rewrite contains_Put_same by apply (tq_frequent _ I).
      rewrite Peek_Put_same by apply (tq_frequent _ I). rewrite Hf.
      pose proof (Peek_found (TwoQueueCache.recent c) k) as H.
      destruct (LRU.Peek (TwoQueueCache.recent c) k) as [val ok].
      simpl in *. congruence.
    + rewrite <- !Peek_found.
      rewrite !Peek_Put_other_room by assumption.
      now rewrite Peek_after_Remove.
Qed.

End TwoQMap.

(** X8.  On a 2Q cache reached from [NewTwoQueueCache] the configured
    size and the ghost capacity never change, [Len()] is at most the
    size, the ghost list is within its capacity, no key is listed twice in
    [Items] or in the ghost list, and no cached key is a ghost. *)
Theorem twoq_keys_partition (V : Type) (size : Z)
    (c0 : TwoQueueCache.t V) (ops : list (op V)) :
  TwoQueueCache.NewTwoQueueCache V size = Ok c0 ->
  let c := twoq_run c0 ops in
  TwoQueueCache.size c = size
  /\ LRU.size (TwoQueueCache.evict c) = LRU.size (TwoQueueCache.evict c0)
  /\ TwoQueueCache.Len c <= size
  /\ LRU.Len (TwoQueueCache.evict c) <= LRU.size (TwoQueueCache.evict c)
  /\ NoDup (map Key (TwoQueueCache.Items c))
  /\ NoDup (keys (TwoQueueCache.evict c))
  /\ forall k, In k (map Key (TwoQueueCache.Items c)) ->
               ~ In k (keys (TwoQueueCache.evict c)).
Proof.
  intros Hnew c.
  destruct (twoq_reachable_inv size c0 ops Hnew) as [I Hs].
  fold c in I, Hs.
  destruct (twoq_run_sizes ops c0) as (_ & _ & He).
  pose proof I as [Hrs Ir If Ie Hrc Hfc Hlen Hrf Hre Hfe].
  split; [exact Hs|]. split; [exact He|]. split; [lia|].
  split; [apply (lru_len _ Ie)|].
  unfold TwoQueueCache.Items, LRU.Items. rewrite map_app.
  split; [|split; [apply (lru_nodup _ Ie)|]].
  - apply NoDup_app; [apply (lru_nodup _ Ir)|apply (lru_nodup _ If)|].
    intros k H1 H2. now apply (Hrf k).
  - intros k Hin. apply in_app_or in Hin as [H|H].
    + now apply Hre.
    + now apply Hfe.
Qed.

Lemma twoq_keys_partition_witness :
  let c0 : TwoQueueCache.t nat :=
    TwoQueueCache.mk 4 1 (LRU.mk 4 []) (LRU.mk 4 []) (LRU.mk 2 []) in
  let c :=
    twoq_run c0
      [OpPut 1%N (Some 10%nat); OpPut 2%N (Some 20%nat);
       OpPut 3%N (Some 30%nat); OpPut 4%N (Some 40%nat);
       OpPut 5%N (Some 50%nat)] in
  TwoQueueCache.size c = 4
  /\ LRU.size (TwoQueueCache.evict c) = LRU.size (TwoQueueCache.evict c0)
  /\ TwoQueueCache.Len c <= 4
  /\ LRU.Len (TwoQueueCache.evict c) <= LRU.size (TwoQueueCache.evict c)
  /\ NoDup (map Key (TwoQueueCache.Items c))
  /\ NoDup (keys (TwoQueueCache.evict c))
  /\ forall k, In k (map Key (TwoQueueCache.Items c)) ->
               ~ In k (keys (TwoQueueCache.evict c)).
Proof.
  exact (twoq_keys_partition nat 4
           (TwoQueueCache.mk 4 1 (LRU.mk 4 []) (LRU.mk 4 []) (LRU.mk 2 []))
           [OpPut 1%N (Some 10%nat); OpPut 2%N (Some 20%nat);
            OpPut 3%N (Some 30%nat); OpPut 4%N (Some 40%nat);
            OpPut 5%N (Some 50%nat)] eq_refl).
Defined.

(** X9.  On a 2Q cache reached from [NewTwoQueueCache], a [Put] is seen
    by the next lookup: [Peek] and [Get] both report the value just
    written. *)
Theorem twoq_put_then_lookup (V : Type) (size : Z)
    (c0 : TwoQueueCache.t V) (ops : list (op V)) (k : key) (v : any V) :
  TwoQueueCache.NewTwoQueueCache V size = Ok c0 ->
  let c := TwoQueueCache.Put (twoq_run c0 ops) k v in
  TwoQueueCache.Peek c k = (v, true)
  /\ snd (TwoQueueCache.Get c k) = (v, true).
Proof.
  intros Hnew c.
  destruct (twoq_reachable_inv size c0 ops Hnew) as [I _].
  split; [|rewrite twoq_Get_result]; now apply twoq_Peek_Put_same.
Qed.

Lemma twoq_put_then_lookup_witness :
  let c0 : TwoQueueCache.t nat :=
    TwoQueueCache.mk 4 1 (LRU.mk 4 []) (LRU.mk 4 []) (LRU.mk 2 []) in
  let c :=
    TwoQueueCache.Put
      (twoq_run c0 [OpPut 1%N (Some 10%nat); OpPut 2%N (Some 20%nat)])
      1%N (Some 11%nat) in
  TwoQueueCache.Peek c 1%N = (Some 11%nat, true)
  /\ snd (TwoQueueCache.Get c 1%N) = (Some 11%nat, true).
Proof.
  exact (twoq_put_then_lookup nat 4
           (TwoQueueCache.mk 4 1 (LRU.mk 4 []) (LRU.mk 4 []) (LRU.mk 2 []))
           [OpPut 1%N (Some 10%nat); OpPut 2%N (Some 20%nat)]
           1%N (Some 11%nat) eq_refl).
Defined.

(** X10.  On a 2Q cache reached from [NewTwoQueueCache], [Get] returns
    what [Peek] returns and changes the result of no later [Peek], for
    any key. *)
Theorem twoq_get_changes_no_lookup (V : Type) (size : Z)
    (c0 : TwoQueueCache.t V) (ops : list (op V)) (k : key) :
  TwoQueueCache.NewTwoQueueCache V size = Ok c0 ->
  let c := twoq_run c0 ops in
  snd (TwoQueueCache.Get c k) = TwoQueueCache.Peek c k
  /\ forall k', TwoQueueCache.Peek (fst (TwoQueueCache.Get c k)) k'
                = TwoQueueCache.Peek c k'.
Proof.
  intros Hnew c.
  destruct (twoq_reachable_inv size c0 ops Hnew) as [I _].
  split; [apply twoq_Get_result|].
  intros k'. now apply twoq_Peek_after_Get.
Qed.

Lemma twoq_get_changes_no_lookup_witness :
  let c0 : TwoQueueCache.t nat :=
    TwoQueueCache.mk 4 1 (LRU.mk 4 []) (LRU.mk 4 []) (LRU.mk 2 []) in
  let c := twoq_run c0 [OpPut 1%N (Some 10%nat); OpPut 2%N (Some 20%nat)] in
  snd (TwoQueueCache.Get c 1%N) = TwoQueueCache.Peek c 1%N
  /\ forall k', TwoQueueCache.Peek (fst (TwoQueueCache.Get c 1%N)) k'
                = TwoQueueCache.Peek c k'.
Proof.
  exact (twoq_get_changes_no_lookup nat 4
           (TwoQueueCache.mk 4 1 (LRU.mk 4 []) (LRU.mk 4 []) (LRU.mk 2 []))
           [OpPut 1%N (Some 10%nat); OpPut 2%N (Some 20%nat)] 1%N eq_refl).
Defined.

Section TwoQMapMore.

Context {V : Type}.

Implicit Types (c : TwoQueueCache.t V) (k : key) (v : any V).

Lemma twoq_Put_fresh c k v :
  LRU.contains (TwoQueueCache.frequent c) k = false ->
  LRU.contains (TwoQueueCache.recent c) k = false ->
  LRU.contains (TwoQueueCache.evict c) k = false ->
  TwoQueueCache.Put c k v
  = let c1 := TwoQueueCache.ensureSpace c false in
    TwoQueueCache.mk (TwoQueueCache.size c1) (TwoQueueCache.recentSize c1)
      (LRU.Put (TwoQueueCache.recent c1) k v)
      (TwoQueueCache.frequent c1) (TwoQueueCache.evict c1).
Proof. intros Hf Hr He. unfold TwoQueueCache.Put. now rewrite Hf, Hr, He. Qed.

Lemma twoq_Put_recent c k v :
  LRU.contains (TwoQueueCache.frequent c) k = false ->
  LRU.contains (TwoQueueCache.recent c) k = true ->
  TwoQueueCache.Put c k v
  = TwoQueueCache.mk (TwoQueueCache.size c) (TwoQueueCache.recentSize c)
      (LRU.Remove (TwoQueueCache.recent c) k)
      (LRU.Put (TwoQueueCache.frequent c) k v)
      (TwoQueueCache.evict c).
Proof. intros Hf Hr. unfold TwoQueueCache.Put. now rewrite Hf, Hr. Qed.

Lemma twoq_Remove_absent c k :
  LRU.contains (TwoQueueCache.frequent c) k = false ->
  LRU.contains (TwoQueueCache.recent c) k = false ->
  LRU.contains (TwoQueueCache.evict c) k = false ->
  TwoQueueCache.Remove c k = c.
Proof.
  intros Hf Hr He. unfold TwoQueueCache.Remove.
  rewrite !removeIfExist_spec, Hf, Hr.
  rewrite Remove_absent by assumption. now destruct c.
Qed.

End TwoQMapMore.

(** X11.  On a 2Q cache reached from [NewTwoQueueCache], the first [Put]
    of a key that is neither cached nor a ghost places it in [recent] with
    its value, and not in [frequent] or the ghost list; a following [Get]
    of the key, or a following [Put] on it, moves it to [frequent] and
    out of [recent]. *)
Theorem twoq_admission_then_promotion (V : Type) (size : Z)
    (c0 : TwoQueueCache.t V) (ops : list (op V)) (k : key) (v v' : any V) :
  TwoQueueCache.NewTwoQueueCache V size = Ok c0 ->
  let c := twoq_run c0 ops in
  snd (TwoQueueCache.Peek c k) = false ->
  LRU.contains (TwoQueueCache.evict c) k = false ->
  let c1 := TwoQueueCache.Put c k v in
  let c2 := fst (TwoQueueCache.Get c1 k) in
  let c3 := TwoQueueCache.Put c1 k v' in
  (LRU.Peek (TwoQueueCache.recent c1) k = (v, true)
   /\ LRU.contains (TwoQueueCache.frequent c1) k = false
   /\ LRU.contains (TwoQueueCache.evict c1) k = false)
  /\ (LRU.contains (TwoQueueCache.recent c2) k = false
      /\ LRU.Peek (TwoQueueCache.frequent c2) k = (v, true))
  /\ (LRU.contains (TwoQueueCache.recent c3) k = false
      /\ LRU.Peek (TwoQueueCache.frequent c3) k = (v', true)).
Proof.
  intros Hnew c Hmiss He c1 c2 c3.
  destruct (twoq_reachable_inv size c0 ops Hnew) as [I _]. fold c in I.
  rewrite twoq_Peek_found in Hmiss.
  apply orb_false_iff in Hmiss as [Hf Hr].
  destruct (ensureSpace_inv c false I) as (I1 & _ & _ & Hr1 & Hf1 & He1).
  assert (E1 : c1 = TwoQueueCache.mk
                      (TwoQueueCache.size (TwoQueueCache.ensureSpace c false))
                      (TwoQueueCache.recentSize
                         (TwoQueueCache.ensureSpace c false))
                      (LRU.Put (TwoQueueCache.recent
                                  (TwoQueueCache.ensureSpace c false)) k v)
                      (TwoQueueCache.frequent
                         (TwoQueueCache.ensureSpace c false))
                      (TwoQueueCache.evict
                         (TwoQueueCache.ensureSpace c false))).
  { unfold c1. now rewrite twoq_Put_fresh. }
  assert (Ic1 : twoq_inv c1) by (unfold c1; now apply twoq_inv_Put).
  apply contains_false in Hf, Hr, He.
  assert (A1 : LRU.Peek (TwoQueueCache.recent c1) k = (v, true)).
  { rewrite E1. simpl. apply Peek_Put_same, (tq_recent _ I1). }
  assert (A2 : LRU.contains (TwoQueueCache.frequent c1) k = false).
  { rewrite E1. simpl. apply contains_false. auto. }
  assert (A3 : LRU.contains (TwoQueueCache.evict c1) k = false).
  { rewrite E1. simpl. apply contains_false. intros H.
    apply He1 in H as [H|H]; contradiction. }
  assert (A4 : LRU.contains (TwoQueueCache.recent c1) k = true).
  { rewrite <- Peek_found, A1. reflexivity. }
  split; [auto|]. split.
  - unfold c2. rewrite twoq_Get_recent by assumption. simpl.
    split.
    + apply contains_false, Remove_gone, (lru_nodup _ (tq_recent _ Ic1)).
    + rewrite A1. simpl. apply Peek_Put_same, (tq_frequent _ Ic1).
  - unfold c3. rewrite twoq_Put_recent by assumption. simpl.
    split.
    + apply contains_false, Remove_gone, (lru_nodup _ (tq_recent _ Ic1)).
    + apply Peek_Put_same, (tq_frequent _ Ic1).
Qed.

Lemma twoq_admission_then_promotion_witness :
  let c0 : TwoQueueCache.t nat :=
    TwoQueueCache.mk 4 1 (LRU.mk 4 []) (LRU.mk 4 []) (LRU.mk 2 []) in
  let c := twoq_run c0 [OpPut 1%N (Some 10%nat)] in
  let c1 := TwoQueueCache.Put c 2%N (Some 20%nat) in
  let c2 := fst (TwoQueueCache.Get c1 2%N) in
  let c3 := TwoQueueCache.Put c1 2%N (Some 21%nat) in
  (LRU.Peek (TwoQueueCache.recent c1) 2%N = (Some 20%nat, true)
   /\ LRU.contains (TwoQueueCache.frequent c1) 2%N = false
   /\ LRU.contains (TwoQueueCache.evict c1) 2%N = false)
  /\ (LRU.contains (TwoQueueCache.recent c2) 2%N = false
      /\ LRU.Peek (TwoQueueCache.frequent c2) 2%N = (Some 20%nat, true))
  /\ (LRU.contains (TwoQueueCache.recent c3) 2%N = false
      /\ LRU.Peek (TwoQueueCache.frequent c3) 2%N = (Some 21%nat, true)).
Proof.
  exact (twoq_admission_then_promotion nat 4
           (TwoQueueCache.mk 4 1 (LRU.mk 4 []) (LRU.mk 4 []) (LRU.mk 2 []))
           [OpPut 1%N (Some 10%nat)] 2%N (Some 20%nat) (Some 21%nat)
           eq_refl eq_refl eq_refl).
Defined.

(** X12.  On a 2Q cache reached from [NewTwoQueueCache], [Remove] of [k]
    leaves [k] neither cached nor a ghost, changes no lookup of another
    key, shortens [Len()] by one exactly when [k] was cached, and a second
    [Remove] of [k] changes nothing. *)
Theorem twoq_remove_behaviour (V : Type) (size : Z)
    (c0 : TwoQueueCache.t V) (ops : list (op V)) (k : key) :
  TwoQueueCache.NewTwoQueueCache V size = Ok c0 ->
  let c := twoq_run c0 ops in
  let c' := TwoQueueCache.Remove c k in
  TwoQueueCache.Peek c' k = (None, false)
  /\ LRU.contains (TwoQueueCache.evict c') k = false
  /\ (forall k', k' <> k ->
        TwoQueueCache.Peek c' k' = TwoQueueCache.Peek c k')
  /\ TwoQueueCache.Len c'
     = TwoQueueCache.Len c
       - (if snd (TwoQueueCache.Peek c k) then 1 else 0)
  /\ TwoQueueCache.Remove c' k = c'.
Proof.
  intros Hnew c c'.
  destruct (twoq_reachable_inv size c0 ops Hnew) as [I _]. fold c in I.
  pose proof I as [Hrs Ir If Ie Hrc Hfc Hlen Hrf Hre Hfe].
  assert (Hcases :
    LRU.contains (TwoQueueCache.frequent c') k = false
    /\ LRU.contains (TwoQueueCache.recent c') k = false
    /\ LRU.contains (TwoQueueCache.evict c') k = false
    /\ (forall k', k' <> k ->
          LRU.Peek (TwoQueueCache.frequent c') k'
          = LRU.Peek (TwoQueueCache.frequent c) k'
          /\ LRU.Peek (TwoQueueCache.recent c') k'
             = LRU.Peek (TwoQueueCache.recent c) k')
    /\ TwoQueueCache.Len c'
       = TwoQueueCache.Len c
         - (if LRU.contains (TwoQueueCache.frequent c) k
               || LRU.contains (TwoQueueCache.recent c) k
            then 1 else 0)).
  { unfold c', TwoQueueCache.Remove, TwoQueueCache.Len.
    rewrite !removeIfExist_spec.
    destruct (LRU.contains (TwoQueueCache.frequent c) k) eqn:Hf.
    - simpl. rewrite Remove_Len by assumption.
      apply contains_true in Hf.
      split; [apply contains_false, Remove_gone, (lru_nodup _ If)|].
      split; [apply contains_false; intros H; now apply (Hrf k)|].
      split; [apply contains_false; now apply Hfe|].
      split; [|lia]. intros k' Hne.
      split; [now apply Peek_after_Remove|reflexivity].
    - destruct (LRU.contains (TwoQueueCache.recent c) k) eqn:Hr.
      + simpl. rewrite Remove_Len by assumption.
        split; [assumption|].
        split; [apply contains_false, Remove_gone, (lru_nodup _ Ir)|].
        apply contains_true in Hr.
        split; [apply contains_false; now apply Hre|].
        split; [|lia]. intros k' Hne.
        split; [reflexivity|now apply Peek_after_Remove].
      + simpl. split; [assumption|]. split; [assumption|].
        split; [apply contains_false, Remove_gone, (lru_nodup _ Ie)|].
        split; [auto|lia]. }
  destruct Hcases as (Hf' & Hr' & He' & Hother & HL).
  split.
  { rewrite twoq_Peek_unfold, Hf'. now apply Peek_absent. }
  split; [assumption|]. split.
  { intros k' Hne. destruct (Hother k' Hne) as [H1 H2].
    rewrite !twoq_Peek_unfold, <- !Peek_found, H1, H2. reflexivity. }
  split; [now rewrite twoq_Peek_found|].
  now apply twoq_Remove_absent.
Qed.

Lemma twoq_remove_behaviour_witness :
  let c0 : TwoQueueCache.t nat :=
    TwoQueueCache.mk 4 1 (LRU.mk 4 []) (LRU.mk 4 []) (LRU.mk 2 []) in
  let c := twoq_run c0 [OpPut 1%N (Some 10%nat); OpPut 2%N (Some 20%nat)] in
  let c' := TwoQueueCache.Remove c 1%N in
  TwoQueueCache.Peek c' 1%N = (None, false)
  /\ LRU.contains (TwoQueueCache.evict c') 1%N = false
  /\ (forall k', k' <> 1%N ->
        TwoQueueCache.Peek c' k' = TwoQueueCache.Peek c k')
  /\ TwoQueueCache.Len c'
     = TwoQueueCache.Len c
       - (if snd (TwoQueueCache.Peek c 1%N) then 1 else 0)
  /\ TwoQueueCache.Remove c' 1%N = c'.
Proof.
  exact (twoq_remove_behaviour nat 4
           (TwoQueueCache.mk 4 1 (LRU.mk 4 []) (LRU.mk 4 []) (LRU.mk 2 []))
           [OpPut 1%N (Some 10%nat); OpPut 2%N (Some 20%nat)] 1%N eq_refl).
Defined.

(** X13.  On a 2Q cache reached from [NewTwoQueueCache], a [Put] on a
    cached key keeps [Len()], and a [Put] of a key that is not cached
    raises [Len()] by one when the cache has room and keeps it at [size]
    when the cache is full: one entry comes in and at most one goes. *)
Theorem twoq_put_length (V : Type) (size : Z)
    (c0 : TwoQueueCache.t V) (ops : list (op V)) (k : key) (v : any V) :
  TwoQueueCache.NewTwoQueueCache V size = Ok c0 ->
  let c := twoq_run c0 ops in
  TwoQueueCache.Len (TwoQueueCache.Put c k v)
  = if snd (TwoQueueCache.Peek c k) then TwoQueueCache.Len c
    else Z.min size (TwoQueueCache.Len c + 1).
Proof.
  intros Hnew c.
  destruct (twoq_reachable_inv size c0 ops Hnew) as [I Hs].
  fold c in I, Hs.
  pose proof I as [Hrs Ir If Ie Hrc Hfc Hlen Hrf Hre Hfe].
  rewrite twoq_Peek_found. unfold TwoQueueCache.Put.
  destruct (LRU.contains (TwoQueueCache.frequent c) k) eqn:Hf.
  { simpl. unfold TwoQueueCache.Len. simpl.
    now rewrite Put_Len_present. }
  destruct (LRU.contains (TwoQueueCache.recent c) k) eqn:Hr.
  { simpl. pose proof (twoq_promote_room _ _ I Hr) as Hroom.
    unfold TwoQueueCache.Len. simpl.
    rewrite Remove_Len, Put_Len_absent_room by assumption. lia. }
  simpl. apply contains_false in Hf, Hr.
  assert (Hgen : forall b,
    let c1 := TwoQueueCache.ensureSpace c b in
    twoq_inv c1
    /\ TwoQueueCache.Len c1 + 1 = Z.min size (TwoQueueCache.Len c + 1)
    /\ LRU.contains (TwoQueueCache.frequent c1) k = false
    /\ LRU.contains (TwoQueueCache.recent c1) k = false
    /\ LRU.Len (TwoQueueCache.frequent c1)
         < LRU.size (TwoQueueCache.frequent c1)
    /\ LRU.Len (TwoQueueCache.recent c1)
         < LRU.size (TwoQueueCache.recent c1)).
  { intros b c1.
    destruct (ensureSpace_inv c b I) as (I1 & Hs1 & Hl1 & Hr1 & Hf1 & _).
    fold c1 in I1, Hs1, Hl1, Hr1, Hf1.
    pose proof (ensureSpace_Len c b I) as HL. fold c1 in HL.
    pose proof (Len_nonneg (TwoQueueCache.recent c1)).
    pose proof (Len_nonneg (TwoQueueCache.frequent c1)).
    rewrite (tq_frequent_cap _ I1), (tq_recent_cap _ I1).
    unfold TwoQueueCache.Len in *.
    split; [assumption|]. split.
    - destruct (Z.ltb_spec (LRU.Len (TwoQueueCache.recent c)
                            + LRU.Len (TwoQueueCache.frequent c))
                  (TwoQueueCache.size c)); lia.
    - split; [apply contains_false; auto|].
      split; [apply contains_false; auto|]. lia. }
  destruct (LRU.contains (TwoQueueCache.evict c) k).
  - destruct (Hgen true) as (I1 & HL & Hf1 & Hr1 & Hroomf & _).
    cbv zeta. unfold TwoQueueCache.Len in *. simpl.
    rewrite Put_Len_absent_room by assumption. lia.
  - destruct (Hgen false) as (I1 & HL & Hf1 & Hr1 & _ & Hroomr).
    cbv zeta. unfold TwoQueueCache.Len in *. simpl.
    rewrite Put_Len_absent_room by assumption. lia.
Qed.

Lemma twoq_put_length_witness :
  let c0 : TwoQueueCache.t nat :=
    TwoQueueCache.mk 4 1 (LRU.mk 4 []) (LRU.mk 4 []) (LRU.mk 2 []) in
  let c :=
    twoq_run c0
      [OpPut 1%N (Some 10%nat); OpPut 2%N (Some 20%nat);
       OpPut 3%N (Some 30%nat); OpPut 4%N (Some 40%nat)] in
  TwoQueueCache.Len (TwoQueueCache.Put c 5%N (Some 50%nat)) = 4.
Proof.
  exact (twoq_put_length nat 4
           (TwoQueueCache.mk 4 1 (LRU.mk 4 []) (LRU.mk 4 []) (LRU.mk 2 []))
           [OpPut 1%N (Some 10%nat); OpPut 2%N (Some 20%nat);
            OpPut 3%N (Some 30%nat); OpPut 4%N (Some 40%nat)]
           5%N (Some 50%nat) eq_refl).
Defined.

(** X14.  On a 2Q cache reached from [NewTwoQueueCache], whatever the
    operation, a key that is a ghost afterwards was a ghost before or was
    in [recent] before, and was not in [frequent]: an entry dropped from
    [frequent] is never remembered. *)
Theorem twoq_ghosts_come_from_recent (V : Type) (size : Z)
    (c0 : TwoQueueCache.t V) (ops : list (op V)) (o : op V) (k : key) :
  TwoQueueCache.NewTwoQueueCache V size = Ok c0 ->
  let c := twoq_run c0 ops in
  In k (keys (TwoQueueCache.evict (twoq_exec c o))) ->
  (In k (keys (TwoQueueCache.evict c))
   \/ In k (keys (TwoQueueCache.recent c)))
  /\ ~ In k (keys (TwoQueueCache.frequent c)).
Proof.
  intros Hnew c Hin.
  destruct (twoq_reachable_inv size c0 ops Hnew) as [I _]. fold c in I.
  assert (Hfrom : In k (keys (TwoQueueCache.evict c))
                  \/ In k (keys (TwoQueueCache.recent c))).
  { destruct o; simpl in Hin; auto.
    - unfold TwoQueueCache.Get in Hin.
      destruct (LRU.Get _ k0) as [f' [val []]]; [auto|].
      destruct (LRU.Peek _ k0) as [val' []]; auto.
    - unfold TwoQueueCache.Put in Hin.
      destruct (LRU.contains (TwoQueueCache.frequent c) k0); [auto|].
      destruct (LRU.contains (TwoQueueCache.recent c) k0); [auto|].
      destruct (LRU.contains (TwoQueueCache.evict c) k0).
      + destruct (ensureSpace_inv c true I) as (_ & _ & _ & _ & _ & He1).
        simpl in Hin. apply Remove_incl in Hin. auto.
      + destruct (ensureSpace_inv c false I) as (_ & _ & _ & _ & _ & He1).
        simpl in Hin. auto.
    - unfold TwoQueueCache.Remove in Hin.
      rewrite !removeIfExist_spec in Hin.
      destruct (LRU.contains (TwoQueueCache.frequent c) k0); [auto|].
      destruct (LRU.contains (TwoQueueCache.recent c) k0); [auto|].
      simpl in Hin. apply Remove_incl in Hin. auto.
    - destruct Hin. }
  split; [exact Hfrom|].
  intros Hf. destruct Hfrom as [H|H].
  - now apply (tq_fe _ I k).
  - now apply (tq_rf _ I k).
Qed.

Lemma twoq_ghosts_come_from_recent_witness :
  let c0 : TwoQueueCache.t nat :=
    TwoQueueCache.mk 4 1 (LRU.mk 4 []) (LRU.mk 4 []) (LRU.mk 2 []) in
  let c :=
    twoq_run c0
      [OpPut 1%N (Some 10%nat); OpPut 2%N (Some 20%nat);
       OpPut 3%N (Some 30%nat); OpPut 4%N (Some 40%nat)] in
  (In 1%N (keys (TwoQueueCache.evict c))
   \/ In 1%N (keys (TwoQueueCache.recent c)))
  /\ ~ In 1%N (keys (TwoQueueCache.frequent c)).
Proof.
  apply (twoq_ghosts_come_from_recent nat 4
           (TwoQueueCache.mk 4 1 (LRU.mk 4 []) (LRU.mk 4 []) (LRU.mk 2 []))
           [OpPut 1%N (Some 10%nat); OpPut 2%N (Some 20%nat);
            OpPut 3%N (Some 30%nat); OpPut 4%N (Some 40%nat)]
           (OpPut 5%N (Some 50%nat)) 1%N eq_refl).
  vm_compute. auto.
Defined.

(** ** Ghost entries carry no value *)

Section GhostValues.

Context {V : Type}.

Variable P : Item V -> Prop.

Implicit Types (l : LRU.t V) (k : key) (v : any V).

Lemma unlink_Forall (xs : list (Item V)) k :
  Forall P xs -> Forall P (LRU.unlink xs k).
Proof.
  induction 1 as [|a xs Ha Hxs IH]; simpl; [constructor|].
  destruct (N.eqb (Key a) k); [assumption|now constructor].
Qed.

Lemma removelast_Forall (xs : list (Item V)) :
  Forall P xs -> Forall P (removelast xs).
Proof.
  induction 1 as [|a xs Ha Hxs IH]; simpl; [constructor|].
  destruct xs; [constructor|now constructor].
Qed.

Lemma Remove_Forall l k :
  Forall P (LRU.evictList l) -> Forall P (LRU.evictList (LRU.Remove l k)).
Proof. rewrite Remove_list. apply unlink_Forall. Qed.

Lemma removeOldest_Forall l :
  Forall P (LRU.evictList l) ->
  Forall P (LRU.evictList (LRU.removeOldest l)).
Proof. rewrite removeOldest_list. apply removelast_Forall. Qed.

Lemma Put_Forall l k v :
  P (mkItem k v) -> Forall P (LRU.evictList l) ->
  Forall P (LRU.evictList (LRU.Put l k v)).
Proof.
  intros Hn H. unfold LRU.Put.
  destruct (LRU.items (LRU.evictList l) k) as [e|] eqn:E.
  - apply items_Some in E as [-> _]. simpl. constructor; [assumption|].
    now apply unlink_Forall.
  - cbv zeta. destruct (_ >? _).
    + apply removeOldest_Forall. simpl. now constructor.
    + simpl. now constructor.
Qed.

End GhostValues.

Section TwoQGhostValues.

Context {V : Type}.

Implicit Types (c : TwoQueueCache.t V).

Lemma ensureSpace_ghost_nil c (b : bool) :
  Forall (fun e => Value e = None)
    (LRU.evictList (TwoQueueCache.evict c)) ->
  Forall (fun e => Value e = None)
    (LRU.evictList (TwoQueueCache.evict (TwoQueueCache.ensureSpace c b))).
Proof.
  intros H. unfold TwoQueueCache.ensureSpace.
  destruct (_ <? _); [assumption|]. destruct (_ && _); [|assumption].
  destruct (LRU.getAndRemoveOldest _) as [r' [[k0 v0] ok]]. simpl.
  now apply Put_Forall.
Qed.

Lemma twoq_exec_ghost_nil c (o : op V) :
  Forall (fun e => Value e = None)
    (LRU.evictList (TwoQueueCache.evict c)) ->
  Forall (fun e => Value e = None)
    (LRU.evictList (TwoQueueCache.evict (twoq_exec c o))).
Proof.
  intros H. destruct o; simpl; auto.
  - unfold TwoQueueCache.Get.
    destruct (LRU.Get _ k) as [f' [val []]]; [auto|].
    destruct (LRU.Peek _ k) as [val' []]; auto.
  - unfold TwoQueueCache.Put.
    destruct (LRU.contains (TwoQueueCache.frequent c) k); [auto|].
    destruct (LRU.contains (TwoQueueCache.recent c) k); [auto|].
    destruct (LRU.contains (TwoQueueCache.evict c) k); cbv zeta; simpl.
    + now apply Remove_Forall, ensureSpace_ghost_nil.
    + now apply ensureSpace_ghost_nil.
  - unfold TwoQueueCache.Remove. rewrite !removeIfExist_spec.
    destruct (LRU.contains (TwoQueueCache.frequent c) k); [auto|].
    destruct (LRU.contains (TwoQueueCache.recent c) k); [auto|].
    simpl. now apply Remove_Forall.
Qed.

Lemma twoq_run_ghost_nil (ops : list (op V)) : forall c,
  Forall (fun e => Value e = None)
    (LRU.evictList (TwoQueueCache.evict c)) ->
  Forall (fun e => Value e = None)
    (LRU.evictList (TwoQueueCache.evict (twoq_run c ops))).
Proof.
  induction ops as [|o ops IH]; intros c H; simpl; [assumption|].
  now apply IH, twoq_exec_ghost_nil.
Qed.

End TwoQGhostValues.

(** X15.  On a 2Q cache reached from [NewTwoQueueCache] every ghost entry
    has a nil value, whatever values the client wrote; a lookup in the
    ghost list finds nil, and [Peek] of the cache reports a key that is
    only a ghost as not found. *)
Theorem twoq_ghosts_value_less (V : Type) (size : Z)
    (c0 : TwoQueueCache.t V) (ops : list (op V)) (k : key) :
  TwoQueueCache.NewTwoQueueCache V size = Ok c0 ->
  let c := twoq_run c0 ops in
  Forall (fun e => Value e = None) (LRU.evictList (TwoQueueCache.evict c))
  /\ (LRU.contains (TwoQueueCache.evict c) k = true ->
      LRU.Peek (TwoQueueCache.evict c) k = (None, true)
      /\ TwoQueueCache.Peek c k = (None, false)
      /\ snd (TwoQueueCache.Get c k) = (None, false)).
Proof.
  intros Hnew c.
  destruct (twoq_reachable_inv size c0 ops Hnew) as [I _]. fold c in I.
  destruct (NewTwoQueueCache_inv _ _ Hnew) as (I0 & _ & _).
  assert (Hnil : Forall (fun e => Value e = None)
                   (LRU.evictList (TwoQueueCache.evict c))).
  { apply twoq_run_ghost_nil.
    pose proof (lru_len _ (tq_evict _ I0)) as H0.
    pose proof (tq_len _ I0) as H1.
    unfold TwoQueueCache.NewTwoQueueCache,
      TwoQueueCache.newTowQueueParams, LRU.NewLRU in Hnew.
    repeat match type of Hnew with
           | (if ?b then _ else _) = _ =>
               destruct b; [discriminate|]
           end.
    cbv zeta in Hnew.
    repeat match type of Hnew with
           | context [if ?b then _ else _] =>
               destruct b; [discriminate|]
           end.
    injection Hnew as <-. simpl. constructor. }
  split; [exact Hnil|]. intros Hk.
  assert (Hp : LRU.Peek (TwoQueueCache.evict c) k = (None, true)).
  { unfold LRU.contains in Hk. unfold LRU.Peek.
    destruct (LRU.items (LRU.evictList (TwoQueueCache.evict c)) k)
      as [e|] eqn:E; [|discriminate].
    apply items_Some in E as [_ Hin].
    rewrite Forall_forall in Hnil. now rewrite (Hnil e Hin). }
  assert (Hmiss : TwoQueueCache.Peek c k = (None, false)).
  { apply contains_true in Hk.
    rewrite twoq_Peek_unfold.
    replace (LRU.contains (TwoQueueCache.frequent c) k) with false.
    - apply Peek_absent, contains_false. intros H.
      now apply (tq_re _ I k).
    - symmetry. apply contains_false. intros H. now apply (tq_fe _ I k). }
  split; [exact Hp|]. split; [exact Hmiss|].
  now rewrite twoq_Get_result.
Qed.

Lemma twoq_ghosts_value_less_witness :
  let c0 : TwoQueueCache.t nat :=
    TwoQueueCache.mk 4 1 (LRU.mk 4 []) (LRU.mk 4 []) (LRU.mk 2 []) in
  let c :=
    twoq_run c0
      [OpPut 1%N (Some 10%nat); OpPut 2%N (Some 20%nat);
       OpPut 3%N (Some 30%nat); OpPut 4%N (Some 40%nat);
       OpPut 5%N (Some 50%nat)] in
  LRU.Peek (TwoQueueCache.evict c) 1%N = (None, true)
  /\ TwoQueueCache.Peek c 1%N = (None, false)
  /\ snd (TwoQueueCache.Get c 1%N) = (None, false).
Proof.
  destruct (twoq_ghosts_value_less nat 4
           (TwoQueueCache.mk 4 1 (LRU.mk 4 []) (LRU.mk 4 []) (LRU.mk 2 []))
           [OpPut 1%N (Some 10%nat); OpPut 2%N (Some 20%nat);
            OpPut 3%N (Some 30%nat); OpPut 4%N (Some 40%nat);
            OpPut 5%N (Some 50%nat)] 1%N eq_refl) as [_ H].
  apply H. reflexivity.
Defined.

(** ** The ARC cache as a map *)

Section ARCBehaviour.

Context {V : Type}.

Implicit Types (c : ARCCache.t V) (k : key) (v : any V).

Lemma arc_reachable_inv (size : Z) c0 (ops : list (op V)) c :
  ARCCache.NewARC V size = Ok c0 ->
  arc_run c0 ops = Some c ->
  arc_inv c /\ ARCCache.size c = size.
Proof.
  intros Hnew Hrun. destruct (NewARC_inv _ _ Hnew) as (I0 & Hs0 & _).
  destruct (arc_inv_run _ _ _ I0 Hrun) as [I Hs].
  split; [assumption|congruence].
Qed.

Lemma arc_Peek_unfold c k :
  ARCCache.Peek c k
  = if LRU.contains (ARCCache.t1 c) k
    then LRU.Peek (ARCCache.t1 c) k
    else LRU.Peek (ARCCache.t2 c) k.
Proof.
  unfold ARCCache.Peek.
  pose proof (Peek_found (ARCCache.t1 c) k) as H.
  destruct (LRU.Peek (ARCCache.t1 c) k) as [val ok].
  simpl in H. subst ok. now destruct (LRU.contains (ARCCache.t1 c) k).
Qed.

Lemma arc_Get_T1 c k :
  LRU.contains (ARCCache.t1 c) k = true ->
  ARCCache.Get c k
  = (ARCCache.mk (ARCCache.size c) (ARCCache.p c)
       (LRU.Remove (ARCCache.t1 c) k) (ARCCache.b1 c)
       (LRU.Put (ARCCache.t2 c) k (fst (LRU.Peek (ARCCache.t1 c) k)))
       (ARCCache.b2 c),
     (fst (LRU.Peek (ARCCache.t1 c) k), true)).
Proof.
  intros H. unfold ARCCache.Get.
  pose proof (Peek_found (ARCCache.t1 c) k) as Hp.
  destruct (LRU.Peek (ARCCache.t1 c) k) as [val ok].
  simpl in *. rewrite H in Hp. now subst ok.
Qed.

Lemma arc_Get_not_T1 c k :
  LRU.contains (ARCCache.t1 c) k = false ->
  ARCCache.Get c k
  = (if LRU.contains (ARCCache.t2 c) k
     then ARCCache.mk (ARCCache.size c) (ARCCache.p c) (ARCCache.t1 c)
            (ARCCache.b1 c) (fst (LRU.Get (ARCCache.t2 c) k))
            (ARCCache.b2 c)
     else c,
     LRU.Peek (ARCCache.t2 c) k).
Proof.
  intros H. unfold ARCCache.Get.
  pose proof (Peek_found (ARCCache.t1 c) k) as Hp.
  destruct (LRU.Peek (ARCCache.t1 c) k) as [val ok].
  simpl in Hp. rewrite H in Hp. subst ok.
  pose proof (Get_found (ARCCache.t2 c) k) as Hg.
  pose proof (Peek_Get (ARCCache.t2 c) k) as Hpg.
  destruct (LRU.Get (ARCCache.t2 c) k) as [t2' [val' ok']].
  simpl in *. subst ok'.
  destruct (LRU.contains (ARCCache.t2 c) k) eqn:E.
  - now rewrite <- Hpg.
  - now rewrite Peek_absent.
Qed.

Lemma arc_Get_result c k : snd (ARCCache.Get c k) = ARCCache.Peek c k.
Proof.
  rewrite arc_Peek_unfold.
  destruct (LRU.contains (ARCCache.t1 c) k) eqn:H1.
  - rewrite arc_Get_T1 by assumption. simpl.
    pose proof (Peek_found (ARCCache.t1 c) k) as Hp.
    destruct (LRU.Peek (ARCCache.t1 c) k) as [val ok].
    simpl in *. congruence.
  - now rewrite arc_Get_not_T1.
Qed.

Lemma replace_ghost_nil c (b : bool) :
  Forall (fun e => Value e = None) (LRU.evictList (ARCCache.b1 c)) ->
  Forall (fun e => Value e = None) (LRU.evictList (ARCCache.b2 c)) ->
  Forall (fun e => Value e = None)
    (LRU.evictList (ARCCache.b1 (ARCCache.replace c b)))
  /\ Forall (fun e => Value e = None)
       (LRU.evictList (ARCCache.b2 (ARCCache.replace c b))).
Proof.
  intros H1 H2. unfold ARCCache.replace, LRU.GetAndRemoveOldest.
  destruct (_ && _).
  - destruct (LRU.getAndRemoveOldest _) as [t' [[k0 v0] []]]; simpl;
      auto using Put_Forall.
  - destruct (LRU.getAndRemoveOldest _) as [t' [[k0 v0] []]]; simpl;
      auto using Put_Forall.
Qed.

Lemma makeRoom_ghost_nil c (b : bool) :
  Forall (fun e => Value e = None) (LRU.evictList (ARCCache.b1 c)) ->
  Forall (fun e => Value e = None) (LRU.evictList (ARCCache.b2 c)) ->
  Forall (fun e => Value e = None)
    (LRU.evictList (ARCCache.b1 (ARCCache.makeRoom c b)))
  /\ Forall (fun e => Value e = None)
       (LRU.evictList (ARCCache.b2 (ARCCache.makeRoom c b))).
Proof.
  intros H1 H2. unfold ARCCache.makeRoom.
  destruct (_ >=? _); [now apply replace_ghost_nil|auto].
Qed.

Lemma trim_Forall (P : Item V -> Prop) (cond : bool) (b : LRU.t V) :
  Forall P (LRU.evictList b) ->
  Forall P (LRU.evictList (if cond then LRU.RemoveOldest b else b)).
Proof. destruct cond; [apply removeOldest_Forall|auto]. Qed.

Lemma arc_exec_ghost_nil c (o : op V) c' :
  arc_exec c o = Some c' ->
  Forall (fun e => Value e = None) (LRU.evictList (ARCCache.b1 c)) ->
  Forall (fun e => Value e = None) (LRU.evictList (ARCCache.b2 c)) ->
  Forall (fun e => Value e = None) (LRU.evictList (ARCCache.b1 c'))
  /\ Forall (fun e => Value e = None) (LRU.evictList (ARCCache.b2 c')).
Proof.
  intros E H1 H2. destruct o; simpl in E;
    try (injection E as <-; simpl; now auto).
  - injection E as <-. unfold ARCCache.Get.
    destruct (LRU.Peek _ k) as [val []]; [simpl; auto|].
    destruct (LRU.Get _ k) as [t' [val' []]]; simpl; auto.
  - unfold ARCCache.Put in E.
    destruct (LRU.Contains (ARCCache.t1 c) k);
      [injection E as <-; simpl; now auto|].
    destruct (LRU.Contains (ARCCache.t2 c) k);
      [injection E as <-; simpl; now auto|].
    destruct (LRU.Contains (ARCCache.b1 c) k).
    { destruct (ARCCache.deltaB1 c) as [delta|]; [|discriminate].
      injection E as <-. cbv zeta. simpl.
      set (c1 := ARCCache.mk _ _ _ _ _ _).
      destruct (makeRoom_ghost_nil c1 false) as [G1 G2]; auto.
      split; [now apply Remove_Forall|assumption]. }
    destruct (LRU.Contains (ARCCache.b2 c) k).
    { destruct (ARCCache.deltaB2 c) as [delta|]; [|discriminate].
      injection E as <-. cbv zeta. simpl.
      set (c1 := ARCCache.mk _ _ _ _ _ _).
      destruct (makeRoom_ghost_nil c1 true) as [G1 G2]; auto.
      split; [assumption|now apply Remove_Forall]. }
    injection E as <-. cbv zeta. simpl.
    destruct (makeRoom_ghost_nil c false) as [G1 G2]; auto.
    split; now apply trim_Forall.
  - injection E as <-. unfold ARCCache.Remove, LRU.RemoveB.
    rewrite !removeIfExist_spec.
    destruct (LRU.contains (ARCCache.t1 c) k); [simpl; auto|].
    destruct (LRU.contains (ARCCache.t2 c) k); [simpl; auto|].
    destruct (LRU.contains (ARCCache.b1 c) k); simpl;
      auto using Remove_Forall.
Qed.

Lemma arc_run_ghost_nil (ops : list (op V)) : forall c c',
  arc_run c ops = Some c' ->
  Forall (fun e => Value e = None) (LRU.evictList (ARCCache.b1 c)) ->
  Forall (fun e => Value e = None) (LRU.evictList (ARCCache.b2 c)) ->
  Forall (fun e => Value e = None) (LRU.evictList (ARCCache.b1 c'))
  /\ Forall (fun e => Value e = None) (LRU.evictList (ARCCache.b2 c')).
Proof.
  induction ops as [|o ops IH]; intros c c' E H1 H2; simpl in E.
  - injection E as <-. auto.
  - destruct (arc_exec c o) as [c1|] eqn:E1; [|discriminate].
    destruct (arc_exec_ghost_nil _ _ _ E1 H1 H2) as [G1 G2].
    now apply (IH c1).
Qed.

End ARCBehaviour.

Section ARCPlacement.

Context {V : Type}.

Implicit Types (c : ARCCache.t V) (k : key) (v : any V).

Lemma replace_caps c (b : bool) :
  LRU.size (ARCCache.b1 (ARCCache.replace c b)) = LRU.size (ARCCache.b1 c)
  /\ LRU.size (ARCCache.b2 (ARCCache.replace c b))
     = LRU.size (ARCCache.b2 c).
Proof.
  unfold ARCCache.replace, LRU.GetAndRemoveOldest.
  destruct (_ && _);
    destruct (LRU.getAndRemoveOldest _) as [t' [[k0 v0] []]]; simpl;
    rewrite ?Put_size; auto.
Qed.

Lemma makeRoom_caps c (b : bool) :
  LRU.size (ARCCache.b1 (ARCCache.makeRoom c b)) = LRU.size (ARCCache.b1 c)
  /\ LRU.size (ARCCache.b2 (ARCCache.makeRoom c b))
     = LRU.size (ARCCache.b2 c).
Proof.
  unfold ARCCache.makeRoom. destruct (_ >=? _); [apply replace_caps|auto].
Qed.

Lemma trim_size (cond : bool) (b : LRU.t V) :
  LRU.size (if cond then LRU.RemoveOldest b else b) = LRU.size b.
Proof. destruct cond; [apply removeOldest_size|reflexivity]. Qed.

Lemma arc_exec_caps c (o : op V) c' :
  arc_exec c o = Some c' ->
  LRU.size (ARCCache.b1 c') = LRU.size (ARCCache.b1 c)
  /\ LRU.size (ARCCache.b2 c') = LRU.size (ARCCache.b2 c).
Proof.
  intros E. destruct o; simpl in E;
    try (injection E as <-; simpl; now auto).
  - injection E as <-. unfold ARCCache.Get.
    destruct (LRU.Peek _ k) as [val []]; [simpl; auto|].
    destruct (LRU.Get _ k) as [t' [val' []]]; simpl; auto.
  - unfold ARCCache.Put in E.
    destruct (LRU.Contains (ARCCache.t1 c) k);
      [injection E as <-; simpl; now auto|].
    destruct (LRU.Contains (ARCCache.t2 c) k);
      [injection E as <-; simpl; now auto|].
    destruct (LRU.Contains (ARCCache.b1 c) k).
    { destruct (ARCCache.deltaB1 c) as [delta|]; [|discriminate].
      injection E as <-. cbv zeta. simpl.
      set (c1 := ARCCache.mk _ _ _ _ _ _).
      destruct (makeRoom_caps c1 false) as [G1 G2].
      rewrite Remove_size. auto. }
    destruct (LRU.Contains (ARCCache.b2 c) k).
    { destruct (ARCCache.deltaB2 c) as [delta|]; [|discriminate].
      injection E as <-. cbv zeta. simpl.
      set (c1 := ARCCache.mk _ _ _ _ _ _).
      destruct (makeRoom_caps c1 true) as [G1 G2].
      rewrite Remove_size. auto. }
    injection E as <-. cbv zeta. simpl.
    destruct (makeRoom_caps c false) as [G1 G2].
    rewrite !trim_size. auto.
  - injection E as <-. unfold ARCCache.Remove, LRU.RemoveB.
    rewrite !removeIfExist_spec.
    destruct (LRU.contains (ARCCache.t1 c) k); [simpl; auto|].
    destruct (LRU.contains (ARCCache.t2 c) k); [simpl; auto|].
    destruct (LRU.contains (ARCCache.b1 c) k); simpl;
      rewrite ?Remove_size; auto.
Qed.

Lemma arc_run_caps (ops : list (op V)) : forall c c',
  arc_run c ops = Some c' ->
  LRU.size (ARCCache.b1 c') = LRU.size (ARCCache.b1 c)
  /\ LRU.size (ARCCache.b2 c') = LRU.size (ARCCache.b2 c).
Proof.
  induction ops as [|o ops IH]; intros c c' E; simpl in E.
  - injection E as <-. auto.
  - destruct (arc_exec c o) as [c1|] eqn:E1; [|discriminate].
    destruct (arc_exec_caps _ _ _ E1) as [G1 G2].
    destruct (IH _ _ E) as [H1 H2]. split; congruence.
Qed.

Lemma makeRoom_t2_inv c (b : bool) :
  lru_inv (ARCCache.t2 c) -> lru_inv (ARCCache.t2 (ARCCache.makeRoom c b)).
Proof.
  intros I. unfold ARCCache.makeRoom. destruct (_ >=? _); [|assumption].
  unfold ARCCache.replace, LRU.GetAndRemoveOldest.
  destruct (_ && _).
  - now destruct (LRU.getAndRemoveOldest (ARCCache.t1 c))
      as [t' [[k0 v0] []]].
  - pose proof (getAndRemoveOldest_fst (ARCCache.t2 c)) as Hf.
    destruct (LRU.getAndRemoveOldest (ARCCache.t2 c))
      as [t' [[k0 v0] []]]; simpl in *; subst t';
      now apply lru_inv_removeOldest.
Qed.

(** Where [Put] leaves the key: in [T1] when it was seen nowhere, in
    [T2] otherwise, with the value written. *)
Lemma arc_Put_lands c k v c' :
  arc_inv c -> ARCCache.Put c k v = Some c' ->
  if LRU.contains (ARCCache.t1 c) k || LRU.contains (ARCCache.t2 c) k
     || LRU.contains (ARCCache.b1 c) k || LRU.contains (ARCCache.b2 c) k
  then LRU.Peek (ARCCache.t2 c') k = (v, true)
  else LRU.Peek (ARCCache.t1 c') k = (v, true)
       /\ ARCCache.p c' = ARCCache.p c.
Proof.
  intros I. unfold ARCCache.Put, LRU.Contains.
  destruct (LRU.contains (ARCCache.t1 c) k) eqn:H1.
  { intros E. injection E as <-. simpl.
    apply Peek_Put_same, (arc_t2 _ I). }
  destruct (LRU.contains (ARCCache.t2 c) k) eqn:H2.
  { intros E. injection E as <-. simpl.
    apply Peek_Put_same, (arc_t2 _ I). }
  destruct (LRU.contains (ARCCache.b1 c) k) eqn:H3.
  { destruct (ARCCache.deltaB1 c) as [delta|]; [|discriminate].
    intros E. injection E as <-. cbv zeta. simpl.
    apply Peek_Put_same, makeRoom_t2_inv. simpl. apply (arc_t2 _ I). }
  destruct (LRU.contains (ARCCache.b2 c) k) eqn:H4.
  { destruct (ARCCache.deltaB2 c) as [delta|]; [|discriminate].
    intros E. injection E as <-. cbv zeta. simpl.
    apply Peek_Put_same, makeRoom_t2_inv. simpl. apply (arc_t2 _ I). }
  intros E. injection E as <-. cbv zeta. simpl.
  destruct (makeRoom_inv c false I) as (I1 & _ & Hp & _).
  split; [apply Peek_Put_same, (arc_t1 _ I1)|exact Hp].
Qed.

End ARCPlacement.

(** X16.  On an ARC cache reached from [NewARC], no key is held twice:
    the keys of [T1], [T2], [B1] and [B2] taken together are pairwise
    distinct.  Each of the four lists holds at most [size] entries, so
    [Len()] is at most twice the size, and every entry of a ghost list has
    a nil value. *)
Theorem arc_keys_partition (V : Type) (size : Z) (c0 c : ARCCache.t V)
    (ops : list (op V)) :
  ARCCache.NewARC V size = Ok c0 ->
  arc_run c0 ops = Some c ->
  ARCCache.size c = size
  /\ NoDup (keys (ARCCache.t1 c) ++ keys (ARCCache.t2 c)
            ++ keys (ARCCache.b1 c) ++ keys (ARCCache.b2 c))
  /\ LRU.Len (ARCCache.t1 c) <= size
  /\ LRU.Len (ARCCache.t2 c) <= size
  /\ LRU.Len (ARCCache.b1 c) <= size
  /\ LRU.Len (ARCCache.b2 c) <= size
  /\ ARCCache.Len c <= 2 * size
  /\ Forall (fun e => Value e = None) (LRU.evictList (ARCCache.b1 c))
  /\ Forall (fun e => Value e = None) (LRU.evictList (ARCCache.b2 c)).
Proof.
  intros Hnew Hrun.
  destruct (arc_reachable_inv size c0 ops c Hnew Hrun) as [I Hs].
  destruct (arc_run_caps ops c0 c Hrun) as [Hc1 Hc2].
  destruct (NewARC_inv _ _ Hnew) as (_ & _ & Hpos).
  rewrite (NewARC_ok size Hpos) in Hnew. injection Hnew as <-.
  simpl in Hc1, Hc2.
  destruct (arc_run_ghost_nil ops _ c Hrun) as [G1 G2];
    [constructor|constructor|].
  pose proof I as [Hp I1 Ib1 I2 Ib2 C1 C2 D12 D1b1 D1b2 D2b1 D2b2 Db].
  pose proof (lru_len _ I1). pose proof (lru_len _ I2).
  pose proof (lru_len _ Ib1). pose proof (lru_len _ Ib2).
  split; [exact Hs|]. split.
  { apply NoDup_app; [apply (lru_nodup _ I1)| |].
    - apply NoDup_app; [apply (lru_nodup _ I2)| |].
      + apply NoDup_app;
          [apply (lru_nodup _ Ib1)|apply (lru_nodup _ Ib2)|].
        intros k Ha Hb. now apply (Db k).
      + intros k Ha Hb. apply in_app_or in Hb as [Hb|Hb].
        * now apply (D2b1 k).
        * now apply (D2b2 k).
    - intros k Ha Hb. apply in_app_or in Hb as [Hb|Hb].
      + now apply (D12 k).
      + apply in_app_or in Hb as [Hb|Hb].
        * now apply (D1b1 k).
        * now apply (D1b2 k). }
  unfold ARCCache.Len. repeat split; try assumption; lia.
Qed.

Lemma arc_keys_partition_witness :
  let c0 : ARCCache.t nat :=
    ARCCache.mk 2 0 (LRU.mk 2 []) (LRU.mk 2 []) (LRU.mk 2 []) (LRU.mk 2 []) in
  let c : ARCCache.t nat :=
    ARCCache.mk 2 1
      (LRU.mk 2 [mkItem 4%N (Some 40%nat)]) (LRU.mk 2 [mkItem 2%N None])
      (LRU.mk 2 [mkItem 3%N (Some 30%nat)]) (LRU.mk 2 [mkItem 1%N None]) in
  ARCCache.size c = 2
  /\ NoDup (keys (ARCCache.t1 c) ++ keys (ARCCache.t2 c)
            ++ keys (ARCCache.b1 c) ++ keys (ARCCache.b2 c))
  /\ LRU.Len (ARCCache.t1 c) <= 2
  /\ LRU.Len (ARCCache.t2 c) <= 2
  /\ LRU.Len (ARCCache.b1 c) <= 2
  /\ LRU.Len (ARCCache.b2 c) <= 2
  /\ ARCCache.Len c <= 2 * 2
  /\ Forall (fun e => Value e = None) (LRU.evictList (ARCCache.b1 c))
  /\ Forall (fun e => Value e = None) (LRU.evictList (ARCCache.b2 c)).
Proof.
  intros c0 c.
  exact (arc_keys_partition nat 2 c0 c
           [OpPut 1%N (Some 10%nat); OpPut 2%N (Some 20%nat);
            OpPut 3%N (Some 30%nat); OpPut 1%N (Some 11%nat);
            OpGet 3%N; OpPut 4%N (Some 40%nat)]
           eq_refl eq_refl).
Defined.

(** X17.  On an ARC cache reached from [NewARC], a [Put] succeeds and is
    seen by the next lookup: [Peek] and [Get] both report the value just
    written, and the key is in neither ghost list. *)
Theorem arc_put_then_lookup (V : Type) (size : Z) (c0 c : ARCCache.t V)
    (ops : list (op V)) (k : key) (v : any V) :
  ARCCache.NewARC V size = Ok c0 ->
  arc_run c0 ops = Some c ->
  exists c',
    ARCCache.Put c k v = Some c'
    /\ ARCCache.Peek c' k = (v, true)
    /\ snd (ARCCache.Get c' k) = (v, true)
    /\ LRU.contains (ARCCache.b1 c') k = false
    /\ LRU.contains (ARCCache.b2 c') k = false.
Proof.
  intros Hnew Hrun.
  destruct (arc_reachable_inv size c0 ops c Hnew Hrun) as [I _].
  destruct (arc_Put_defined c k v) as [c' E]. exists c'.
  destruct (arc_inv_Put c k v c' I E) as [I' _].
  pose proof (arc_Put_lands c k v c' I E) as Hl.
  assert (Hpeek : ARCCache.Peek c' k = (v, true)
                  /\ (In k (keys (ARCCache.t1 c'))
                      \/ In k (keys (ARCCache.t2 c')))).
  { rewrite arc_Peek_unfold.
    destruct (_ || _).
    - assert (H2 : In k (keys (ARCCache.t2 c'))).
      { apply contains_true. rewrite <- Peek_found, Hl. reflexivity. }
      replace (LRU.contains (ARCCache.t1 c') k) with false; [auto|].
      symmetry. apply contains_false. intros H1.
      now apply (arc_t1_t2 _ I' k).
    - destruct Hl as [Hl _].
      assert (H1 : LRU.contains (ARCCache.t1 c') k = true).
      { rewrite <- Peek_found, Hl. reflexivity. }
      rewrite H1. split; [assumption|]. left. now apply contains_true. }
  destruct Hpeek as [Hpeek Hin].
  split; [exact E|]. split; [exact Hpeek|].
  split; [now rewrite arc_Get_result|].
  split; apply contains_false; intros Hb; destruct Hin as [H|H].
  - now apply (arc_t1_b1 _ I' k).
  - now apply (arc_t2_b1 _ I' k).
  - now apply (arc_t1_b2 _ I' k).
  - now apply (arc_t2_b2 _ I' k).
Qed.

Lemma arc_put_then_lookup_witness :
  let c0 : ARCCache.t nat :=
    ARCCache.mk 2 0 (LRU.mk 2 []) (LRU.mk 2 []) (LRU.mk 2 []) (LRU.mk 2 []) in
  let c : ARCCache.t nat :=
    ARCCache.mk 2 1
      (LRU.mk 2 [mkItem 4%N (Some 40%nat)]) (LRU.mk 2 [mkItem 2%N None])
      (LRU.mk 2 [mkItem 3%N (Some 30%nat)]) (LRU.mk 2 [mkItem 1%N None]) in
  exists c',
    ARCCache.Put c 2%N (Some 21%nat) = Some c'
    /\ ARCCache.Peek c' 2%N = (Some 21%nat, true)
    /\ snd (ARCCache.Get c' 2%N) = (Some 21%nat, true)
    /\ LRU.contains (ARCCache.b1 c') 2%N = false
    /\ LRU.contains (ARCCache.b2 c') 2%N = false.
Proof.
  intros c0 c.
  exact (arc_put_then_lookup nat 2 c0 c
           [OpPut 1%N (Some 10%nat); OpPut 2%N (Some 20%nat);
            OpPut 3%N (Some 30%nat); OpPut 1%N (Some 11%nat);
            OpGet 3%N; OpPut 4%N (Some 40%nat)]
           2%N (Some 21%nat) eq_refl eq_refl).
Defined.

(** X18.  On an ARC cache reached from [NewARC], [Put] places a key seen
    in none of the four lists in [T1], leaving [p] as it was, and a key
    held by [T1], [T2], [B1] or [B2] in [T2] and not in [T1]: a second
    write or a ghost hit counts as frequent use. *)
Theorem arc_put_placement (V : Type) (size : Z) (c0 c : ARCCache.t V)
    (ops : list (op V)) (k : key) (v : any V) :
  ARCCache.NewARC V size = Ok c0 ->
  arc_run c0 ops = Some c ->
  exists c',
    ARCCache.Put c k v = Some c'
    /\ if LRU.contains (ARCCache.t1 c) k || LRU.contains (ARCCache.t2 c) k
          || LRU.contains (ARCCache.b1 c) k
          || LRU.contains (ARCCache.b2 c) k
       then LRU.Peek (ARCCache.t2 c') k = (v, true)
            /\ LRU.contains (ARCCache.t1 c') k = false
       else LRU.Peek (ARCCache.t1 c') k = (v, true)
            /\ LRU.contains (ARCCache.t2 c') k = false
            /\ ARCCache.p c' = ARCCache.p c.
Proof.
  intros Hnew Hrun.
  destruct (arc_reachable_inv size c0 ops c Hnew Hrun) as [I _].
  destruct (arc_Put_defined c k v) as [c' E]. exists c'.
  destruct (arc_inv_Put c k v c' I E) as [I' _].
  pose proof (arc_Put_lands c k v c' I E) as Hl.
  split; [exact E|].
  destruct (_ || _).
  - split; [exact Hl|].
    assert (H2 : In k (keys (ARCCache.t2 c'))).
    { apply contains_true. rewrite <- Peek_found, Hl. reflexivity. }
    apply contains_false. intros H1. now apply (arc_t1_t2 _ I' k).
  - destruct Hl as [Hl Hp]. split; [exact Hl|]. split; [|exact Hp].
    assert (H1 : In k (keys (ARCCache.t1 c'))).
    { apply contains_true. rewrite <- Peek_found, Hl. reflexivity. }
    apply contains_false. now apply (arc_t1_t2 _ I' k).
Qed.

Lemma arc_put_placement_witness :
  let c0 : ARCCache.t nat :=
    ARCCache.mk 2 0 (LRU.mk 2 []) (LRU.mk 2 []) (LRU.mk 2 []) (LRU.mk 2 []) in
  let c : ARCCache.t nat :=
    ARCCache.mk 2 1
      (LRU.mk 2 [mkItem 4%N (Some 40%nat)]) (LRU.mk 2 [mkItem 2%N None])
      (LRU.mk 2 [mkItem 3%N (Some 30%nat)]) (LRU.mk 2 [mkItem 1%N None]) in
  exists c',
    ARCCache.Put c 5%N (Some 50%nat) = Some c'
    /\ LRU.Peek (ARCCache.t1 c') 5%N = (Some 50%nat, true)
    /\ LRU.contains (ARCCache.t2 c') 5%N = false
    /\ ARCCache.p c' = ARCCache.p c.
Proof.
  intros c0 c.
  exact (arc_put_placement nat 2 c0 c
           [OpPut 1%N (Some 10%nat); OpPut 2%N (Some 20%nat);
            OpPut 3%N (Some 30%nat); OpPut 1%N (Some 11%nat);
            OpGet 3%N; OpPut 4%N (Some 40%nat)]
           5%N (Some 50%nat) eq_refl eq_refl).
Defined.

(** X19.  On an ARC cache reached from [NewARC], [Get] returns what
    [Peek] returns, leaves [p] and both ghost lists untouched, and still
    finds the key afterwards with the same value; a key found in [T1] is
    moved to [T2], and otherwise [T1] is unchanged and every lookup in
    [T2] gives what it gave before. *)
Theorem arc_get_behaviour (V : Type) (size : Z) (c0 c : ARCCache.t V)
    (ops : list (op V)) (k : key) :
  ARCCache.NewARC V size = Ok c0 ->
  arc_run c0 ops = Some c ->
  let c' := fst (ARCCache.Get c k) in
  snd (ARCCache.Get c k) = ARCCache.Peek c k
  /\ ARCCache.p c' = ARCCache.p c
  /\ ARCCache.b1 c' = ARCCache.b1 c
  /\ ARCCache.b2 c' = ARCCache.b2 c
  /\ ARCCache.Peek c' k = ARCCache.Peek c k
  /\ if LRU.contains (ARCCache.t1 c) k then
       LRU.contains (ARCCache.t1 c') k = false
       /\ LRU.Peek (ARCCache.t2 c') k = ARCCache.Peek c k
     else
       ARCCache.t1 c' = ARCCache.t1 c
       /\ forall k', LRU.Peek (ARCCache.t2 c') k'
                     = LRU.Peek (ARCCache.t2 c) k'.
Proof.
  intros Hnew Hrun c'.
  destruct (arc_reachable_inv size c0 ops c Hnew Hrun) as [I _].
  split; [apply arc_Get_result|].
  unfold c'. rewrite !arc_Peek_unfold.
  destruct (LRU.contains (ARCCache.t1 c) k) eqn:H1.
  - rewrite arc_Get_T1 by assumption. simpl.
    assert (Hgone : LRU.contains (LRU.Remove (ARCCache.t1 c) k) k = false).
    { apply contains_false, Remove_gone, (lru_nodup _ (arc_t1 _ I)). }
    assert (Hval : LRU.Peek
                     (LRU.Put (ARCCache.t2 c) k
                        (fst (LRU.Peek (ARCCache.t1 c) k))) k
                   = LRU.Peek (ARCCache.t1 c) k).
    { rewrite Peek_Put_same by apply (arc_t2 _ I).
      pose proof (Peek_found (ARCCache.t1 c) k) as Hp.
      destruct (LRU.Peek (ARCCache.t1 c) k) as [val ok].
      simpl in *. congruence. }
    rewrite Hgone. repeat split; auto.
  - rewrite arc_Get_not_T1 by assumption. simpl.
    destruct (LRU.contains (ARCCache.t2 c) k) eqn:H2; simpl.
    + rewrite H1. rewrite Peek_after_Get.
      repeat split; auto. intros k'. apply Peek_after_Get.
    + rewrite H1. repeat split; auto.
Qed.

Lemma arc_get_behaviour_witness :
  let c0 : ARCCache.t nat :=
    ARCCache.mk 2 0 (LRU.mk 2 []) (LRU.mk 2 []) (LRU.mk 2 []) (LRU.mk 2 []) in
  let c : ARCCache.t nat :=
    ARCCache.mk 2 1
      (LRU.mk 2 [mkItem 4%N (Some 40%nat)]) (LRU.mk 2 [mkItem 2%N None])
      (LRU.mk 2 [mkItem 3%N (Some 30%nat)]) (LRU.mk 2 [mkItem 1%N None]) in
  let c' := fst (ARCCache.Get c 4%N) in
  snd (ARCCache.Get c 4%N) = ARCCache.Peek c 4%N
  /\ ARCCache.p c' = ARCCache.p c
  /\ ARCCache.b1 c' = ARCCache.b1 c
  /\ ARCCache.b2 c' = ARCCache.b2 c
  /\ ARCCache.Peek c' 4%N = ARCCache.Peek c 4%N
  /\ LRU.contains (ARCCache.t1 c') 4%N = false
  /\ LRU.Peek (ARCCache.t2 c') 4%N = ARCCache.Peek c 4%N.
Proof.
  intros c0 c.
  exact (arc_get_behaviour nat 2 c0 c
           [OpPut 1%N (Some 10%nat); OpPut 2%N (Some 20%nat);
            OpPut 3%N (Some 30%nat); OpPut 1%N (Some 11%nat);
            OpGet 3%N; OpPut 4%N (Some 40%nat)]
           4%N eq_refl eq_refl).
Defined.

(** X20.  On an ARC cache reached from [NewARC], [Remove] of [k] leaves
    [k] in none of the four lists and [p] as it was, changes no lookup of
    another key, and a second [Remove] of [k] changes nothing. *)
Theorem arc_remove_behaviour (V : Type) (size : Z) (c0 c : ARCCache.t V)
    (ops : list (op V)) (k : key) :
  ARCCache.NewARC V size = Ok c0 ->
  arc_run c0 ops = Some c ->
  let c' := ARCCache.Remove c k in
  ARCCache.p c' = ARCCache.p c
  /\ LRU.contains (ARCCache.t1 c') k = false
  /\ LRU.contains (ARCCache.t2 c') k = false
  /\ LRU.contains (ARCCache.b1 c') k = false
  /\ LRU.contains (ARCCache.b2 c') k = false
  /\ ARCCache.Peek c' k = (None, false)
  /\ (forall k', k' <> k -> ARCCache.Peek c' k' = ARCCache.Peek c k')
  /\ ARCCache.Remove c' k = c'.
Proof.
  intros Hnew Hrun c'.
  destruct (arc_reachable_inv size c0 ops c Hnew Hrun) as [I _].
  pose proof I as [Hp I1 Ib1 I2 Ib2 C1 C2 D12 D1b1 D1b2 D2b1 D2b2 Db].
  assert (Hcases :
    ARCCache.p c' = ARCCache.p c
    /\ LRU.contains (ARCCache.t1 c') k = false
    /\ LRU.contains (ARCCache.t2 c') k = false
    /\ LRU.contains (ARCCache.b1 c') k = false
    /\ LRU.contains (ARCCache.b2 c') k = false
    /\ forall k', k' <> k ->
         LRU.Peek (ARCCache.t1 c') k' = LRU.Peek (ARCCache.t1 c) k'
         /\ LRU.Peek (ARCCache.t2 c') k' = LRU.Peek (ARCCache.t2 c) k').
  { unfold c', ARCCache.Remove, LRU.RemoveB. rewrite !removeIfExist_spec.
    destruct (LRU.contains (ARCCache.t1 c) k) eqn:H1.
    { simpl. apply contains_true in H1.
      split; [reflexivity|].
      split; [apply contains_false, Remove_gone, (lru_nodup _ I1)|].
      split; [apply contains_false; now apply D12|].
      split; [apply contains_false; now apply D1b1|].
      split; [apply contains_false; now apply D1b2|].
      intros k' Hne. split; [now apply Peek_after_Remove|reflexivity]. }
    destruct (LRU.contains (ARCCache.t2 c) k) eqn:H2.
    { simpl. apply contains_true in H2.
      split; [reflexivity|]. split; [assumption|].
      split; [apply contains_false, Remove_gone, (lru_nodup _ I2)|].
      split; [apply contains_false; now apply D2b1|].
      split; [apply contains_false; now apply D2b2|].
      intros k' Hne. split; [reflexivity|now apply Peek_after_Remove]. }
    destruct (LRU.contains (ARCCache.b1 c) k) eqn:H3.
    { simpl. apply contains_true in H3.
      split; [reflexivity|]. split; [assumption|]. split; [assumption|].
      split; [apply contains_false, Remove_gone, (lru_nodup _ Ib1)|].
      split; [apply contains_false; now apply Db|]. auto. }
    simpl. split; [reflexivity|]. split; [assumption|].
    split; [assumption|]. split; [assumption|].
    split; [apply contains_false, Remove_gone, (lru_nodup _ Ib2)|]. auto. }
  destruct Hcases as (Hp' & H1 & H2 & H3 & H4 & Hother).
  split; [exact Hp'|]. split; [exact H1|]. split; [exact H2|].
  split; [exact H3|]. split; [exact H4|]. split.
  { rewrite arc_Peek_unfold, H1. now apply Peek_absent. }
  split.
  { intros k' Hne. destruct (Hother k' Hne) as [E1 E2].
    rewrite !arc_Peek_unfold, <- !Peek_found, E1, E2. reflexivity. }
  unfold ARCCache.Remove, LRU.RemoveB. rewrite !removeIfExist_spec.
  rewrite H1, H2, H3. rewrite Remove_absent by assumption.
  now destruct c'.
Qed.

Lemma arc_remove_behaviour_witness :
  let c0 : ARCCache.t nat :=
    ARCCache.mk 2 0 (LRU.mk 2 []) (LRU.mk 2 []) (LRU.mk 2 []) (LRU.mk 2 []) in
  let c : ARCCache.t nat :=
    ARCCache.mk 2 1
      (LRU.mk 2 [mkItem 4%N (Some 40%nat)]) (LRU.mk 2 [mkItem 2%N None])
      (LRU.mk 2 [mkItem 3%N (Some 30%nat)]) (LRU.mk 2 [mkItem 1%N None]) in
  let c' := ARCCache.Remove c 2%N in
  ARCCache.p c' = ARCCache.p c
  /\ LRU.contains (ARCCache.t1 c') 2%N = false
  /\ LRU.contains (ARCCache.t2 c') 2%N = false
  /\ LRU.contains (ARCCache.b1 c') 2%N = false
  /\ LRU.contains (ARCCache.b2 c') 2%N = false
  /\ ARCCache.Peek c' 2%N = (None, false)
  /\ (forall k', k' <> 2%N -> ARCCache.Peek c' k' = ARCCache.Peek c k')
  /\ ARCCache.Remove c' 2%N = c'.
Proof.
  intros c0 c.
  exact (arc_remove_behaviour nat 2 c0 c
           [OpPut 1%N (Some 10%nat); OpPut 2%N (Some 20%nat);
            OpPut 3%N (Some 30%nat); OpPut 1%N (Some 11%nat);
            OpGet 3%N; OpPut 4%N (Some 40%nat)]
           2%N eq_refl eq_refl).
Defined.

(** X21.  On an ARC cache reached from [NewARC], [replace] never forgets
    a key: it leaves [p] alone, and either removes exactly one entry from
    [T1] or [T2], or changes nothing because it turned to an empty [T2];
    a key that leaves [T1] is then a nil-valued ghost in [B1], and a key
    that leaves [T2] a nil-valued ghost in [B2]. *)
Theorem arc_replace_behaviour (V : Type) (size : Z) (c0 c : ARCCache.t V)
    (ops : list (op V)) (b2ContainsKey : bool) :
  ARCCache.NewARC V size = Ok c0 ->
  arc_run c0 ops = Some c ->
  let c1 := ARCCache.replace c b2ContainsKey in
  ARCCache.p c1 = ARCCache.p c
  /\ (ARCCache.Len c1 = ARCCache.Len c - 1
      \/ (c1 = c /\ LRU.Len (ARCCache.t2 c) = 0))
  /\ (forall k, In k (keys (ARCCache.t1 c)) ->
        In k (keys (ARCCache.t1 c1))
        \/ LRU.Peek (ARCCache.b1 c1) k = (None, true))
  /\ (forall k, In k (keys (ARCCache.t2 c)) ->
        In k (keys (ARCCache.t2 c1))
        \/ LRU.Peek (ARCCache.b2 c1) k = (None, true)).
Proof.
  intros Hnew Hrun c1.
  destruct (arc_reachable_inv size c0 ops c Hnew Hrun) as [I _].
  unfold c1, ARCCache.replace, LRU.GetAndRemoveOldest, ARCCache.Len.
  destruct (_ && _) eqn:Hcond.
  - apply andb_true_iff in Hcond as [Hne _].
    rewrite Z.gtb_ltb in Hne. apply Z.ltb_lt in Hne.
    destruct (LRU.getAndRemoveOldest (ARCCache.t1 c))
      as [t1' [[k0 v0] ok]] eqn:Eg.
    pose proof (getAndRemoveOldest_fst (ARCCache.t1 c)) as Hfst.
    rewrite Eg in Hfst. simpl in Hfst.
    pose proof (fun k => getAndRemoveOldest_rest _ _ _ _ _ k Eg) as Hrest.
    apply getAndRemoveOldest_found in Eg as (-> & _ & _); [|lia].
    simpl. split; [reflexivity|]. split.
    { left. rewrite Hfst, removeOldest_Len by lia. lia. }
    split; [|auto]. intros k Hk.
    destruct (Hrest k Hk) as [->|H]; [right|now left].
    apply Peek_Put_same, (arc_b1 _ I).
  - destruct (LRU.getAndRemoveOldest (ARCCache.t2 c))
      as [t2' [[k0 v0] ok]] eqn:Eg.
    pose proof (getAndRemoveOldest_fst (ARCCache.t2 c)) as Hfst.
    rewrite Eg in Hfst. simpl in Hfst.
    pose proof (fun k => getAndRemoveOldest_rest _ _ _ _ _ k Eg) as Hrest.
    pose proof (Len_nonneg (ARCCache.t2 c)) as H0.
    destruct (Z.eq_dec (LRU.Len (ARCCache.t2 c)) 0) as [Hz|Hnz].
    + apply getAndRemoveOldest_empty in Eg as [-> ->]; [|assumption].
      simpl. split; [reflexivity|]. split; [|auto].
      right. split; [now destruct c|assumption].
    + apply getAndRemoveOldest_found in Eg as (-> & _ & _); [|lia].
      simpl. split; [reflexivity|]. split.
      { left. rewrite Hfst, removeOldest_Len by lia. lia. }
      split; [auto|]. intros k Hk.
      destruct (Hrest k Hk) as [->|H]; [right|now left].
      apply Peek_Put_same, (arc_b2 _ I).
Qed.

Lemma arc_replace_behaviour_witness :
  let c0 : ARCCache.t nat :=
    ARCCache.mk 2 0 (LRU.mk 2 []) (LRU.mk 2 []) (LRU.mk 2 []) (LRU.mk 2 []) in
  let c : ARCCache.t nat :=
    ARCCache.mk 2 1
      (LRU.mk 2 [mkItem 4%N (Some 40%nat)]) (LRU.mk 2 [mkItem 2%N None])
      (LRU.mk 2 [mkItem 3%N (Some 30%nat)]) (LRU.mk 2 [mkItem 1%N None]) in
  let c1 := ARCCache.replace c true in
  ARCCache.p c1 = ARCCache.p c
  /\ (ARCCache.Len c1 = ARCCache.Len c - 1
      \/ (c1 = c /\ LRU.Len (ARCCache.t2 c) = 0))
  /\ (forall k, In k (keys (ARCCache.t1 c)) ->
        In k (keys (ARCCache.t1 c1))
        \/ LRU.Peek (ARCCache.b1 c1) k = (None, true))
  /\ (forall k, In k (keys (ARCCache.t2 c)) ->
        In k (keys (ARCCache.t2 c1))
        \/ LRU.Peek (ARCCache.b2 c1) k = (None, true)).
Proof.
  intros c0 c.
  exact (arc_replace_behaviour nat 2 c0 c
           [OpPut 1%N (Some 10%nat); OpPut 2%N (Some 20%nat);
            OpPut 3%N (Some 30%nat); OpPut 1%N (Some 11%nat);
            OpGet 3%N; OpPut 4%N (Some 40%nat)]
           true eq_refl eq_refl).
Defined.

(** X22.  [Purge] returns a cache to the state its constructor built,
    for every size the constructor accepts: for the LRU container and
    the 2Q cache exactly, and for the ARC cache up to [p], which keeps
    the value it has learned.  Each cache is taken on its own: the LRU
    container and the ARC cache from capacity 1 on. *)
Theorem purge_restores_new (V : Type) (size : Z) (ops : list (op V))
    (l0 : LRU.t V) (q0 : TwoQueueCache.t V) (a0 a : ARCCache.t V) :
  (LRU.NewLRU V size = Ok l0 ->
   LRU.Purge (lru_run l0 ops) = l0)
  /\ (TwoQueueCache.NewTwoQueueCache V size = Ok q0 ->
      TwoQueueCache.Purge (twoq_run q0 ops) = q0)
  /\ (ARCCache.NewARC V size = Ok a0 ->
      arc_run a0 ops = Some a ->
      ARCCache.Purge a
      = ARCCache.mk (ARCCache.size a0) (ARCCache.p a)
          (ARCCache.t1 a0) (ARCCache.b1 a0)
          (ARCCache.t2 a0) (ARCCache.b2 a0)
      /\ ARCCache.Len (ARCCache.Purge a) = 0).
Proof.
  split; [|split].
  - intros Hl.
    destruct (lru_reachable_inv size l0 ops Hl) as [_ Hs].
    destruct (NewLRU_inv _ _ Hl) as (_ & -> & _).
    unfold LRU.Purge. now rewrite Hs.
  - intros Hq.
    destruct (twoq_reachable_inv size q0 ops Hq) as [I Hs].
    destruct (twoq_run_sizes ops q0) as (_ & Hrs & He).
    destruct (NewTwoQueueCache_inv _ _ Hq) as (I0 & Hs0 & _).
    unfold TwoQueueCache.Purge, LRU.Purge.
    rewrite Hs, Hrs, He, (tq_recent_cap _ I), (tq_frequent_cap _ I), Hs.
    unfold TwoQueueCache.NewTwoQueueCache,
      TwoQueueCache.newTowQueueParams, LRU.NewLRU in Hq.
    repeat match type of Hq with
           | (if ?b then _ else _) = _ => destruct b; [discriminate|]
           end.
    cbv zeta in Hq.
    repeat match type of Hq with
           | context [if ?b then _ else _] => destruct b; [discriminate|]
           end.
    injection Hq as <-. reflexivity.
  - intros Ha Hrun.
    destruct (arc_reachable_inv size a0 ops a Ha Hrun) as [I Hs].
    destruct (arc_run_caps ops a0 a Hrun) as [Hc1 Hc2].
    destruct (NewARC_inv _ _ Ha) as (_ & _ & Hpos).
    rewrite (NewARC_ok size Hpos) in Ha. injection Ha as <-.
    simpl in *. unfold ARCCache.Purge, LRU.Purge.
    rewrite Hs, Hc1, Hc2, (arc_t1_cap _ I), (arc_t2_cap _ I), Hs.
    split; reflexivity.
Qed.

Lemma purge_restores_new_witness :
  let ops := [OpPut 1%N (Some 10%nat); OpPut 2%N (Some 20%nat);
              OpPut 1%N (Some 11%nat)] in
  LRU.Purge (lru_run (LRU.mk 1 []) ops) = LRU.mk 1 []
  /\ TwoQueueCache.Purge
       (twoq_run (TwoQueueCache.mk 2 0 (LRU.mk 2 []) (LRU.mk 2 [])
                    (LRU.mk 1 [])) ops)
     = TwoQueueCache.mk 2 0 (LRU.mk 2 []) (LRU.mk 2 []) (LRU.mk 1 [])
  /\ ARCCache.Purge
       (ARCCache.mk 1 1 (LRU.mk 1 [mkItem 2%N (Some 20%nat)]) (LRU.mk 1 [])
          (LRU.mk 1 [mkItem 1%N (Some 11%nat)]) (LRU.mk 1 []))
     = ARCCache.mk 1 1 (LRU.mk 1 []) (LRU.mk 1 []) (LRU.mk 1 [])
         (LRU.mk 1 []).
Proof.
  intros ops.
  pose (q2 := TwoQueueCache.mk 2 0 (LRU.mk 2 []) (LRU.mk 2 [])
                (LRU.mk 1 (@nil (Item nat)))).
  pose (a1 := ARCCache.mk 1 0 (LRU.mk 1 []) (LRU.mk 1 []) (LRU.mk 1 [])
                (LRU.mk 1 (@nil (Item nat)))).
  pose (a := ARCCache.mk 1 1 (LRU.mk 1 [mkItem 2%N (Some 20%nat)])
               (LRU.mk 1 []) (LRU.mk 1 [mkItem 1%N (Some 11%nat)])
               (LRU.mk 1 [])).
  destruct (purge_restores_new nat 1 ops (LRU.mk 1 []) q2 a1 a)
    as (H1 & _ & H3).
  destruct (purge_restores_new nat 2 ops (LRU.mk 2 []) q2 a1 a)
    as (_ & H2 & _).
  split; [exact (H1 eq_refl)|]. split; [exact (H2 eq_refl)|].
  exact (proj1 (H3 eq_refl eq_refl)).
Defined.

(** ** Exact default capacities of the 2Q cache

    For sizes of at most 53 bits the conversion to [float64] and the
    product with a power of two involve no rounding. *)

Lemma digits2_pos_shift (k : positive) : forall x : positive,
  Zpos (digits2_pos (Pos.iter xO x k)) = Zpos (digits2_pos x) + Zpos k.
Proof.
  induction k as [|k IH] using Pos.peano_ind; intros x.
  - simpl. lia.
  - rewrite Pos.iter_succ. simpl digits2_pos. rewrite Pos2Z.inj_succ, IH. lia.
Qed.

Lemma iter_shr_1_shift (k : positive) : forall x : positive,
  iter_pos shr_1 k
    {| shr_m := Zpos (Pos.iter xO x k); shr_r := false; shr_s := false |}
  = {| shr_m := Zpos x; shr_r := false; shr_s := false |}.
Proof.
  induction k as [k IH|k IH|]; intros x; simpl; [| |reflexivity].
  - rewrite IH, IH. reflexivity.
  - rewrite IH, IH. reflexivity.
Qed.

Lemma binary_round_aux_shift (s : bool) (x : positive) (k e : Z) :
  Zpos (digits2_pos x) = 53 -> 0 <= k ->
  -1074 <= e + k <= 971 ->
  binary_round_aux 53 1024 s
    (Zpos (match k with Zpos d => Pos.iter xO x d | _ => x end)) e loc_Exact
  = S754_finite s x (e + k).
Proof.
  intros Hd Hk He. unfold binary_round_aux, shr_fexp, shr. simpl Zdigits2.
  assert (H2 : fexp 53 1024 (53 + (e + k)) - (e + k) = 0)
    by (unfold fexp, emin; lia).
  destruct k as [|d|d]; [| |lia].
  - rewrite Hd. rewrite Z.add_0_r in *. rewrite H2.
    cbn [shr_record_of_loc shr_m loc_of_shr_record round_nearest_even
         Zdigits2].
    rewrite Hd, H2. cbn [shr_record_of_loc shr_m].
    destruct (Z.leb_spec e (1024 - 53)); [reflexivity|lia].
  - rewrite digits2_pos_shift, Hd.
    replace (fexp 53 1024 (53 + Zpos d + e) - e) with (Zpos d)
      by (unfold fexp, emin; lia).
    cbn [shr_record_of_loc]. rewrite iter_shr_1_shift.
    cbn [shr_m loc_of_shr_record round_nearest_even Zdigits2].
    rewrite Hd, H2. cbn [shr_record_of_loc shr_m].
    destruct (Z.leb_spec (e + Zpos d) (1024 - 53)); [reflexivity|lia].
Qed.

Lemma shift_pos_value (d x : positive) :
  Zpos (Pos.iter xO x d) = Zpos x * 2 ^ Zpos d.
Proof.
  change (Pos.iter xO x d) with (Zpower.shift_pos d x).
  rewrite Zpower.shift_pos_correct, Zpower.Zpower_pos_nat.
  rewrite Zpower.Zpower_nat_Z, positive_nat_Z. ring.
Qed.

(** An integer of at most 53 bits converts without rounding: the result
    has a 53-bit mantissa and the integer's value. *)
Lemma of_int_exact (p : positive) :
  Zpos p < 2 ^ 53 ->
  exists (mz : positive) (ez : Z),
    Float64.of_int (Zpos p) = S754_finite false mz ez
    /\ Zpos (digits2_pos mz) = 53
    /\ -52 <= ez <= 0
    /\ Zpos mz = Zpos p * 2 ^ (- ez).
Proof.
  intros Hp.
  assert (Hd : 1 <= Zpos (digits2_pos p) <= 53)
    by (split; [lia|apply digits2_pos_le; lia]).
  unfold Float64.of_int, binary_normalize, binary_round, shl_align.
  replace (fexp Float64.prec Float64.emax (Zpos (digits2_pos p) + 0) - 0)
    with (Zpos (digits2_pos p) - 53)
    by (unfold fexp, emin, Float64.prec, Float64.emax; lia).
  unfold Float64.prec, Float64.emax.
  destruct (Zpos (digits2_pos p) - 53) as [|d|d] eqn:E; [|lia|].
  - exists p, 0.
    rewrite (binary_round_aux_shift false p 0 0) by lia.
    split; [reflexivity|]. split; [lia|]. split; [lia|]. simpl. lia.
  - pose proof (Pos2Z.neg_is_neg d) as Hneg.
    exists (Pos.iter xO p d), (Zpos (digits2_pos p) - 53).
    replace (fexp 53 1024 (Zpos (digits2_pos p) + 0))
      with (Zpos (digits2_pos p) - 53) by (unfold fexp, emin; lia).
    assert (Hdd : Zpos (digits2_pos (Pos.iter xO p d)) = 53).
    { rewrite digits2_pos_shift. lia. }
    rewrite (binary_round_aux_shift false _ 0 _ Hdd) by lia.
    rewrite Z.add_0_r.
    split; [reflexivity|]. split; [assumption|]. split; [lia|].
    rewrite shift_pos_value. f_equal. f_equal. lia.
Qed.

(** Scaling such an integer by a power of two [2 ^ (- j)] is exact as
    well, so that the conversion back to [int] is the integer quotient. *)
Lemma mul_pow2_to_int (p : positive) (j : Z) :
  Zpos p < 2 ^ 53 -> 0 <= j <= 1000 ->
  Float64.to_int
    (Float64.mul (Float64.of_int (Zpos p))
       (S754_finite false (2 ^ 52) (- 52 - j)))
  = Zpos p / 2 ^ j.
Proof.
  intros Hp Hj.
  destruct (of_int_exact p Hp) as (mz & ez & -> & Hd & Hez & Hv).
  unfold Float64.mul, SFmul, Float64.prec, Float64.emax. simpl xorb.
  assert (Hm : (mz * 2 ^ 52)%positive = Pos.iter xO mz 52).
  { apply Pos2Z.inj. rewrite shift_pos_value, Pos2Z.inj_mul.
    reflexivity. }
  rewrite Hm.
  rewrite (binary_round_aux_shift false mz 52 _ Hd) by lia.
  replace (ez + (- 52 - j) + 52) with (ez - j) by lia.
  assert (HJ : 0 < 2 ^ j) by (apply Z.pow_pos_nonneg; lia).
  assert (HE : 0 < 2 ^ (- ez)) by (apply Z.pow_pos_nonneg; lia).
  assert (Hq : 0 <= Zpos p / 2 ^ j <= Zpos p).
  { split; [apply Z.div_pos; lia|].
    apply Z.div_le_upper_bound; [lia|]. nia. }
  unfold Float64.to_int.
  assert (Ha : (if 0 <=? ez - j then Zpos mz * 2 ^ (ez - j)
                else Zpos mz / 2 ^ (- (ez - j))) = Zpos p / 2 ^ j).
  { destruct (Z.leb_spec 0 (ez - j)) as [H0|H0].
    - assert (ez = 0) by lia. assert (j = 0) by lia. subst ez j.
      simpl in Hv. rewrite Hv. simpl. rewrite Z.div_1_r. lia.
    - rewrite Hv. replace (- (ez - j)) with (j + - ez) by lia.
      rewrite Z.pow_add_r by lia.
      apply Z.div_mul_cancel_r; lia. }
  cbv zeta. rewrite Ha.
  unfold Float64.MinInt64, Float64.MaxInt64.
  destruct (Z.leb_spec (- 2 ^ 63) (Zpos p / 2 ^ j)); [|lia].
  destruct (Z.leb_spec (Zpos p / 2 ^ j) (2 ^ 63 - 1)); [reflexivity|lia].
Qed.

(** X23.  For a size from 2 up to 53 bits, [NewTwoQueueCache] builds an
    empty cache whose [recent] share is exactly a quarter of the size and
    whose ghost list has exactly half of the size as capacity, both
    rounded down; [recent] and [frequent] each get the full size as
    capacity. *)
Theorem twoq_default_capacities (V : Type) (size : Z) :
  2 <= size < 2 ^ 53 ->
  TwoQueueCache.NewTwoQueueCache V size
  = Ok (TwoQueueCache.mk size (size / 4)
          (LRU.mk size []) (LRU.mk size []) (LRU.mk (size / 2) [])).
Proof.
  intros Hs. destruct size as [|p|p]; try lia.
  unfold TwoQueueCache.NewTwoQueueCache, TwoQueueCache.newTowQueueParams.
  change (Float64.ltb TwoQueueCache.defaultRecentRatio Float64.zero
          || Float64.ltb Float64.one TwoQueueCache.defaultRecentRatio)
    with false.
  change (Float64.ltb TwoQueueCache.defaultGhostRatio Float64.zero
          || Float64.ltb Float64.one TwoQueueCache.defaultGhostRatio)
    with false.
  change TwoQueueCache.defaultRecentRatio
    with (S754_finite false (2 ^ 52) (- 52 - 2)).
  change TwoQueueCache.defaultGhostRatio
    with (S754_finite false (2 ^ 52) (- 52 - 1)).
  rewrite !mul_pow2_to_int by lia.
  change (2 ^ 2) with 4. change (2 ^ 1) with 2.
  assert (H2 : 1 <= Zpos p / 2) by (apply Z.div_le_lower_bound; lia).
  unfold LRU.NewLRU. cbv iota zeta.
  destruct (Z.leb_spec (Zpos p) 0); [lia|].
  destruct (Z.leb_spec (Zpos p / 2) 0); [lia|reflexivity].
Qed.

Lemma twoq_default_capacities_witness :
  TwoQueueCache.NewTwoQueueCache nat 10
  = Ok (TwoQueueCache.mk 10 2
          (LRU.mk 10 []) (LRU.mk 10 []) (LRU.mk 5 [])).
Proof.
  apply (twoq_default_capacities nat 10). lia.
Defined.

(** ** A scan: writes of pairwise distinct keys *)

Section ScanFacts.

Context {V : Type}.
Implicit Types (k : key) (v : any V) (L : list (Item V)).

Lemma firstn_snoc (A : Type) (m : nat) : forall l : list A,
  (m < length l)%nat ->
  exists x, firstn (S m) l = firstn m l ++ [x]
            /\ skipn m l = x :: skipn (S m) l.
Proof.
  induction m as [|m IH]; intros [|a l] Hl; simpl in Hl; try lia.
  - exists a. auto.
  - destruct (IH l) as (x & H1 & H2); [lia|]. exists x. split.
    + change (a :: firstn (S m) l = a :: firstn m l ++ [x]). now rewrite H1.
    + exact H2.
Qed.

Lemma Back_snoc L (x : Item V) : LRU.Back (L ++ [x]) = Some x.
Proof.
  induction L as [|a L IH]; [reflexivity|].
  change (LRU.Back (a :: (L ++ [x])) = Some x).
  destruct (L ++ [x]) eqn:E; [now destruct L|exact IH].
Qed.

Lemma getAndRemoveOldest_snoc (size : Z) L (x : Item V) :
  LRU.getAndRemoveOldest (LRU.mk size (L ++ [x]))
  = (LRU.mk size L, (Key x, Value x, true)).
Proof.
  unfold LRU.getAndRemoveOldest. simpl.
  now rewrite Back_snoc, removelast_last.
Qed.

(** Writing a key that is not held into a container holding the first
    [size] entries of [L] gives the first [size] entries of the longer
    list. *)
Lemma Put_firstn (size : Z) (n : nat) L k v :
  Z.to_nat size = S n ->
  ~ In k (map Key (firstn (S n) L)) ->
  LRU.Put (LRU.mk size (firstn (S n) L)) k v
  = LRU.mk size (firstn (S n) (mkItem k v :: L)).
Proof.
  intros En Hk.
  set (c := LRU.mk size (firstn (S n) L)) in *.
  assert (Hc : LRU.contains c k = false) by now apply contains_false.
  assert (Hlen : length (LRU.evictList c) = Nat.min (S n) (length L))
    by apply length_firstn.
  assert (E : LRU.evictList (LRU.Put c k v)
              = firstn (S n) (mkItem k v :: L)).
  { rewrite firstn_cons.
    destruct (Nat.lt_ge_cases (length L) (S n)) as [Hlt|Hge].
    - rewrite Put_absent_room; [|assumption|].
      + change (LRU.evictList c) with (firstn (S n) L).
        rewrite !firstn_all2 by lia. reflexivity.
      + unfold LRU.Len. rewrite Hlen. simpl LRU.size. lia.
    - rewrite Put_absent_full; [|assumption|].
      + change (LRU.evictList c) with (firstn (S n) L).
        destruct (firstn (S n) L) as [|a l] eqn:Ef.
        { destruct L; [simpl in Hge; lia|discriminate]. }
        change (removelast (mkItem k v :: a :: l))
          with (mkItem k v :: removelast (a :: l)).
        rewrite <- Ef. now rewrite removelast_firstn by lia.
      + unfold LRU.Len. rewrite Hlen. simpl LRU.size. lia. }
  pose proof (Put_size c k v) as Hs.
  destruct (LRU.Put c k v) as [s l]. simpl in *. now subst.
Qed.

Lemma keys_firstn (j : nat) L k :
  In k (map Key (firstn j L)) -> In k (map Key L).
Proof.
  intros H. rewrite <- (firstn_skipn j L), map_app.
  apply in_or_app. now left.
Qed.

Lemma keys_skipn (j : nat) L k :
  In k (map Key (skipn j L)) -> In k (map Key L).
Proof.
  intros H. rewrite <- (firstn_skipn j L), map_app.
  apply in_or_app. now right.
Qed.

Lemma LRU_eq (c : LRU.t V) (size : Z) L :
  LRU.size c = size -> LRU.evictList c = L -> c = LRU.mk size L.
Proof. destruct c. simpl. now intros -> ->. Qed.

(** The entry that a full [firstn]-window drops when one more entry is
    put in front: it is neither in the rest of the window nor behind
    it. *)
Lemma window_drop (m : nat) L :
  NoDup (map Key L) -> (S m <= length L)%nat ->
  exists x,
    firstn (S m) L = firstn m L ++ [x]
    /\ skipn m L = x :: skipn (S m) L
    /\ ~ In (Key x) (map Key (skipn (S m) L)).
Proof.
  intros Hd Hl. destruct (firstn_snoc _ m L) as (x & H1 & H2); [lia|].
  exists x. split; [assumption|]. split; [assumption|].
  rewrite <- (firstn_skipn m L), H2, map_app in Hd. simpl in Hd.
  apply NoDup_remove_2 in Hd. intros Hin. apply Hd, in_or_app. now right.
Qed.

End ScanFacts.

Section ARCScan.

Context {V : Type}.
Implicit Types (k : key) (v : any V) (L : list (Item V)).

(** One more write of a new key during a scan: [T1] is the window of the
    [size] newest entries, [B1] remembers the keys of the window before
    it, and [p], [T2] and [B2] stay as [NewARC] left them. *)
Lemma arc_scan_step (size : Z) (n : nat) L k v :
  Z.to_nat size = S n ->
  NoDup (map Key L) -> ~ In k (map Key L) ->
  ARCCache.Put
    (ARCCache.mk size 0
       (LRU.mk size (firstn (S n) L))
       (LRU.mk size
          (map (fun e => mkItem (Key e) None) (firstn (S n) (skipn (S n) L))))
       (LRU.mk size []) (LRU.mk size [])) k v
  = Some
      (ARCCache.mk size 0
         (LRU.mk size (firstn (S n) (mkItem k v :: L)))
         (LRU.mk size
            (map (fun e => mkItem (Key e) None)
               (firstn (S n) (skipn (S n) (mkItem k v :: L)))))
         (LRU.mk size []) (LRU.mk size [])).
Proof.
  intros En Hd Hk.
  assert (Hsz : size = Z.of_nat (S n)) by lia.
  set (g := fun e : Item V => mkItem (Key e) (@None V)).
  assert (Hg : forall l, map Key (map g l) = map Key l).
  { intros l. rewrite map_map. reflexivity. }
  assert (H1 : LRU.Contains (LRU.mk size (firstn (S n) L)) k = false).
  { apply contains_false. intros H. exact (Hk (keys_firstn _ _ _ H)). }
  assert (H2 : LRU.Contains
                 (LRU.mk size (map g (firstn (S n) (skipn (S n) L)))) k
               = false).
  { apply contains_false. unfold keys. cbn [LRU.evictList]. rewrite Hg.
    intros H.
    exact (Hk (keys_skipn _ _ _ (keys_firstn _ _ _ H))). }
  unfold ARCCache.Put. cbn [ARCCache.t1 ARCCache.t2 ARCCache.b1 ARCCache.b2].
  rewrite H1, H2.
  change (LRU.Contains (LRU.mk size []) k) with false. cbv iota.
  f_equal. unfold ARCCache.makeRoom.
  cbn [ARCCache.t1 ARCCache.t2 ARCCache.b1 ARCCache.b2 ARCCache.size
       ARCCache.p].
  change (LRU.Len (LRU.mk size (@nil (Item V)))) with 0.
  assert (Hlen : LRU.Len (LRU.mk size (firstn (S n) L))
                 = Z.of_nat (Nat.min (S n) (length L))).
  { unfold LRU.Len. cbn [LRU.evictList]. now rewrite length_firstn. }
  change (skipn (S n) (mkItem k v :: L)) with (skipn n L).
  destruct (Nat.lt_ge_cases (length L) (S n)) as [Hlt|Hge].
  - replace (_ >=? _) with false
      by (symmetry; rewrite Z.geb_leb; apply Z.leb_gt; lia).
    cbn [ARCCache.t1 ARCCache.t2 ARCCache.b1 ARCCache.b2 ARCCache.size
         ARCCache.p].
    rewrite (skipn_all2 L) by lia. rewrite (skipn_all2 L) by lia.
    rewrite firstn_nil. simpl map.
    change (LRU.Len (LRU.mk size (@nil (Item V)))) with 0.
    replace (0 >? size - 0) with false
      by (symmetry; rewrite Z.gtb_ltb; apply Z.ltb_ge; lia).
    change (0 >? 0) with false. cbv iota.
    rewrite Put_firstn; [reflexivity|assumption|].
    intros H. exact (Hk (keys_firstn _ _ _ H)).
  - replace (_ >=? _) with true
      by (symmetry; rewrite Z.geb_leb; apply Z.leb_le; lia).
    destruct (window_drop n L Hd Hge) as (x & Hf & Hs & Hx).
    unfold ARCCache.replace.
    cbn [ARCCache.t1 ARCCache.t2 ARCCache.b1 ARCCache.b2 ARCCache.size
         ARCCache.p].
    replace (_ && _) with true.
    2:{ symmetry. apply andb_true_iff. split.
        - rewrite Z.gtb_ltb. apply Z.ltb_lt. lia.
        - apply orb_true_iff. left. rewrite Z.gtb_ltb. apply Z.ltb_lt. lia. }
    unfold LRU.GetAndRemoveOldest. rewrite Hf, getAndRemoveOldest_snoc.
    cbn [ARCCache.t1 ARCCache.t2 ARCCache.b1 ARCCache.b2 ARCCache.size
         ARCCache.p].
    rewrite <- firstn_map.
    rewrite Put_firstn; [|assumption|].
    2:{ rewrite firstn_map, Hg. intros H. exact (Hx (keys_firstn _ _ _ H)). }
    change (mkItem (Key x) None :: map g (skipn (S n) L))
      with (map g (x :: skipn (S n) L)).
    rewrite <- Hs, firstn_map.
    replace (LRU.Len _ >? size - 0) with false.
    2:{ symmetry. rewrite Z.gtb_ltb. apply Z.ltb_ge.
        unfold LRU.Len. cbn [LRU.evictList].
        rewrite length_map, length_firstn. lia. }
    change (0 >? 0) with false. cbv iota.
    f_equal. apply LRU_eq; [apply Put_size|].
    rewrite Put_absent_room.
    + reflexivity.
    + apply contains_false. intros H. exact (Hk (keys_firstn _ _ _ H)).
    + unfold LRU.Len. cbn [LRU.evictList LRU.size].
      rewrite length_firstn. lia.
Qed.

Lemma arc_scan_run (size : Z) (n : nat) (kvs : list (key * any V)) :
  forall L,
  Z.to_nat size = S n ->
  NoDup (rev (map fst kvs) ++ map Key L) ->
  arc_run
    (ARCCache.mk size 0
       (LRU.mk size (firstn (S n) L))
       (LRU.mk size
          (map (fun e => mkItem (Key e) None) (firstn (S n) (skipn (S n) L))))
       (LRU.mk size []) (LRU.mk size []))
    (map (fun kv => OpPut (fst kv) (snd kv)) kvs)
  = Some
      (let L' := rev (map (fun kv => mkItem (fst kv) (snd kv)) kvs) ++ L in
       ARCCache.mk size 0
         (LRU.mk size (firstn (S n) L'))
         (LRU.mk size
            (map (fun e => mkItem (Key e) None)
               (firstn (S n) (skipn (S n) L'))))
         (LRU.mk size []) (LRU.mk size [])).
Proof.
  induction kvs as [|[k v] kvs IH]; intros L En Hd; [reflexivity|].
  cbn [map rev fst snd] in Hd. rewrite <- app_assoc in Hd.
  cbn [app] in Hd.
  pose proof (NoDup_app_remove_l _ _ Hd) as Hd'.
  apply NoDup_cons_iff in Hd' as [Hk HdL].
  cbn [map fst snd arc_run arc_exec].
  rewrite arc_scan_step by assumption.
  rewrite (IH (mkItem k v :: L) En Hd).
  cbv zeta. cbn [rev]. rewrite <- app_assoc. reflexivity.
Qed.

End ARCScan.

Section TwoQScan.

Context {V : Type}.
Implicit Types (k : key) (v : any V) (L : list (Item V)).

(** One more write of a new key during a scan: [recent] is the window of
    the [size] newest entries, the ghost list remembers the keys that
    left the window, as many as it has room for, and [frequent] stays
    empty. *)
Lemma twoq_scan_step (size rs gs : Z) (n m : nat) L k v :
  Z.to_nat size = S n -> Z.to_nat gs = S m -> rs < size ->
  NoDup (map Key L) -> ~ In k (map Key L) ->
  TwoQueueCache.Put
    (TwoQueueCache.mk size rs
       (LRU.mk size (firstn (S n) L)) (LRU.mk size [])
       (LRU.mk gs
          (map (fun e => mkItem (Key e) None)
             (firstn (S m) (skipn (S n) L))))) k v
  = TwoQueueCache.mk size rs
      (LRU.mk size (firstn (S n) (mkItem k v :: L))) (LRU.mk size [])
      (LRU.mk gs
         (map (fun e => mkItem (Key e) None)
            (firstn (S m) (skipn (S n) (mkItem k v :: L))))).
Proof.
  intros En Em Hrs Hd Hk.
  set (g := fun e : Item V => mkItem (Key e) (@None V)).
  assert (Hg : forall l, map Key (map g l) = map Key l).
  { intros l. rewrite map_map. reflexivity. }
  assert (H1 : LRU.contains (LRU.mk size (firstn (S n) L)) k = false).
  { apply contains_false. intros H. exact (Hk (keys_firstn _ _ _ H)). }
  assert (H2 : LRU.contains
                 (LRU.mk gs (map g (firstn (S m) (skipn (S n) L)))) k
               = false).
  { apply contains_false. unfold keys. cbn [LRU.evictList]. rewrite Hg.
    intros H. exact (Hk (keys_skipn _ _ _ (keys_firstn _ _ _ H))). }
  rewrite twoq_Put_fresh; [|reflexivity|exact H1|exact H2].
  cbv zeta. unfold TwoQueueCache.ensureSpace.
  cbn [TwoQueueCache.recent TwoQueueCache.frequent TwoQueueCache.evict
       TwoQueueCache.size TwoQueueCache.recentSize].
  change (LRU.Len (LRU.mk size (@nil (Item V)))) with 0.
  assert (Hlen : LRU.Len (LRU.mk size (firstn (S n) L))
                 = Z.of_nat (Nat.min (S n) (length L))).
  { unfold LRU.Len. cbn [LRU.evictList]. now rewrite length_firstn. }
  change (skipn (S n) (mkItem k v :: L)) with (skipn n L).
  destruct (Nat.lt_ge_cases (length L) (S n)) as [Hlt|Hge].
  - replace (_ <? _) with true by (symmetry; apply Z.ltb_lt; lia).
    cbn [TwoQueueCache.recent TwoQueueCache.frequent TwoQueueCache.evict
         TwoQueueCache.size TwoQueueCache.recentSize].
    rewrite (skipn_all2 L) by lia. rewrite (skipn_all2 L) by lia.
    rewrite Put_firstn; [reflexivity|assumption|].
    intros H. exact (Hk (keys_firstn _ _ _ H)).
  - replace (_ <? _) with false by (symmetry; apply Z.ltb_ge; lia).
    destruct (window_drop n L Hd Hge) as (x & Hf & Hs & Hx).
    replace (_ && _) with true.
    2:{ symmetry. apply andb_true_iff. split.
        - rewrite Z.gtb_ltb. apply Z.ltb_lt. lia.
        - apply orb_true_iff. left. rewrite Z.gtb_ltb. apply Z.ltb_lt. lia. }
    rewrite Hf, getAndRemoveOldest_snoc.
    cbn [TwoQueueCache.recent TwoQueueCache.frequent TwoQueueCache.evict
         TwoQueueCache.size TwoQueueCache.recentSize].
    rewrite <- firstn_map.
    rewrite Put_firstn; [|assumption|].
    2:{ rewrite firstn_map, Hg. intros H. exact (Hx (keys_firstn _ _ _ H)). }
    change (mkItem (Key x) None :: map g (skipn (S n) L))
      with (map g (x :: skipn (S n) L)).
    rewrite <- Hs, firstn_map.
    f_equal. apply LRU_eq; [apply Put_size|].
    rewrite Put_absent_room.
    + reflexivity.
    + apply contains_false. intros H. exact (Hk (keys_firstn _ _ _ H)).
    + unfold LRU.Len. cbn [LRU.evictList LRU.size].
      rewrite length_firstn. lia.
Qed.

Lemma twoq_scan_run (size rs gs : Z) (n m : nat)
    (kvs : list (key * any V)) :
  forall L,
  Z.to_nat size = S n -> Z.to_nat gs = S m -> rs < size ->
  NoDup (rev (map fst kvs) ++ map Key L) ->
  twoq_run
    (TwoQueueCache.mk size rs
       (LRU.mk size (firstn (S n) L)) (LRU.mk size [])
       (LRU.mk gs
          (map (fun e => mkItem (Key e) None)
             (firstn (S m) (skipn (S n) L)))))
    (map (fun kv => OpPut (fst kv) (snd kv)) kvs)
  = let L' := rev (map (fun kv => mkItem (fst kv) (snd kv)) kvs) ++ L in
    TwoQueueCache.mk size rs
      (LRU.mk size (firstn (S n) L')) (LRU.mk size [])
      (LRU.mk gs
         (map (fun e => mkItem (Key e) None)
            (firstn (S m) (skipn (S n) L')))).
Proof.
  induction kvs as [|[k v] kvs IH]; intros L En Em Hrs Hd; [reflexivity|].
  cbn [map rev fst snd] in Hd. rewrite <- app_assoc in Hd.
  cbn [app] in Hd.
  pose proof (NoDup_app_remove_l _ _ Hd) as Hd'.
  apply NoDup_cons_iff in Hd' as [Hk HdL].
  unfold twoq_run in *. cbn [map fst snd fold_left twoq_exec].
  rewrite twoq_scan_step by assumption.
  rewrite (IH (mkItem k v :: L) En Em Hrs Hd).
  cbv zeta. cbn [rev]. rewrite <- app_assoc. reflexivity.
Qed.

End TwoQScan.

Lemma NewTwoQueueCache_shape (V : Type) (size : Z)
    (c0 : TwoQueueCache.t V) :
  TwoQueueCache.NewTwoQueueCache V size = Ok c0 ->
  exists rs gs,
    c0 = TwoQueueCache.mk size rs (LRU.mk size []) (LRU.mk size [])
           (LRU.mk gs [])
    /\ 0 < size /\ rs < size /\ 0 < gs.
Proof.
  intros Hnew.
  destruct (NewTwoQueueCache_inv _ _ Hnew) as (I & _ & Hpos).
  pose proof (tq_recentSize _ I) as Hrs.
  pose proof (lru_cap_pos _ (tq_evict _ I)) as Hgs.
  unfold TwoQueueCache.NewTwoQueueCache,
    TwoQueueCache.newTowQueueParams, LRU.NewLRU in Hnew.
  repeat match type of Hnew with
         | (if ?b then _ else _) = _ => destruct b; [discriminate|]
         end.
  cbv zeta in Hnew.
  repeat match type of Hnew with
         | context [if ?b then _ else _] => destruct b; [discriminate|]
         end.
  injection Hnew as <-. simpl in Hrs, Hgs. eauto 8.
Qed.

(** X24.  A scan leaves the ARC cache holding what an LRU container of
    the same size holds: after [Put] of pairwise distinct keys into a new
    cache, [Items] is the last [size] of them, newest first, each with its
    value; [B1] lists the keys of the [size] entries written before
    those, newest first and without values; [p] is still 0 and [T2] and
    [B2] are empty. *)
Theorem arc_scan_keeps_most_recent (V : Type) (size : Z)
    (c0 : ARCCache.t V) (kvs : list (key * any V)) :
  ARCCache.NewARC V size = Ok c0 ->
  NoDup (map fst kvs) ->
  let n := Z.to_nat size in
  let L := rev (map (fun kv => mkItem (fst kv) (snd kv)) kvs) in
  exists c,
    arc_run c0 (map (fun kv => OpPut (fst kv) (snd kv)) kvs) = Some c
    /\ ARCCache.Items c = firstn n L
    /\ LRU.Items (ARCCache.b1 c)
       = map (fun e => mkItem (Key e) None) (firstn n (skipn n L))
    /\ ARCCache.p c = 0
    /\ LRU.Items (ARCCache.t2 c) = []
    /\ LRU.Items (ARCCache.b2 c) = [].
Proof.
  intros Hnew Hd n L.
  destruct (NewARC_inv _ _ Hnew) as (_ & _ & Hpos).
  rewrite (NewARC_ok size Hpos) in Hnew. injection Hnew as <-.
  destruct n as [|n'] eqn:En; [lia|].
  assert (Hd' : NoDup (rev (map fst kvs) ++ map Key (@nil (Item V)))).
  { cbn [map]. rewrite app_nil_r. now apply NoDup_rev. }
  pose proof (arc_scan_run size n' kvs [] En Hd') as Hrun.
  cbv zeta in Hrun. rewrite app_nil_r, skipn_nil, !firstn_nil in Hrun.
  cbn [map] in Hrun.
  eexists. split; [exact Hrun|].
  unfold ARCCache.Items, LRU.Items.
  cbn [ARCCache.t1 ARCCache.t2 ARCCache.b1 ARCCache.b2 ARCCache.p
       LRU.evictList].
  rewrite app_nil_r. repeat split.
Qed.

Lemma arc_scan_keeps_most_recent_witness :
  exists c : ARCCache.t nat,
    arc_run
      (ARCCache.mk 2 0 (LRU.mk 2 []) (LRU.mk 2 []) (LRU.mk 2 [])
         (LRU.mk 2 []))
      [OpPut 1%N (Some 10%nat); OpPut 2%N (Some 20%nat);
       OpPut 3%N (Some 30%nat)] = Some c
    /\ ARCCache.Items c
       = [mkItem 3%N (Some 30%nat); mkItem 2%N (Some 20%nat)]
    /\ LRU.Items (ARCCache.b1 c) = [mkItem 1%N None]
    /\ ARCCache.p c = 0
    /\ LRU.Items (ARCCache.t2 c) = []
    /\ LRU.Items (ARCCache.b2 c) = [].
Proof.
  assert (Hd : NoDup [1%N; 2%N; 3%N]).
  { repeat constructor; simpl; intuition discriminate. }
  exact (arc_scan_keeps_most_recent nat 2 _
           [(1%N, Some 10%nat); (2%N, Some 20%nat); (3%N, Some 30%nat)]
           eq_refl Hd).
Defined.

(** X25.  A scan leaves the 2Q cache holding what an LRU container of
    the same size holds: after [Put] of pairwise distinct keys into a new
    cache, [Items] is the last [size] of them, newest first, each with its
    value, all of them in [recent]; the ghost list holds the keys of the
    entries written before those, newest first and without values, as
    many as its capacity allows. *)
Theorem twoq_scan_keeps_most_recent (V : Type) (size : Z)
    (c0 : TwoQueueCache.t V) (kvs : list (key * any V)) :
  TwoQueueCache.NewTwoQueueCache V size = Ok c0 ->
  NoDup (map fst kvs) ->
  let n := Z.to_nat size in
  let m := Z.to_nat (LRU.size (TwoQueueCache.evict c0)) in
  let L := rev (map (fun kv => mkItem (fst kv) (snd kv)) kvs) in
  let c := twoq_run c0 (map (fun kv => OpPut (fst kv) (snd kv)) kvs) in
  TwoQueueCache.Items c = firstn n L
  /\ LRU.Items (TwoQueueCache.recent c) = firstn n L
  /\ LRU.Items (TwoQueueCache.frequent c) = []
  /\ LRU.Items (TwoQueueCache.evict c)
     = map (fun e => mkItem (Key e) None) (firstn m (skipn n L)).
Proof.
  intros Hnew Hd n m L c.
  destruct (NewTwoQueueCache_shape _ _ _ Hnew)
    as (rs & gs & -> & Hpos & Hrs & Hgs).
  simpl in m.
  destruct n as [|n'] eqn:En; [lia|].
  destruct m as [|m'] eqn:Em; [lia|].
  assert (Hd' : NoDup (rev (map fst kvs) ++ map Key (@nil (Item V)))).
  { cbn [map]. rewrite app_nil_r. now apply NoDup_rev. }
  pose proof (twoq_scan_run size rs gs n' m' kvs [] En Em Hrs Hd') as Hrun.
  cbv zeta in Hrun. rewrite app_nil_r, skipn_nil, !firstn_nil in Hrun.
  cbn [map] in Hrun.
  unfold c. rewrite Hrun.
  unfold TwoQueueCache.Items, LRU.Items.
  cbn [TwoQueueCache.recent TwoQueueCache.frequent TwoQueueCache.evict
       LRU.evictList].
  rewrite app_nil_r. repeat split.
Qed.

Lemma twoq_scan_keeps_most_recent_witness :
  let c :=
    twoq_run
      (TwoQueueCache.mk 2 0 (LRU.mk 2 []) (LRU.mk 2 []) (LRU.mk 1 []))
      [OpPut 1%N (Some 10%nat); OpPut 2%N (Some 20%nat);
       OpPut 3%N (Some 30%nat); OpPut 4%N (Some 40%nat)] in
  TwoQueueCache.Items c
  = [mkItem 4%N (Some 40%nat); mkItem 3%N (Some 30%nat)]
  /\ LRU.Items (TwoQueueCache.recent c)
     = [mkItem 4%N (Some 40%nat); mkItem 3%N (Some 30%nat)]
  /\ LRU.Items (TwoQueueCache.frequent c) = []
  /\ LRU.Items (TwoQueueCache.evict c) = [mkItem 2%N None].
Proof.
  assert (Hd : NoDup [1%N; 2%N; 3%N; 4%N]).
  { repeat constructor; simpl; intuition discriminate. }
  exact (twoq_scan_keeps_most_recent nat 2 _
           [(1%N, Some 10%nat); (2%N, Some 20%nat); (3%N, Some 30%nat);
            (4%N, Some 40%nat)]
           eq_refl Hd).
Defined.

(** X26.  On an ARC cache reached from [NewARC], [p] stays between 0 and
    the size, and the only operation that changes it is a [Put] on a key
    that is a ghost (in [B1] or [B2]) and not cached. *)
Theorem arc_target_moves_on_ghost_hits (V : Type) (size : Z)
    (c0 c c' : ARCCache.t V) (ops : list (op V)) (o : op V) :
  ARCCache.NewARC V size = Ok c0 ->
  arc_run c0 ops = Some c ->
  arc_exec c o = Some c' ->
  0 <= ARCCache.p c' <= size
  /\ (ARCCache.p c' <> ARCCache.p c ->
      exists k v,
        o = OpPut k v
        /\ snd (ARCCache.Peek c k) = false
        /\ LRU.contains (ARCCache.b1 c) k || LRU.contains (ARCCache.b2 c) k
           = true).
Proof.
  intros Hnew Hrun Hexec.
  destruct (arc_reachable_inv size c0 ops c Hnew Hrun) as [I Hs].
  destruct (arc_inv_exec _ _ _ I Hexec) as [I' Hs'].
  split; [pose proof (arc_p _ I'); lia|].
  intros Hp. destruct o as [k|k v|k|k| | |]; simpl in Hexec;
    try (injection Hexec as <-).
  - exfalso. apply Hp. unfold ARCCache.Get.
    destruct (LRU.Peek _ k) as [? []];
      [|destruct (LRU.Get _ k) as [? [? []]]]; reflexivity.
  - exists k, v. split; [reflexivity|].
    unfold ARCCache.Put, LRU.Contains in Hexec.
    rewrite arc_Peek_unfold.
    destruct (LRU.contains (ARCCache.t1 c) k) eqn:E1.
    { injection Hexec as <-. now exfalso. }
    destruct (LRU.contains (ARCCache.t2 c) k) eqn:E2.
    { injection Hexec as <-. now exfalso. }
    destruct (LRU.contains (ARCCache.b1 c) k) eqn:E3.
    { rewrite (Peek_absent _ _ E2). auto. }
    destruct (LRU.contains (ARCCache.b2 c) k) eqn:E4.
    { rewrite (Peek_absent _ _ E2). auto. }
    injection Hexec as <-. exfalso. apply Hp. simpl.
    apply (makeRoom_inv c false I).
  - now exfalso.
  - exfalso. apply Hp. unfold ARCCache.Remove, LRU.RemoveB.
    repeat (destruct (LRU.removeIfExist _ k) as [? []]; [reflexivity|]).
    reflexivity.
  - now exfalso.
  - now exfalso.
  - now exfalso.
Qed.

Lemma arc_target_moves_on_ghost_hits_witness :
  let c : ARCCache.t nat :=
    ARCCache.mk 2 0
      (LRU.mk 2 [mkItem 3%N (Some 30%nat); mkItem 2%N (Some 20%nat)])
      (LRU.mk 2 [mkItem 1%N None]) (LRU.mk 2 []) (LRU.mk 2 []) in
  let c' : ARCCache.t nat :=
    ARCCache.mk 2 1
      (LRU.mk 2 [mkItem 3%N (Some 30%nat)]) (LRU.mk 2 [mkItem 2%N None])
      (LRU.mk 2 [mkItem 1%N (Some 11%nat)]) (LRU.mk 2 []) in
  0 <= ARCCache.p c' <= 2
  /\ (ARCCache.p c' <> ARCCache.p c ->
      exists k v,
        OpPut 1%N (Some 11%nat) = OpPut k v
        /\ snd (ARCCache.Peek c k) = false
        /\ LRU.contains (ARCCache.b1 c) k || LRU.contains (ARCCache.b2 c) k
           = true).
Proof.
  intros c c'.
  exact (arc_target_moves_on_ghost_hits nat 2
           (ARCCache.mk 2 0 (LRU.mk 2 []) (LRU.mk 2 []) (LRU.mk 2 [])
              (LRU.mk 2 []))
           c c'
           [OpPut 1%N (Some 10%nat); OpPut 2%N (Some 20%nat);
            OpPut 3%N (Some 30%nat)]
           (OpPut 1%N (Some 11%nat)) eq_refl eq_refl eq_refl).
Defined.

(** ** Snapshots and lookups of the two-list caches *)

Section TwoLists.

Context {V : Type}.
Implicit Types (a b : LRU.t V) (k : key).

(** A lookup that tries [a] and then [b] finds exactly the entries of
    the two lists, when these index each key once and share no key. *)
Lemma two_list_lookup a b :
  lru_inv a -> lru_inv b -> disjoint a b ->
  (forall e, In e (LRU.Items a) \/ In e (LRU.Items b) ->
     (if LRU.contains a (Key e) then LRU.Peek a (Key e)
      else LRU.Peek b (Key e)) = (Value e, true))
  /\ (forall k, ~ In k (keys a) -> ~ In k (keys b) ->
        (if LRU.contains a k then LRU.Peek a k else LRU.Peek b k)
        = (None, false)).
Proof.
  intros Ia Ib Hab. split.
  - intros e [He|He]; unfold LRU.Items in He.
    + assert (Hc : LRU.contains a (Key e) = true).
      { apply contains_true. unfold keys. now apply in_map. }
      rewrite Hc. unfold LRU.Peek.
      now rewrite (items_unique _ _ (lru_nodup _ Ia) He).
    + assert (Hc : LRU.contains a (Key e) = false).
      { apply contains_false. intros Hin. apply (Hab _ Hin).
        unfold keys. now apply in_map. }
      rewrite Hc. unfold LRU.Peek.
      now rewrite (items_unique _ _ (lru_nodup _ Ib) He).
  - intros k Ha Hb. apply contains_false in Ha, Hb.
    rewrite Ha. now apply Peek_absent.
Qed.

End TwoLists.

(** X27.  On a 2Q cache reached from [NewTwoQueueCache], [Items] and the
    lookups describe the same entries: [Len()] is the length of [Items],
    every entry of [Items] is the one [Peek] finds under its key, and
    [Peek] finds nothing under a key that is not in [Items]. *)
Theorem twoq_items_consistent (V : Type) (size : Z)
    (c0 : TwoQueueCache.t V) (ops : list (op V)) :
  TwoQueueCache.NewTwoQueueCache V size = Ok c0 ->
  let c := twoq_run c0 ops in
  TwoQueueCache.Len c = Z.of_nat (length (TwoQueueCache.Items c))
  /\ (forall e, In e (TwoQueueCache.Items c) ->
        TwoQueueCache.Peek c (Key e) = (Value e, true))
  /\ (forall k, ~ In k (map Key (TwoQueueCache.Items c)) ->
        TwoQueueCache.Peek c k = (None, false)).
Proof.
  intros Hnew c.
  destruct (twoq_reachable_inv size c0 ops Hnew) as [I _]. fold c in I.
  destruct (two_list_lookup (TwoQueueCache.frequent c)
              (TwoQueueCache.recent c))
    as [H1 H2];
    [apply (tq_frequent _ I)|apply (tq_recent _ I)|
     apply disjoint_sym, (tq_rf _ I)|].
  unfold TwoQueueCache.Items, TwoQueueCache.Len, LRU.Len, LRU.Items.
  split; [rewrite length_app; lia|]. split.
  - intros e He. rewrite twoq_Peek_unfold. apply H1.
    apply in_app_or in He. tauto.
  - intros k Hk. rewrite twoq_Peek_unfold. rewrite map_app in Hk.
    apply H2; intros Hin; apply Hk, in_or_app; auto.
Qed.

Lemma twoq_items_consistent_witness :
  let c :=
    twoq_run
      (TwoQueueCache.mk 4 1 (LRU.mk 4 []) (LRU.mk 4 []) (LRU.mk 2 []))
      [OpPut 1%N (Some 10%nat); OpPut 2%N (Some 20%nat); OpGet 1%N;
       OpPut 3%N (Some 30%nat)] in
  TwoQueueCache.Len c = Z.of_nat (length (TwoQueueCache.Items c))
  /\ (forall e, In e (TwoQueueCache.Items c) ->
        TwoQueueCache.Peek c (Key e) = (Value e, true))
  /\ (forall k, ~ In k (map Key (TwoQueueCache.Items c)) ->
        TwoQueueCache.Peek c k = (None, false)).
Proof.
  exact (twoq_items_consistent nat 4 _
           [OpPut 1%N (Some 10%nat); OpPut 2%N (Some 20%nat); OpGet 1%N;
            OpPut 3%N (Some 30%nat)] eq_refl).
Defined.

(** X28.  On an ARC cache reached from [NewARC], [Items] and the lookups
    describe the same entries: [Len()] is the length of [Items], every
    entry of [Items] is the one [Peek] finds under its key, and [Peek]
    finds nothing under a key that is not in [Items], a ghost
    included. *)
Theorem arc_items_consistent (V : Type) (size : Z) (c0 c : ARCCache.t V)
    (ops : list (op V)) :
  ARCCache.NewARC V size = Ok c0 ->
  arc_run c0 ops = Some c ->
  ARCCache.Len c = Z.of_nat (length (ARCCache.Items c))
  /\ (forall e, In e (ARCCache.Items c) ->
        ARCCache.Peek c (Key e) = (Value e, true))
  /\ (forall k, ~ In k (map Key (ARCCache.Items c)) ->
        ARCCache.Peek c k = (None, false))
  /\ (forall k, LRU.contains (ARCCache.b1 c) k
                || LRU.contains (ARCCache.b2 c) k = true ->
        ARCCache.Peek c k = (None, false)).
Proof.
  intros Hnew Hrun.
  destruct (arc_reachable_inv size c0 ops c Hnew Hrun) as [I _].
  destruct (two_list_lookup (ARCCache.t1 c) (ARCCache.t2 c))
    as [H1 H2];
    [apply (arc_t1 _ I)|apply (arc_t2 _ I)|apply (arc_t1_t2 _ I)|].
  unfold ARCCache.Items, ARCCache.Len, LRU.Len, LRU.Items.
  split; [rewrite length_app; lia|]. split; [|split].
  - intros e He. rewrite arc_Peek_unfold. apply H1.
    apply in_app_or in He. tauto.
  - intros k Hk. rewrite arc_Peek_unfold. rewrite map_app in Hk.
    apply H2; intros Hin; apply Hk, in_or_app; auto.
  - intros k Hk. rewrite arc_Peek_unfold.
    apply orb_true_iff in Hk as [Hk|Hk]; apply contains_true in Hk.
    + apply H2; intros Hin.
      * exact (arc_t1_b1 _ I _ Hin Hk).
      * exact (arc_t2_b1 _ I _ Hin Hk).
    + apply H2; intros Hin.
      * exact (arc_t1_b2 _ I _ Hin Hk).
      * exact (arc_t2_b2 _ I _ Hin Hk).
Qed.

Lemma arc_items_consistent_witness :
  let c : ARCCache.t nat :=
    ARCCache.mk 2 1
      (LRU.mk 2 [mkItem 4%N (Some 40%nat)]) (LRU.mk 2 [mkItem 2%N None])
      (LRU.mk 2 [mkItem 3%N (Some 30%nat)]) (LRU.mk 2 [mkItem 1%N None]) in
  ARCCache.Len c = Z.of_nat (length (ARCCache.Items c))
  /\ (forall e, In e (ARCCache.Items c) ->
        ARCCache.Peek c (Key e) = (Value e, true))
  /\ (forall k, ~ In k (map Key (ARCCache.Items c)) ->
        ARCCache.Peek c k = (None, false))
  /\ (forall k, LRU.contains (ARCCache.b1 c) k
                || LRU.contains (ARCCache.b2 c) k = true ->
        ARCCache.Peek c k = (None, false)).
Proof.
  intros c.
  exact (arc_items_consistent nat 2
           (ARCCache.mk 2 0 (LRU.mk 2 []) (LRU.mk 2 []) (LRU.mk 2 [])
              (LRU.mk 2 []))
           c
           [OpPut 1%N (Some 10%nat); OpPut 2%N (Some 20%nat);
            OpPut 3%N (Some 30%nat); OpPut 1%N (Some 11%nat);
            OpGet 3%N; OpPut 4%N (Some 40%nat)]
           eq_refl eq_refl).
Defined.
